(** * Load-balancing simulator: shallow embedding of [src/app.js]

    The engine of [AdvancedLoadBalancingSimulator] (server pool, selection
    strategies, per-server priority scheduling, aging, metrics) is embedded
    as Rocq functions over an explicit simulator state.  DOM updates, chart
    rendering, logging and file export are observers of that state and are
    left out.

    Conventions.
    - JS numbers that the program only ever uses as integers (ids, times,
      loads, capacities, counters) are [Z]; numbers that may be fractional
      (weights, ratios, averages, percentile arguments) are rationals [Q],
      each standing for the finite double of that value.  Where the
      program selects by a computed fraction (the percentile index, the
      ratios compared by weighted round robin, the averages compared by
      the shortest-response-time strategy) every division and
      multiplication is rounded to the nearest double ([Js.round64]).
      Fractions that are only stored as metrics, the weight drawn for a
      new server, and the comparisons of a random draw or of a load ratio
      with a threshold are kept exact: no statement below depends on
      their last bit.  [NaN] and the
      infinities are not modelled: a division by zero yields 0 here.  The
      program divides unguarded by a server's capacity only (load check of
      the health update, weights of the randomized strategy), so the model
      departs from it there when a capacity is 0; the statements below hold
      whichever way those two branches go.
    - Task objects are shared between [this.tasks], the per-server queues,
      [processingTasks], [completedTasks] and [failedTasks].  They live in a
      heap ([list Task], a reference is an index) and every collection holds
      references, so a mutation through one alias is seen through all.
    - Server objects are referenced by their index in [this.servers].
    - [Math.random], [Date.now] and [Math.sqrt] belong to the host; the
      state carries them as oracles with read cursors.  The intervals and
      timeouts of the page are the host's too: what they trigger is a
      request ([Op]) that may come at any time. *)

From Stdlib Require Import ZArith QArith Qround Qpower Lia Lqa String Ascii.
From Stdlib Require Import DecimalString DecimalPos DecimalFacts.
From Stdlib Require Import Sorting.Sorted.
From stdpp Require Import gmap strings list sorting.

Close Scope Q_scope.
Open Scope Z_scope.

(** ** JavaScript number helpers *)

Module Js.

(** [ToInt32]: wrap an integer to the signed 32-bit range. *)
Definition toInt32 (z : Z) : Z := (z + 2 ^ 31) mod 2 ^ 32 - 2 ^ 31.

(** [a << n] on numbers: both operands go through [ToInt32], so does the
    result. *)
Definition shl (a n : Z) : Z := toInt32 (Z.shiftl (toInt32 a) n).

(** [a & b]. *)
Definition band (a b : Z) : Z := toInt32 (Z.land (toInt32 a) (toInt32 b)).

(** [a % b] keeps the sign of the dividend. *)
Definition rem (a b : Z) : Z := Z.rem a b.

(** [arr[i]] for a numeric index: [undefined] ([None]) out of range. *)
Definition index {A} (arr : list A) (i : Z) : option A :=
  if i <? 0 then None else arr !! Z.to_nat i.

(** [n.toString()] for an integer-valued number. *)
Definition toString (n : Z) : string := NilZero.string_of_int (Z.to_int n).

(** [str.charCodeAt(i)] for every [i] in turn. *)
Definition charCodes (str : string) : list Z :=
  map (fun c => Z.of_nat (nat_of_ascii c)) (list_ascii_of_string str).

(** [Math.floor] and [Math.ceil] on rationals. *)
Definition floor (q : Q) : Z := Qfloor q.
Definition ceil (q : Q) : Z := Qceiling q.

(** *** Arithmetic on doubles

    [round64 q] is the double nearest to [q]: 53 significant bits, ties to
    the even significand.  Every [/] and [*] of the program on fractional
    numbers yields the exact result rounded this way.  The exponent is not
    bounded here: overflow to [Infinity] and the subnormal range are left
    out. *)

(** [2^e] for any integer [e]. *)
Definition pow2 (e : Z) : Q := Qpower 2 e.

(** The exponent [b] with [2^b <= a < 2^(b+1)], for [a > 0]. *)
Definition binade (a : Q) : Z :=
  let k := Z.log2 (Qnum a) - Z.log2 (Z.pos (Qden a)) in
  if Qle_bool (pow2 k) a then k else k - 1.

(** The nearest integer, a tie going to the even one. *)
Definition roundHalfEven (x : Q) : Z :=
  let f := Qfloor x in
  match (x - inject_Z f ?= 1 # 2)%Q with
  | Lt => f
  | Gt => f + 1
  | Eq => if Z.even f then f else f + 1
  end.

(** Rounding of a positive number: the significand is the nearest integer
    to [a / 2^(b-52)], which lies between [2^52] and [2^53]. *)
Definition roundPos (a : Q) : Q :=
  let e := binade a - 52 in
  (inject_Z (roundHalfEven (a / pow2 e)) * pow2 e)%Q.

Definition round64 (q : Q) : Q :=
  match Qnum q with
  | 0 => 0%Q
  | Z.pos _ => roundPos q
  | Z.neg _ => (- roundPos (- q))%Q
  end.

(** [arr.slice(-n)]: the last [n] elements. *)
Definition slice_last {A} (n : nat) (arr : list A) : list A :=
  drop (length arr - n)%nat arr.

End Js.

(** ** Data model *)

Inductive Priority := high | medium | low.
Inductive Status := pending | processing | completed | failed.
Inductive Health := healthy | degraded | failedH | recovering.
Inductive Algorithm :=
  | roundRobin | leastLoad | weightedRoundRobin
  | shortestResponseTime | randomized | consistentHashing
  | otherAlgorithm.
Inductive SimulationState := stopped | running | paused | completedRun.

#[global] Instance Priority_eq_dec : EqDecision Priority.
Proof. solve_decision. Defined.
#[global] Instance Status_eq_dec : EqDecision Status.
Proof. solve_decision. Defined.
#[global] Instance Health_eq_dec : EqDecision Health.
Proof. solve_decision. Defined.

(** References into the task heap and into [this.servers]. *)
Abbreviation tref := nat.
Abbreviation sref := nat.

Record Task := mkTask {
  id : Z;
  priority : Priority;
  arrivalTime : Z;
  processingTime : Z;
  remainingTime : Z;
  slaDeadline : Z;
  assignedServer : option Z;
  completionTime : option Z;
  responseTime : option Z;
  status : Status;
  tfailed : bool            (* the [failed] flag of a task *)
}.

Record TaskQueues := mkQueues {
  qhigh : list tref;
  qmedium : list tref;
  qlow : list tref
}.

Record Server := mkServer {
  sid : Z;
  currentLoad : Z;
  capacity : Z;
  weight : Q;
  healthStatus : Health;
  responseTimeHistory : list Z;
  taskQueues : TaskQueues;
  processingTasks : list tref;
  totalProcessed : Z;
  uptime : Q;
  lastHealthCheck : Z;
  failureTime : option Z;
  recoveryTime : option Z;
  creationTime : Z
}.

Record PriorityDistribution := mkDist {
  dhigh : Z;
  dmedium : Z;
  dlow : Z
}.

Record Config := mkConfig {
  serverCount : Z;
  serverCapacity : Z;
  taskCount : Z;
  taskProcessingTimeMin : Z;
  taskProcessingTimeMax : Z;
  arrivalRate : Z;
  algorithm : Algorithm;
  serverFailureRate : Q;
  healthCheckInterval : Z;
  serverRecoveryTime : Z;
  priorityDistribution : PriorityDistribution
}.

(** [this.taskPriorities[p].slaTarget]. *)
Definition slaTarget (p : Priority) : Z :=
  match p with
  | high => 2000
  | medium => 5000
  | low => 10000
  end.

(** [server.taskQueues[p]] as a getter and a setter. *)
Definition queueOf (p : Priority) (q : TaskQueues) : list tref :=
  match p with
  | high => qhigh q
  | medium => qmedium q
  | low => qlow q
  end.

Definition setQueue (p : Priority) (l : list tref) (q : TaskQueues) : TaskQueues :=
  match p with
  | high => mkQueues l (qmedium q) (qlow q)
  | medium => mkQueues (qhigh q) l (qlow q)
  | low => mkQueues (qhigh q) (qmedium q) l
  end.

(** ** Pure helpers of the simulator *)

(** [normalizePriorityDistribution], on the distribution it rewrites. *)
Definition normalizePriorityDistribution (d : PriorityDistribution)
  : PriorityDistribution :=
  let total := dhigh d + dmedium d + dlow d in
  if total =? 100 then d
  else
    let diff := 100 - total in
    let low1 := dlow d + diff in
    mkDist (dhigh d) (dmedium d) (Z.max 0 (Z.min 100 low1)).

(** [simpleHash]. *)
Definition simpleHash (str : string) : Z :=
  Z.abs
    (fold_left
       (fun hash char =>
          let hash := (Js.shl hash 5 - hash) + char in
          Js.band hash hash)
       (Js.charCodes str) 0).

(** [consistentHashingSelection]: [hash % 0] is [NaN] and indexes nothing. *)
Definition consistentHashingSelection {A} (servers : list A) (task : Task)
  : option A :=
  let hash := simpleHash (Js.toString (id task)) in
  if Z.of_nat (length servers) =? 0 then None
  else
    let serverIndex := Js.rem hash (Z.of_nat (length servers)) in
    Js.index servers serverIndex.

(** [roundRobinSelection], with [this.roundRobinCounter] passed in and out.
    [null] is [None]. *)
Definition roundRobinSelection {A} (servers : list A) (roundRobinCounter : Z)
  : option A * Z :=
  if Z.of_nat (length servers) =? 0 then (None, roundRobinCounter)
  else
    let server :=
      Js.index servers (Js.rem roundRobinCounter (Z.of_nat (length servers))) in
    (server, Js.rem (roundRobinCounter + 1) (Z.of_nat (length servers))).

(** [getPercentile], for a finite [percentile]; the quotient and the
    product are doubles.  The clamped index is always in range, so the
    default of [nth] is never used.  (Where the product would overflow or
    underflow in the program, the index is clamped to the same end of the
    array as here.) *)
Definition getPercentile (sortedArray : list Z) (percentile : Q) : Z :=
  if Z.of_nat (length sortedArray) =? 0 then 0
  else
    let index :=
      Js.ceil (Js.round64 (Js.round64 (percentile / 100)
                           * inject_Z (Z.of_nat (length sortedArray))))%Q
      - 1 in
    nth (Z.to_nat (Z.max 0 (Z.min index (Z.of_nat (length sortedArray) - 1))))
        sortedArray 0.

(** ** Rational comparisons as the program uses them *)

Definition Qltb (a b : Q) : bool := negb (Qle_bool b a).
Definition Qmaxb (a b : Q) : Q := if Qle_bool a b then b else a.

(** Sum and mean of a list of numbers ([reduce] with [+], then [/ length]). *)
Definition Qsum (l : list Q) : Q := fold_left Qplus l 0%Q.
Definition Zsum (l : list Z) : Z := fold_left Z.add l 0.

(** [null] coerces to [0] in arithmetic. *)
Definition numOr0 (o : option Z) : Z := default 0 o.

(** ** Simulator state *)

Record Host := mkHost {
  Math_random : nat -> Q;      (* the n-th draw, a number in [0,1) *)
  randomCalls : nat;
  Date_now : nat -> Z;         (* the n-th clock reading, in ms *)
  nowCalls : nat;
  Math_sqrt : Q -> Q
}.

(** A field of [this.metrics]: an array of numbers, or one of the two
    nested objects. *)
Inductive MetricField :=
  | Series (values : list Q)
  | Group (members : gmap string (list Q))
  | PriorityGroup (members : gmap string (list Q * Z)).

Record TaskProgress := mkProgress {
  tp_total : Z;
  tp_pending : Z;
  tp_inProgress : Z;
  tp_completed : Z;
  tp_failed : Z;
  tp_completionPercentage : Q;
  tp_completionRate : Q;
  tp_successRate : Q;
  tp_eta : Q
}.

Record Sim := mkSim {
  servers : list Server;
  heap : list Task;
  tasks : list tref;
  completedTasks : list tref;
  failedTasks : list tref;
  currentTaskId : Z;
  simulationTime : Z;
  roundRobinCounter : Z;
  weightedRoundRobinCounters : list Z;
  simulationState : SimulationState;
  metrics : gmap string MetricField;
  config : Config;
  taskProgress : option TaskProgress;
  recoveryTimers : list sref;  (* pending [setTimeout] callbacks of updateServerHealth *)
  host : Host
}.

(** Field updates. *)
Definition set_servers v (s : Sim) : Sim :=
  mkSim v (heap s) (tasks s) (completedTasks s) (failedTasks s) (currentTaskId s)
    (simulationTime s) (roundRobinCounter s) (weightedRoundRobinCounters s)
    (simulationState s) (metrics s) (config s) (taskProgress s) (recoveryTimers s) (host s).
Definition set_heap v (s : Sim) : Sim :=
  mkSim (servers s) v (tasks s) (completedTasks s) (failedTasks s) (currentTaskId s)
    (simulationTime s) (roundRobinCounter s) (weightedRoundRobinCounters s)
    (simulationState s) (metrics s) (config s) (taskProgress s) (recoveryTimers s) (host s).
Definition set_tasks v (s : Sim) : Sim :=
  mkSim (servers s) (heap s) v (completedTasks s) (failedTasks s) (currentTaskId s)
    (simulationTime s) (roundRobinCounter s) (weightedRoundRobinCounters s)
    (simulationState s) (metrics s) (config s) (taskProgress s) (recoveryTimers s) (host s).
Definition set_completedTasks v (s : Sim) : Sim :=
  mkSim (servers s) (heap s) (tasks s) v (failedTasks s) (currentTaskId s)
    (simulationTime s) (roundRobinCounter s) (weightedRoundRobinCounters s)
    (simulationState s) (metrics s) (config s) (taskProgress s) (recoveryTimers s) (host s).
Definition set_failedTasks v (s : Sim) : Sim :=
  mkSim (servers s) (heap s) (tasks s) (completedTasks s) v (currentTaskId s)
    (simulationTime s) (roundRobinCounter s) (weightedRoundRobinCounters s)
    (simulationState s) (metrics s) (config s) (taskProgress s) (recoveryTimers s) (host s).
Definition set_currentTaskId v (s : Sim) : Sim :=
  mkSim (servers s) (heap s) (tasks s) (completedTasks s) (failedTasks s) v
    (simulationTime s) (roundRobinCounter s) (weightedRoundRobinCounters s)
    (simulationState s) (metrics s) (config s) (taskProgress s) (recoveryTimers s) (host s).
Definition set_simulationTime v (s : Sim) : Sim :=
  mkSim (servers s) (heap s) (tasks s) (completedTasks s) (failedTasks s) (currentTaskId s)
    v (roundRobinCounter s) (weightedRoundRobinCounters s)
    (simulationState s) (metrics s) (config s) (taskProgress s) (recoveryTimers s) (host s).
Definition set_roundRobinCounter v (s : Sim) : Sim :=
  mkSim (servers s) (heap s) (tasks s) (completedTasks s) (failedTasks s) (currentTaskId s)
    (simulationTime s) v (weightedRoundRobinCounters s)
    (simulationState s) (metrics s) (config s) (taskProgress s) (recoveryTimers s) (host s).
Definition set_weightedRoundRobinCounters v (s : Sim) : Sim :=
  mkSim (servers s) (heap s) (tasks s) (completedTasks s) (failedTasks s) (currentTaskId s)
    (simulationTime s) (roundRobinCounter s) v
    (simulationState s) (metrics s) (config s) (taskProgress s) (recoveryTimers s) (host s).
Definition set_simulationState v (s : Sim) : Sim :=
  mkSim (servers s) (heap s) (tasks s) (completedTasks s) (failedTasks s) (currentTaskId s)
    (simulationTime s) (roundRobinCounter s) (weightedRoundRobinCounters s)
    v (metrics s) (config s) (taskProgress s) (recoveryTimers s) (host s).
Definition set_metrics v (s : Sim) : Sim :=
  mkSim (servers s) (heap s) (tasks s) (completedTasks s) (failedTasks s) (currentTaskId s)
    (simulationTime s) (roundRobinCounter s) (weightedRoundRobinCounters s)
    (simulationState s) v (config s) (taskProgress s) (recoveryTimers s) (host s).
Definition set_config v (s : Sim) : Sim :=
  mkSim (servers s) (heap s) (tasks s) (completedTasks s) (failedTasks s) (currentTaskId s)
    (simulationTime s) (roundRobinCounter s) (weightedRoundRobinCounters s)
    (simulationState s) (metrics s) v (taskProgress s) (recoveryTimers s) (host s).
Definition set_taskProgress v (s : Sim) : Sim :=
  mkSim (servers s) (heap s) (tasks s) (completedTasks s) (failedTasks s) (currentTaskId s)
    (simulationTime s) (roundRobinCounter s) (weightedRoundRobinCounters s)
    (simulationState s) (metrics s) (config s) v (recoveryTimers s) (host s).
Definition set_recoveryTimers v (s : Sim) : Sim :=
  mkSim (servers s) (heap s) (tasks s) (completedTasks s) (failedTasks s) (currentTaskId s)
    (simulationTime s) (roundRobinCounter s) (weightedRoundRobinCounters s)
    (simulationState s) (metrics s) (config s) (taskProgress s) v (host s).
Definition set_host v (s : Sim) : Sim :=
  mkSim (servers s) (heap s) (tasks s) (completedTasks s) (failedTasks s) (currentTaskId s)
    (simulationTime s) (roundRobinCounter s) (weightedRoundRobinCounters s)
    (simulationState s) (metrics s) (config s) (taskProgress s) (recoveryTimers s) v.

Definition set_currentLoad v (s : Server) : Server :=
  mkServer (sid s) v (capacity s) (weight s) (healthStatus s) (responseTimeHistory s)
    (taskQueues s) (processingTasks s) (totalProcessed s) (uptime s) (lastHealthCheck s)
    (failureTime s) (recoveryTime s) (creationTime s).
Definition set_healthStatus v (s : Server) : Server :=
  mkServer (sid s) (currentLoad s) (capacity s) (weight s) v (responseTimeHistory s)
    (taskQueues s) (processingTasks s) (totalProcessed s) (uptime s) (lastHealthCheck s)
    (failureTime s) (recoveryTime s) (creationTime s).
Definition set_responseTimeHistory v (s : Server) : Server :=
  mkServer (sid s) (currentLoad s) (capacity s) (weight s) (healthStatus s) v
    (taskQueues s) (processingTasks s) (totalProcessed s) (uptime s) (lastHealthCheck s)
    (failureTime s) (recoveryTime s) (creationTime s).
Definition set_taskQueues v (s : Server) : Server :=
  mkServer (sid s) (currentLoad s) (capacity s) (weight s) (healthStatus s) (responseTimeHistory s)
    v (processingTasks s) (totalProcessed s) (uptime s) (lastHealthCheck s)
    (failureTime s) (recoveryTime s) (creationTime s).
Definition set_processingTasks v (s : Server) : Server :=
  mkServer (sid s) (currentLoad s) (capacity s) (weight s) (healthStatus s) (responseTimeHistory s)
    (taskQueues s) v (totalProcessed s) (uptime s) (lastHealthCheck s)
    (failureTime s) (recoveryTime s) (creationTime s).
Definition set_totalProcessed v (s : Server) : Server :=
  mkServer (sid s) (currentLoad s) (capacity s) (weight s) (healthStatus s) (responseTimeHistory s)
    (taskQueues s) (processingTasks s) v (uptime s) (lastHealthCheck s)
    (failureTime s) (recoveryTime s) (creationTime s).
Definition set_uptime v (s : Server) : Server :=
  mkServer (sid s) (currentLoad s) (capacity s) (weight s) (healthStatus s) (responseTimeHistory s)
    (taskQueues s) (processingTasks s) (totalProcessed s) v (lastHealthCheck s)
    (failureTime s) (recoveryTime s) (creationTime s).
Definition set_failureTime v (s : Server) : Server :=
  mkServer (sid s) (currentLoad s) (capacity s) (weight s) (healthStatus s) (responseTimeHistory s)
    (taskQueues s) (processingTasks s) (totalProcessed s) (uptime s) (lastHealthCheck s)
    v (recoveryTime s) (creationTime s).
Definition set_recoveryTime v (s : Server) : Server :=
  mkServer (sid s) (currentLoad s) (capacity s) (weight s) (healthStatus s) (responseTimeHistory s)
    (taskQueues s) (processingTasks s) (totalProcessed s) (uptime s) (lastHealthCheck s)
    (failureTime s) v (creationTime s).

Definition set_priority v (t : Task) : Task :=
  mkTask (id t) v (arrivalTime t) (processingTime t) (remainingTime t) (slaDeadline t)
    (assignedServer t) (completionTime t) (responseTime t) (status t) (tfailed t).
Definition set_remainingTime v (t : Task) : Task :=
  mkTask (id t) (priority t) (arrivalTime t) (processingTime t) v (slaDeadline t)
    (assignedServer t) (completionTime t) (responseTime t) (status t) (tfailed t).
Definition set_assignedServer v (t : Task) : Task :=
  mkTask (id t) (priority t) (arrivalTime t) (processingTime t) (remainingTime t) (slaDeadline t)
    v (completionTime t) (responseTime t) (status t) (tfailed t).
Definition set_completionTime v (t : Task) : Task :=
  mkTask (id t) (priority t) (arrivalTime t) (processingTime t) (remainingTime t) (slaDeadline t)
    (assignedServer t) v (responseTime t) (status t) (tfailed t).
Definition set_responseTime v (t : Task) : Task :=
  mkTask (id t) (priority t) (arrivalTime t) (processingTime t) (remainingTime t) (slaDeadline t)
    (assignedServer t) (completionTime t) v (status t) (tfailed t).
Definition set_status v (t : Task) : Task :=
  mkTask (id t) (priority t) (arrivalTime t) (processingTime t) (remainingTime t) (slaDeadline t)
    (assignedServer t) (completionTime t) (responseTime t) v (tfailed t).
Definition set_tfailed v (t : Task) : Task :=
  mkTask (id t) (priority t) (arrivalTime t) (processingTime t) (remainingTime t) (slaDeadline t)
    (assignedServer t) (completionTime t) (responseTime t) (status t) v.

(** Host calls: each reads the oracle at its cursor and advances it. *)
Definition random (s : Sim) : Q * Sim :=
  let h := host s in
  (Math_random h (randomCalls h),
   set_host (mkHost (Math_random h) (S (randomCalls h)) (Date_now h) (nowCalls h)
               (Math_sqrt h)) s).

Definition now (s : Sim) : Z * Sim :=
  let h := host s in
  (Date_now h (nowCalls h),
   set_host (mkHost (Math_random h) (randomCalls h) (Date_now h) (S (nowCalls h))
               (Math_sqrt h)) s).

(** Mutating a task or a server through a reference. *)
Definition updTask (r : tref) (f : Task -> Task) (s : Sim) : Sim :=
  set_heap (alter f r (heap s)) s.

Definition updServer (i : sref) (f : Server -> Server) (s : Sim) : Sim :=
  set_servers (alter f i (servers s)) s.

(** ** Selection strategies

    [healthyServers] is a list of server objects; each is carried with its
    reference so that the chosen one can be mutated afterwards. *)

Definition isAvailable (sv : Server) : bool :=
  bool_decide (healthStatus sv = healthy) || bool_decide (healthStatus sv = degraded).

Definition healthyServersOf (store : list Server) : list (sref * Server) :=
  List.filter (fun x => isAvailable (snd x)) (imap (fun i sv => (i, sv)) store).

(** [leastLoadSelection]: [reduce] without an initial value starts from the
    first element; on the empty array it throws, which [None] stands for
    (assignTask never calls it so). *)
Definition leastLoadSelection (servers : list (sref * Server))
  : option (sref * Server) :=
  match servers with
  | [] => None
  | first :: rest =>
      Some (fold_left
              (fun min server =>
                 if currentLoad (snd server) <? currentLoad (snd min)
                 then server else min)
              rest first)
  end.

(** [server.weight / Math.max(server.currentLoad, 1)], a double. *)
Definition weightRatio (sv : Server) : Q :=
  Js.round64 (weight sv / inject_Z (Z.max (currentLoad sv) 1))%Q.

(** [weightedRoundRobinSelection]; the loop visits [servers[0]] again. *)
Definition weightedRoundRobinSelection (servers : list (sref * Server))
  : option (sref * Server) :=
  match servers with
  | [] => None
  | first :: _ =>
      Some (fst (fold_left
                   (fun (best : (sref * Server) * Q) server =>
                      let ratio := weightRatio (snd server) in
                      if Qltb (snd best) ratio then (server, ratio) else best)
                   servers (first, weightRatio (snd first))))
  end.

(** [getAverageResponseTime]; the sum is an integer, the quotient a
    double. *)
Definition getAverageResponseTime (sv : Server) : Q :=
  if Z.of_nat (length (responseTimeHistory sv)) =? 0 then 1000%Q
  else
    let recent := Js.slice_last 10 (responseTimeHistory sv) in
    Js.round64 (inject_Z (Zsum recent) / inject_Z (Z.of_nat (length recent)))%Q.

(** [shortestResponseTimeSelection]. *)
Definition shortestResponseTimeSelection (servers : list (sref * Server))
  : option (sref * Server) :=
  match servers with
  | [] => None
  | first :: _ =>
      Some (fst (fold_left
                   (fun (best : (sref * Server) * Q) server =>
                      let avgResponseTime := getAverageResponseTime (snd server) in
                      if Qltb avgResponseTime (snd best)
                      then (server, avgResponseTime) else best)
                   servers (first, getAverageResponseTime (snd first))))
  end.

(** The loop of [randomizedSelection]: subtract weights until the draw is
    used up. *)
Fixpoint roulette {A} (servers : list A) (weights : list Q) (random : Q)
  : option A :=
  match servers, weights with
  | server :: servers', w :: weights' =>
      let random := (random - w)%Q in
      if Qle_bool random 0 then Some server else roulette servers' weights' random
  | _, _ => None
  end.

(** [randomizedSelection]; one call of [Math.random]. *)
Definition randomizedSelection (servers : list (sref * Server)) (s : Sim)
  : option (sref * Server) * Sim :=
  let weights :=
    map (fun x =>
           (1 / Qmaxb (inject_Z (currentLoad (snd x)) / inject_Z (capacity (snd x)))
                      (1 # 10))%Q) servers in
  let totalWeight := Qsum weights in
  let '(r, s) := random s in
  match roulette servers weights (r * totalWeight)%Q with
  | Some server => (Some server, s)
  | None => (last servers, s)
  end.

(** [selectServerByAlgorithm]. *)
Definition selectServerByAlgorithm (healthyServers : list (sref * Server))
    (task : Task) (s : Sim) : option (sref * Server) * Sim :=
  match algorithm (config s) with
  | roundRobin =>
      let '(server, counter) :=
        roundRobinSelection healthyServers (roundRobinCounter s) in
      (server, set_roundRobinCounter counter s)
  | leastLoad => (leastLoadSelection healthyServers, s)
  | weightedRoundRobin => (weightedRoundRobinSelection healthyServers, s)
  | shortestResponseTime => (shortestResponseTimeSelection healthyServers, s)
  | randomized => randomizedSelection healthyServers s
  | consistentHashing => (consistentHashingSelection healthyServers task, s)
  | otherAlgorithm => (head healthyServers, s)
  end.

(** ** Task arrival *)

(** The two failure exits of [assignTask]. *)
Definition failTask (task : Task) : Task :=
  set_status failed (set_tfailed true task).

Definition failAssignment (r : tref) (s : Sim) : Sim :=
  let s := updTask r failTask s in
  set_failedTasks (failedTasks s ++ [r]) s.

(** What [assignTask] does to the chosen server. *)
Definition enqueue (r : tref) (task : Task) (sv : Server) : Server :=
  let sv :=
    set_taskQueues
      (setQueue (priority task) (queueOf (priority task) (taskQueues sv) ++ [r])
                (taskQueues sv)) sv in
  let sv := set_processingTasks (processingTasks sv ++ [r]) sv in
  set_currentLoad (currentLoad sv + processingTime task) sv.

(** [assignTask(task)], the task being given by reference. *)
Definition assignTask (r : tref) (s : Sim) : Sim :=
  match heap s !! r with
  | None => s
  | Some task =>
      let healthyServers := healthyServersOf (servers s) in
      if Z.of_nat (length healthyServers) =? 0 then failAssignment r s
      else
        let '(selectedServer, s) := selectServerByAlgorithm healthyServers task s in
        match selectedServer with
        | None => failAssignment r s
        | Some (i, sv) =>
            let s :=
              updTask r (fun t => set_status processing
                                    (set_assignedServer (Some (sid sv)) t)) s in
            updServer i (enqueue r task) s
        end
  end.

(** [generateTask]. *)
Definition generateTask (s : Sim) : Sim :=
  let '(r1, s) := random s in
  let processingTime :=
    Js.floor (r1 * inject_Z (taskProcessingTimeMax (config s)
                             - taskProcessingTimeMin (config s) + 1))%Q
    + taskProcessingTimeMin (config s) in
  let '(r2, s) := random s in
  let rand := (r2 * 100)%Q in
  let dist := priorityDistribution (config s) in
  let priority :=
    if Qltb rand (inject_Z (dhigh dist)) then high
    else if Qltb rand (inject_Z (dhigh dist + dmedium dist)) then medium
    else low in
  let task :=
    mkTask (currentTaskId s) priority (simulationTime s) processingTime
           processingTime (simulationTime s + slaTarget priority)
           None None None pending false in
  let s := set_currentTaskId (currentTaskId s + 1) s in
  let r := length (heap s) in
  let s := set_heap (heap s ++ [task]) s in
  let s := set_tasks (tasks s ++ [r]) s in
  assignTask r s.

(** ** Server pool *)

(** One iteration of the loop of [createServers]. *)
Definition createServer (i : Z) (s : Sim) : Sim :=
  let '(r, s) := random s in
  let weight := (r * (1 # 2) + (3 # 4))%Q in
  let '(t1, s) := now s in
  let '(t2, s) := now s in
  let s :=
    set_servers
      (servers s ++
         [mkServer i 0 (serverCapacity (config s)) weight healthy []
                   (mkQueues [] [] []) [] 0 100%Q t1 None None t2]) s in
  set_weightedRoundRobinCounters (weightedRoundRobinCounters s ++ [0]) s.

(** [createServers].  The old server objects become unreachable, and with
    them the pending recovery callbacks that captured them. *)
Definition createServers (s : Sim) : Sim :=
  let s := set_servers [] s in
  let s := set_weightedRoundRobinCounters [] s in
  let s := set_recoveryTimers [] s in
  fold_left (fun s i => createServer i s)
            (map (fun k => Z.of_nat (S k)) (seq 0 (Z.to_nat (serverCount (config s)))))
            s.

(** ** Priority scheduler *)

(** [arr.findIndex(pred)] followed by [splice(index, 1)] when found. *)
Fixpoint removeFirst {A} (pred : A -> bool) (arr : list A) : list A :=
  match arr with
  | [] => []
  | x :: arr' => if pred x then arr' else x :: removeFirst pred arr'
  end.

(** [history.push(rt); if (history.length > 20) history.shift()]. *)
Definition pushHistory (rt : Z) (history : list Z) : list Z :=
  let history := history ++ [rt] in
  if 20 <? Z.of_nat (length history) then tail history else history.

(** The mutable things a scheduling pass on one server touches: the task
    heap, the server object, [this.completedTasks] and the local counter
    [processedThisStep]. *)
Record Pass := mkPass {
  p_heap : list Task;
  p_server : Server;
  p_completed : list tref;
  processedThisStep : Z
}.

Definition maxProcessingPerStep : Z := 3.

(** Stamping a finished task. *)
Definition completeTask (simulationTime : Z) (task : Task) : Task :=
  set_status completed
    (set_responseTime (Some (simulationTime - arrivalTime task))
       (set_completionTime (Some simulationTime) task)).

(** Bookkeeping on the server when [task] (already stamped) finishes. *)
Definition finishOnServer (hp : list Task) (task : Task) (sv : Server) : Server :=
  let sv := set_currentLoad (Z.max 0 (currentLoad sv - processingTime task)) sv in
  let sv := set_totalProcessed (totalProcessed sv + 1) sv in
  let sv :=
    set_responseTimeHistory
      (pushHistory (numOr0 (responseTime task)) (responseTimeHistory sv)) sv in
  set_processingTasks
    (removeFirst
       (fun r' => match hp !! r' with
                  | Some t => id t =? id task
                  | None => false
                  end)
       (processingTasks sv)) sv.

(** The callback given to [filter] in [processServerTasks]: [true] keeps
    the task in its queue. *)
Definition processTask (simulationTime : Z) (r : tref) (st : Pass) : bool * Pass :=
  if maxProcessingPerStep <=? processedThisStep st then (true, st)
  else
    match p_heap st !! r with
    | None => (true, st)
    | Some task =>
        if remainingTime task <=? 0 then (true, st)
        else
          let stepProcessing := Z.min 1000 (remainingTime task) in
          let task := set_remainingTime (remainingTime task - stepProcessing) task in
          let processed := processedThisStep st + 1 in
          if remainingTime task <=? 0 then
            let task := completeTask simulationTime task in
            let hp := <[r := task]> (p_heap st) in
            (false,
             mkPass hp (finishOnServer hp task (p_server st))
                    (p_completed st ++ [r]) processed)
          else
            (true,
             mkPass (<[r := task]> (p_heap st)) (p_server st) (p_completed st)
                    processed)
    end.

(** [queue.filter(callback)]: the callback runs on every element in order. *)
Fixpoint filterQueue (simulationTime : Z) (queue : list tref) (st : Pass)
  : list tref * Pass :=
  match queue with
  | [] => ([], st)
  | r :: queue' =>
      let '(keep, st) := processTask simulationTime r st in
      let '(kept, st) := filterQueue simulationTime queue' st in
      (if keep then r :: kept else kept, st)
  end.

(** The body of [priorities.forEach] in [processServerTasks]. *)
Definition processPriority (simulationTime : Z) (p : Priority) (st : Pass) : Pass :=
  if maxProcessingPerStep <=? processedThisStep st then st
  else
    let '(kept, st) :=
      filterQueue simulationTime (queueOf p (taskQueues (p_server st))) st in
    mkPass (p_heap st)
           (set_taskQueues (setQueue p kept (taskQueues (p_server st))) (p_server st))
           (p_completed st) (processedThisStep st).

(** The scheduling part of [processServerTasks], for a server that has not
    failed. *)
Definition schedulingPass (simulationTime : Z) (st : Pass) : Pass :=
  fold_left (fun st p => processPriority simulationTime p st) [high; medium; low] st.

(** The branch of [processServerTasks] for a failed server. *)
Definition allQueued (sv : Server) : list tref :=
  qhigh (taskQueues sv) ++ qmedium (taskQueues sv) ++ qlow (taskQueues sv).

Definition drainFailedServer (sv : Server) : Server :=
  set_currentLoad 0
    (set_processingTasks []
       (set_taskQueues (mkQueues [] [] []) sv)).

(** [processServerTasks(server)], the server being given by reference. *)
Definition processServerTasks (i : sref) (s : Sim) : Sim :=
  match servers s !! i with
  | None => s
  | Some server =>
      if bool_decide (healthStatus server = failedH) then
        let allTasks := allQueued server in
        let s :=
          fold_left
            (fun s r =>
               let s := updTask r failTask s in
               set_failedTasks (failedTasks s ++ [r]) s)
            allTasks s in
        updServer i drainFailedServer s
      else
        let st :=
          schedulingPass (simulationTime s)
            (mkPass (heap s) server (completedTasks s) 0) in
        set_completedTasks (p_completed st)
          (set_servers (<[i := p_server st]> (servers s))
             (set_heap (p_heap st) s))
  end.

(** ** Aging *)

Definition escalate (p : Priority) : Priority :=
  match p with
  | low => medium
  | medium => high
  | high => high
  end.

(** The callback of [this.tasks.forEach] in [ageTasks].
    [slaTarget * 0.3] is 600, 1500 and 3000 for the three targets. *)
Definition ageTask (simulationTime : Z) (task : Task) : Task :=
  if bool_decide (status task = processing) then
    let slaTimeRemaining := slaDeadline task - simulationTime in
    if Qltb (inject_Z slaTimeRemaining)
            (inject_Z (slaTarget (priority task)) * (3 # 10))%Q
    then set_priority (escalate (priority task)) task
    else task
  else task.

(** [ageTasks]. *)
Definition ageTasks (s : Sim) : Sim :=
  fold_left (fun s r => updTask r (ageTask (simulationTime s)) s) (tasks s) s.

(** ** Health state machine *)

(** A truthy timestamp: neither [null] nor [0]. *)
Definition truthy (o : option Z) : bool :=
  match o with
  | Some t => negb (t =? 0)
  | None => false
  end.

(** The callback of [this.servers.forEach] in [updateServerHealth]. *)
Definition updateOneServerHealth (i : sref) (s : Sim) : Sim :=
  match servers s !! i with
  | None => s
  | Some server =>
      let '(now, s) := now s in
      (* random failure; Math.random is only called on a healthy server *)
      let '(server, s) :=
        if bool_decide (healthStatus server = healthy) then
          let '(r, s) := random s in
          if Qltb r (serverFailureRate (config s) * 3)%Q then
            (set_recoveryTime (Some (now + serverRecoveryTime (config s)))
               (set_failureTime (Some now) (set_healthStatus failedH server)), s)
          else (server, s)
        else (server, s) in
      (* recovery *)
      let '(server, s) :=
        if bool_decide (healthStatus server = failedH)
           && truthy (recoveryTime server)
           && (numOr0 (recoveryTime server) <=? now)
        then (set_healthStatus recovering server,
              set_recoveryTimers (recoveryTimers s ++ [i]) s)
        else (server, s) in
      (* degradation by load *)
      let loadRatio := (inject_Z (currentLoad server) / inject_Z (capacity server))%Q in
      let server :=
        if bool_decide (healthStatus server = healthy) then
          if Qltb 80 loadRatio then set_healthStatus degraded server else server
        else if bool_decide (healthStatus server = degraded) then
          if Qltb loadRatio 60 then set_healthStatus healthy server else server
        else server in
      (* uptime *)
      let totalTime := Z.max 1 (now - creationTime server) in
      let downTime :=
        if truthy (failureTime server)
        then Z.min (now - numOr0 (failureTime server)) (serverRecoveryTime (config s))
        else 0 in
      let server :=
        set_uptime
          (Qmaxb 0 ((inject_Z (totalTime - downTime) / inject_Z totalTime) * 100))%Q
          server in
      set_servers (<[i := server]> (servers s)) s
  end.

(** [updateServerHealth]. *)
Definition updateServerHealth (s : Sim) : Sim :=
  fold_left (fun s i => updateOneServerHealth i s) (seq 0 (length (servers s))) s.

(** The [setTimeout] callback scheduled by [updateServerHealth]. *)
Definition recoveryTimeout (i : sref) (sv : Server) : Server :=
  if bool_decide (healthStatus sv = recovering) then
    set_recoveryTime None (set_failureTime None (set_healthStatus healthy sv))
  else sv.

(** A pending recovery callback fires. *)
Definition fireRecoveryTimer (k : nat) (s : Sim) : Sim :=
  match recoveryTimers s !! k with
  | None => s
  | Some i =>
      set_recoveryTimers (delete k (recoveryTimers s))
        (updServer i (recoveryTimeout i) s)
  end.

(** [simulateRandomFailure]. *)
Definition simulateRandomFailure (s : Sim) : Sim :=
  let healthyServers := healthyServersOf (servers s) in
  if 0 <? Z.of_nat (length healthyServers) then
    let '(r, s) := random s in
    match Js.index healthyServers
            (Js.floor (r * inject_Z (Z.of_nat (length healthyServers)))%Q) with
    | None => s
    | Some (i, _) =>
        let '(t1, s) := now s in
        let '(t2, s) := now s in
        updServer i
          (fun sv =>
             set_recoveryTime (Some (t2 + serverRecoveryTime (config s)))
               (set_failureTime (Some t1) (set_healthStatus failedH sv))) s
    end
  else s.

(** [recoverAllServers]. *)
Definition recoverAllServers (s : Sim) : Sim :=
  set_servers
    (map (fun sv =>
            if bool_decide (healthStatus sv = failedH)
               || bool_decide (healthStatus sv = recovering)
            then set_recoveryTime None (set_failureTime None (set_healthStatus healthy sv))
            else sv)
         (servers s)) s.

(** ** Effects: state with exceptions

    A JavaScript exception abandons the rest of the call; what was mutated
    before it stays mutated.  A computation therefore always returns a state,
    together with either a value or the error thrown. *)

Inductive JsError :=
  | UndefinedField (field : string)   (* TypeError: reading a property of [undefined] *)
  | NotAnArray (field : string).      (* TypeError: [push] is not a function *)

Inductive Completion (A : Type) :=
  | Normal (a : A)
  | Throw (e : JsError).
Arguments Normal {A} a.
Arguments Throw {A} e.

Definition Eff (A : Type) : Type := Sim -> Completion A * Sim.

#[global] Instance Eff_ret : MRet Eff := fun A a s => (Normal a, s).
#[global] Instance Eff_bind : MBind Eff := fun A B k m s =>
  match m s with
  | (Normal a, s') => k a s'
  | (Throw e, s') => (Throw e, s')
  end.

Definition throw {A} (e : JsError) : Eff A := fun s => (Throw e, s).
Definition lift (f : Sim -> Sim) : Eff unit := fun s => (Normal tt, f s).
Definition gets {A} (f : Sim -> A) : Eff A := fun s => (Normal (f s), s).
Definition when (b : bool) (m : Eff unit) : Eff unit := if b then m else mret tt.

(** ** Metrics aggregator *)

(** The object literal assigned to [this.metrics] by the constructor and by
    [resetSimulation] (the two literals are the same). *)
Definition freshPercentiles : gmap string (list Q) :=
  <["p50" := []]> (<["p90" := []]> (<["p95" := []]> ∅)).

Definition freshMetrics : gmap string MetricField :=
  <["responseTime" := Series []]>
  (<["throughput" := Series []]>
  (<["resourceUtilization" := Series []]>
  (<["loadFairness" := Series []]>
  (<["slaCompliance" := Series []]>
  (<["failureRate" := Series []]>
  (<["timestamps" := Series []]>
  (<["responseTimePercentiles" := Group freshPercentiles]>
  (<["priorityMetrics" :=
       PriorityGroup (<["high" := ([], 0)]> (<["medium" := ([], 0)]>
                     (<["low" := ([], 0)]> ∅)))]> ∅)))))))).

(** [this.metrics.<field>.push(v)]. *)
Definition pushSeries (field : string) (v : Q) : Eff unit := fun s =>
  match metrics s !! field with
  | None => (Throw (UndefinedField field), s)
  | Some (Series values) =>
      (Normal tt, set_metrics (<[field := Series (values ++ [v])]> (metrics s)) s)
  | Some _ => (Throw (NotAnArray field), s)
  end.

(** [this.metrics.<group>.<member>.push(v)]. *)
Definition pushMember (group member : string) (v : Q) : Eff unit := fun s =>
  match metrics s !! group with
  | None => (Throw (UndefinedField group), s)
  | Some (Group members) =>
      match members !! member with
      | None => (Throw (UndefinedField member), s)
      | Some values =>
          (Normal tt,
           set_metrics
             (<[group := Group (<[member := values ++ [v]]> members)]> (metrics s)) s)
      end
  | Some _ => (Throw (UndefinedField member), s)
  end.

(** The task objects a collection of references points to. *)
Definition deref (hp : list Task) (refs : list tref) : list Task :=
  omap (fun r => hp !! r) refs.

Definition countZ {A} (pred : A -> bool) (l : list A) : Z :=
  Z.of_nat (length (List.filter pred l)).

Record Compliance := mkCompliance {
  c_high : Q;
  c_medium : Q;
  c_low : Q;
  c_overall : Q
}.

Definition ratio100 (a b : Z) : Q := ((inject_Z a / inject_Z b) * 100)%Q.

(** [calculateSLACompliance]. *)
Definition calculateSLACompliance (s : Sim) : Compliance :=
  let done := deref (heap s) (completedTasks s) in
  let per (p : Priority) : Q :=
    let priorityTasks := List.filter (fun t => bool_decide (priority t = p)) done in
    if 0 <? Z.of_nat (length priorityTasks) then
      ratio100 (countZ (fun t => numOr0 (responseTime t) <=? slaTarget p) priorityTasks)
               (Z.of_nat (length priorityTasks))
    else 100%Q in
  let overall :=
    if 0 <? Z.of_nat (length (completedTasks s)) then
      ratio100 (countZ (fun t => numOr0 (responseTime t) <=? slaTarget (priority t)) done)
               (Z.of_nat (length (completedTasks s)))
    else 100%Q in
  mkCompliance (per high) (per medium) (per low) overall.

(** [calculateAdvancedMetrics]: what it stores.  The values it only writes
    to the page (availability, load variance, queue depth, jitter) are not
    part of the state. *)
Definition calculateAdvancedMetrics : Eff unit :=
  s ← gets (fun s => s);
  let timestamp := simulationTime s in
  let completedResponseTimes :=
    merge_sort Z.le
      (map (fun t => numOr0 (responseTime t)) (deref (heap s) (completedTasks s))) in
  let n := Z.of_nat (length completedResponseTimes) in
  let nonEmpty := 0 <? n in
  let avgResponseTime :=
    if nonEmpty then (inject_Z (Zsum completedResponseTimes) / inject_Z n)%Q else 0%Q in
  let p50 := if nonEmpty then getPercentile completedResponseTimes 50 else 0 in
  let p90 := if nonEmpty then getPercentile completedResponseTimes 90 else 0 in
  let p95 := if nonEmpty then getPercentile completedResponseTimes 95 else 0 in
  let throughput :=
    if 0 <? simulationTime s
    then (inject_Z (Z.of_nat (length (completedTasks s))) / inject_Z (simulationTime s))%Q
    else 0%Q in
  let slaCompliance := calculateSLACompliance s in
  let totalTasks :=
    Z.of_nat (length (completedTasks s)) + Z.of_nat (length (failedTasks s)) in
  let failureRate :=
    if 0 <? totalTasks
    then ratio100 (Z.of_nat (length (failedTasks s))) totalTasks else 0%Q in
  pushSeries "responseTime" avgResponseTime;;
  pushSeries "throughput" throughput;;
  pushSeries "slaCompliance" (c_overall slaCompliance);;
  pushSeries "failureRate" failureRate;;
  pushSeries "timestamps" (inject_Z timestamp);;
  pushMember "responseTimePercentiles" "p50" (inject_Z p50);;
  pushMember "responseTimePercentiles" "p90" (inject_Z p90);;
  pushMember "responseTimePercentiles" "p95" (inject_Z p95).

(** [updateTaskProgress]: the record it assigns to [this.taskProgress]. *)
Definition updateTaskProgress (s : Sim) : Sim :=
  let all := deref (heap s) (tasks s) in
  let pendingTasks := countZ (fun t => bool_decide (status t = pending)) all in
  let inProgressTasks := countZ (fun t => bool_decide (status t = processing)) all in
  let completedN := Z.of_nat (length (completedTasks s)) in
  let failedN := Z.of_nat (length (failedTasks s)) in
  let completionPercentage :=
    if 0 <? taskCount (config s)
    then ratio100 (completedN + failedN) (taskCount (config s)) else 0%Q in
  let completionRate :=
    if 0 <? simulationTime s
    then (inject_Z completedN / (inject_Z (simulationTime s) * (1 # 10)))%Q else 0%Q in
  let successRate :=
    if 0 <? completedN + failedN
    then ratio100 completedN (completedN + failedN) else 100%Q in
  let eta :=
    if Qltb 0 completionRate && (0 <? pendingTasks + inProgressTasks)
    then (inject_Z (pendingTasks + inProgressTasks) / completionRate)%Q else 0%Q in
  set_taskProgress
    (Some (mkProgress (taskCount (config s)) pendingTasks inProgressTasks completedN
             failedN completionPercentage completionRate successRate eta)) s.

(** [calculateMetrics]. *)
Definition calculateMetrics : Eff unit :=
  s ← gets (fun s => s);
  let timestamp := simulationTime s in
  let avgResponseTime :=
    if 0 <? Z.of_nat (length (completedTasks s)) then
      (inject_Z (Zsum (map (fun t => numOr0 (responseTime t))
                           (deref (heap s) (completedTasks s))))
       / inject_Z (Z.of_nat (length (completedTasks s))))%Q
    else 0%Q in
  match taskProgress s with
  | None => throw (UndefinedField "taskProgress")
  | Some progress =>
      let throughput := tp_completionRate progress in
      let healthyServers :=
        List.filter (fun sv => bool_decide (healthStatus sv = healthy)) (servers s) in
      let totalCapacity := Zsum (map capacity healthyServers) in
      let totalLoad := Zsum (map currentLoad healthyServers) in
      let resourceUtilization :=
        if 0 <? totalCapacity then ratio100 totalLoad totalCapacity else 0%Q in
      let loads := map (fun sv => inject_Z (currentLoad sv)) healthyServers in
      let count := inject_Z (Z.max (Z.of_nat (length loads)) 1) in
      let avgLoad := (Qsum loads / count)%Q in
      let variance :=
        (Qsum (map (fun load => (load - avgLoad) * (load - avgLoad)) loads) / count)%Q in
      let standardDeviation := Math_sqrt (host s) variance in
      let successRate := tp_successRate progress in
      pushSeries "responseTime" avgResponseTime;;
      pushSeries "throughput" throughput;;
      pushSeries "resourceUtilization" resourceUtilization;;
      pushSeries "loadFairness" standardDeviation;;
      pushSeries "successRate" successRate;;
      pushSeries "completionVelocity" throughput;;
      pushSeries "timestamps" (inject_Z timestamp)
  end.

(** ** Driver *)

(** [stopSimulation], [pauseSimulation], [resumeSimulation]: the interval
    handles they clear or set belong to the host's timer queue. *)
Definition stopSimulation (s : Sim) : Sim := set_simulationState completedRun s.
Definition pauseSimulation (s : Sim) : Sim := set_simulationState paused s.
Definition resumeSimulation (s : Sim) : Sim := set_simulationState running s.

(** [resetSimulation].  It takes no argument, reads [this.config] as it is
    and has no failing exit. *)
Definition resetSimulation : Eff unit :=
  lift (set_simulationState stopped);;
  lift (set_simulationTime 0);;
  lift (set_currentTaskId 1);;
  lift (set_roundRobinCounter 0);;
  lift (set_tasks []);;
  lift (set_completedTasks []);;
  lift (set_failedTasks []);;
  lift (set_metrics freshMetrics);;
  lift createServers.

(** [startSimulation]. *)
Definition startSimulation : Eff unit :=
  st ← gets simulationState;
  when (match st with stopped => true | _ => false end) resetSimulation;;
  lift (set_simulationState running).

(** [processSimulationStep]. *)
Definition processSimulationStep : Eff unit :=
  lift (fun s => set_simulationTime (simulationTime s + 1) s);;
  t ← gets simulationTime;
  when (Js.rem t 3 =? 0) (lift updateServerHealth);;
  lift (fun s =>
          fold_left (fun s i => processServerTasks i s) (seq 0 (length (servers s))) s);;
  lift ageTasks;;
  calculateAdvancedMetrics;;
  lift updateTaskProgress;;
  calculateMetrics;;
  s ← gets (fun s => s);
  let totalTasksGenerated := currentTaskId s - 1 in
  let allTasksProcessed :=
    Z.min totalTasksGenerated (taskCount (config s))
    <=? Z.of_nat (length (completedTasks s)) + Z.of_nat (length (failedTasks s)) in
  when (allTasksProcessed && (taskCount (config s) <=? totalTasksGenerated))
       (lift stopSimulation).

(** [stepSimulation]. *)
Definition stepSimulation : Eff unit :=
  s ← gets (fun s => s);
  match simulationState s with
  | paused | stopped =>
      when (currentTaskId s - 1 <? taskCount (config s)) (lift generateTask);;
      processSimulationStep
  | _ => mret tt
  end.

(** What the page and the timers can ask of the simulator.  The input
    listeners overwrite fields of [this.config]; [op_configure] stands for
    any of them. *)
Inductive Op :=
  | op_reset
  | op_start
  | op_pause
  | op_resume
  | op_tick                       (* the simulation interval fires *)
  | op_arrival                    (* the task-generation interval fires *)
  | op_stepButton
  | op_simulateFailure
  | op_recoverAll
  | op_recoveryTimer (k : nat)    (* a pending recovery callback fires *)
  | op_configure (c : Config)
  | op_normalize.

Definition perform (o : Op) : Eff unit :=
  match o with
  | op_reset => resetSimulation
  | op_start => startSimulation
  | op_pause => lift pauseSimulation
  | op_resume => lift resumeSimulation
  | op_tick => processSimulationStep
  | op_arrival => lift generateTask
  | op_stepButton => stepSimulation
  | op_simulateFailure => lift simulateRandomFailure
  | op_recoverAll => lift recoverAllServers
  | op_recoveryTimer k => lift (fireRecoveryTimer k)
  | op_configure c => lift (set_config c)
  | op_normalize =>
      lift (fun s =>
              let c := config s in
              set_config
                (mkConfig (serverCount c) (serverCapacity c) (taskCount c)
                   (taskProcessingTimeMin c) (taskProcessingTimeMax c) (arrivalRate c)
                   (algorithm c) (serverFailureRate c) (healthCheckInterval c)
                   (serverRecoveryTime c)
                   (normalizePriorityDistribution (priorityDistribution c))) s)
  end.

(** The state after a sequence of requests; an exception ends the request
    that raised it and the next one runs on the state it left. *)
Definition run (ops : list Op) (s : Sim) : Sim :=
  fold_left (fun s o => snd (perform o s)) ops s.

(** ** Specification-side definitions *)

(** Order on priorities: [low < medium < high]. *)
Definition rank (p : Priority) : Z :=
  match p with
  | low => 0
  | medium => 1
  | high => 2
  end.

(** The rolling hash as the specification words it: [h*31 + charCode],
    wrapped to a signed 32-bit integer at each step. *)
Definition rollingHash (codes : list Z) : Z :=
  fold_left (fun h c => Js.toInt32 (h * 31 + c)) codes 0.




(** The element at the clamped index [ceil(t) - 1], 0 for the empty
    array. *)
Definition percentileAt (sorted : list Z) (t : Q) : Z :=
  match sorted with
  | [] => 0
  | _ =>
      let n := Z.of_nat (length sorted) in
      let i := Qceiling t - 1 in
      let clamped := if i <? 0 then 0 else if n - 1 <? i then n - 1 else i in
      default 0 (sorted !! Z.to_nat clamped)
  end.

(** The percentile as the specification words it. *)
Definition percentileSpec (sorted : list Z) (p : Q) : Z :=
  match sorted with
  | [] => 0
  | _ =>
      let n := Z.of_nat (length sorted) in
      let i := Qceiling (p / 100 * inject_Z n)%Q - 1 in
      let clamped := if i <? 0 then 0 else if n - 1 <? i then n - 1 else i in
      default 0 (sorted !! Z.to_nat clamped)
  end.

(** [k] consecutive round-robin selections against the same list. *)
Fixpoint roundRobinRun {A} (servers : list A) (counter : Z) (k : nat)
  : list (option A) :=
  match k with
  | O => []
  | S k' =>
      let '(server, counter) := roundRobinSelection servers counter in
      server :: roundRobinRun servers counter k'
  end.

(** The sum of the three shares. *)
Definition shareSum (d : PriorityDistribution) : Z := dhigh d + dmedium d + dlow d.

(** A queued task is eligible for work when it still has time to serve. *)
Definition eligible (hp : list Task) (r : tref) : bool :=
  match hp !! r with
  | Some task => 0 <? remainingTime task
  | None => false
  end.

(** The tasks of a queue a budget of [n] advancements goes to: the first
    [n] eligible ones, in queue order. *)
Definition advanced (hp : list Task) (queue : list tref) (n : nat) : list tref :=
  take n (List.filter (eligible hp) queue).

(** One advancement of a task: up to one second of work, and the completion
    stamp when nothing remains. *)
Definition advanceTask (simulationTime : Z) (task : Task) : Task :=
  let task :=
    set_remainingTime (remainingTime task - Z.min 1000 (remainingTime task)) task in
  if remainingTime task <=? 0 then completeTask simulationTime task else task.

(** Every task of [h] is still in [h'], with a priority at least as high. *)
Definition prioMono (h h' : list Task) : Prop :=
  forall r t, h !! r = Some t ->
    exists t', h' !! r = Some t' /\ rank (priority t) <= rank (priority t').

(** The kind of a field of the metrics object: what [push] can be called
    on. *)
Inductive FieldKind :=
  | KSeries
  | KGroup (members : gset string)
  | KPriorityGroup.

Definition kind (f : MetricField) : FieldKind :=
  match f with
  | Series _ => KSeries
  | Group g => KGroup (dom g)
  | PriorityGroup _ => KPriorityGroup
  end.

(** The metrics object has the fields of the literal in the constructor and
    in [resetSimulation], no more and no less, each of its kind. *)
Definition wellShaped (m : gmap string MetricField) : Prop :=
  forall k, kind <$> m !! k = kind <$> freshMetrics !! k.

(** What a request may do to the task heap and to the shape of the metrics
    object. *)
Definition advances (s s' : Sim) : Prop :=
  prioMono (heap s) (heap s')
  /\ (wellShaped (metrics s) -> wellShaped (metrics s')).

(** The loop of the failed branch of [processServerTasks], named. *)
Definition failLoop (refs : list tref) (s : Sim) : Sim :=
  fold_left
    (fun s r =>
       let s := updTask r failTask s in
       set_failedTasks (failedTasks s ++ [r]) s)
    refs s.

(** The queues of a server hold each task once, and only tasks of a heap
    of [n] objects. *)
Definition allOf (q : TaskQueues) : list tref := qhigh q ++ qmedium q ++ qlow q.

Definition queuesOk (n : nat) (q : TaskQueues) : Prop :=
  NoDup (allOf q) /\ forall r, r ∈ allOf q -> (r < n)%nat.

(** The references of a state are sound: every server's queues are, and
    [this.tasks] lists each task once. *)
Definition wellFormed (s : Sim) : Prop :=
  Forall (queuesOk (length (heap s))) (map taskQueues (servers s))
  /\ NoDup (tasks s)
  /\ forall r, r ∈ tasks s -> (r < length (heap s))%nat.

Definition keepsForm (s s' : Sim) : Prop := wellFormed s -> wellFormed s'.

(** A computation respects a relation on states when, whatever its
    completion, the state it leaves is related to the one it started
    from. *)
Definition EffRel (R : Sim -> Sim -> Prop) {A} (m : Eff A) : Prop :=
  forall s, R s (snd (m s)).

Abbreviation EffAdv := (EffRel advances).
Abbreviation EffForm := (EffRel keepsForm).

(** A server as [createServers] makes it under configuration [c]. *)
Definition freshServer (c : Config) (sv : Server) : Prop :=
  healthStatus sv = healthy /\ currentLoad sv = 0
  /\ taskQueues sv = mkQueues [] [] [] /\ processingTasks sv = []
  /\ capacity sv = serverCapacity c.

(** The fields of the simulator that [createServers] does not touch. *)
Definition sameRun (s s' : Sim) : Prop :=
  config s' = config s /\ heap s' = heap s /\ tasks s' = tasks s
  /\ completedTasks s' = completedTasks s /\ failedTasks s' = failedTasks s
  /\ currentTaskId s' = currentTaskId s /\ simulationTime s' = simulationTime s
  /\ roundRobinCounter s' = roundRobinCounter s
  /\ simulationState s' = simulationState s /\ metrics s' = metrics s.

(** A configuration is structurally valid when its priority shares, once
    normalized, sum to 100. *)
Definition configValid (c : Config) : Prop :=
  shareSum (normalizePriorityDistribution (priorityDistribution c)) = 100.

(** A configuration whose shares cannot be normalized to 100. *)
Definition invalidConfig : Config :=
  mkConfig 2 100 100 500 3000 8 roundRobin (1 # 50)%Q 3000 10000 (mkDist 80 50 0).

(** How close to its deadline a task of each priority must be for an aging
    step to escalate it: 30% of the target of its current priority. *)
Definition agingThreshold (p : Priority) : Z :=
  match p with
  | high => 600
  | medium => 1500
  | low => 3000
  end.

(** The health statuses under which [assignTask] considers a server. *)
Definition available (sv : Server) : Prop :=
  healthStatus sv = healthy \/ healthStatus sv = degraded.

(** What a health check may turn a status into. *)
Definition healthCheckMay (before after : Health) : Prop :=
  match before with
  | healthy => True
  | degraded => after = degraded \/ after = healthy
  | failedH => after = failedH \/ after = recovering
  | recovering => after = recovering
  end.

(** Every task of [h] is still in [h'], related to what it was. *)
Definition heapRel (P : Task -> Task -> Prop) (h h' : list Task) : Prop :=
  forall r t, h !! r = Some t -> exists t', h' !! r = Some t' /\ P t t'.

(** What no operation does to a task once it exists: its identity, arrival
    time, processing time, deadline and assigned server stay; its remaining
    time does not grow and does not fall below zero; its [failed] flag is
    never cleared. *)
Definition taskKeeps (t t' : Task) : Prop :=
  id t' = id t /\ arrivalTime t' = arrivalTime t
  /\ processingTime t' = processingTime t /\ slaDeadline t' = slaDeadline t
  /\ assignedServer t' = assignedServer t
  /\ remainingTime t' <= remainingTime t
  /\ (0 <= remainingTime t -> 0 <= remainingTime t')
  /\ (tfailed t = true -> tfailed t' = true).

(** The fields that the work of a tick leaves alone. *)
Definition sameControl (s s' : Sim) : Prop :=
  simulationState s' = simulationState s /\ config s' = config s
  /\ tasks s' = tasks s /\ currentTaskId s' = currentTaskId s
  /\ roundRobinCounter s' = roundRobinCounter s
  /\ simulationTime s' = simulationTime s.

(** Task ids follow the arrival order: the k-th task of [this.tasks]
    (counting from 0) has id k + 1, and the next id is one more than the
    number of tasks. *)
Definition idsOk (s : Sim) : Prop :=
  currentTaskId s = Z.of_nat (length (tasks s)) + 1
  /\ forall k r, tasks s !! k = Some r ->
       exists t, heap s !! r = Some t /\ id t = Z.of_nat k + 1.

(** What holds of every state of a run. *)
Definition steady (s : Sim) : Prop :=
  wellShaped (metrics s) /\ simulationState s <> completedRun
  /\ 0 <= roundRobinCounter s /\ idsOk s.

Definition keepsSteady (s s' : Sim) : Prop := steady s -> steady s'.

(** ** Scenarios used to exercise the statements *)

Definition demoHost : Host :=
  mkHost (fun _ => (1 # 2)%Q) 0 (fun n => Z.of_nat n) 0 (fun q => q).

Definition demoConfig : Config :=
  mkConfig 1 100 100 500 3000 8 roundRobin (1 # 50)%Q 3000 10000 (mkDist 20 50 30).

(** A task as [assignTask] leaves it on server 1. *)
Definition queuedTask (n : Z) (p : Priority) (arrival work : Z) : Task :=
  mkTask n p arrival work work (arrival + slaTarget p) (Some 1) None None
         processing false.

Definition demoServer (h : Health) (load : Z) (q : TaskQueues) : Server :=
  mkServer 1 load 100 1%Q h [] q (qhigh q ++ qmedium q ++ qlow q) 0 100%Q 0
           None None 0.

Definition demoSim (time : Z) (sv : Server) (hp : list Task) : Sim :=
  mkSim [sv] hp (seq 0 (length hp)) [] [] (Z.of_nat (length hp) + 1) time 0 [0]
        running freshMetrics demoConfig None [] demoHost.

(** The numbers 1 to 100 in order. *)
Definition oneToHundred : list Z := map Z.of_nat (seq 1 100).

(** Two idle servers of load 3 whose weights are the double nearest to 0.76
    and the next double above it: their ratios are the same double. *)
Definition tiedServers : list (sref * Server) :=
  [(0%nat, mkServer 1 3 100 (3422735716801577 # 4503599627370496)%Q healthy []
             (mkQueues [] [] []) [] 0 100%Q 0 None None 0);
   (1%nat, mkServer 2 3 100 (6845471433603155 # 9007199254740992)%Q healthy []
             (mkQueues [] [] []) [] 0 100%Q 0 None None 0)].

(** A server with no history beside one whose last ten response times
    average 333.1 after two much longer ones. *)
Definition historyServers : list (sref * Server) :=
  [(0%nat, demoServer healthy 0 (mkQueues [] [] []));
   (1%nat, set_responseTimeHistory
             [1000000; 1000000; 300; 310; 320; 330; 340; 350; 360; 370; 380; 271]
             (demoServer healthy 0 (mkQueues [] [] [])))].

(** A failed server with one high and one low task queued. *)
Definition failedScenario : Sim :=
  demoSim 5 (demoServer failedH 1500 (mkQueues [0%nat] [] [1%nat]))
          [queuedTask 1 high 0 500; queuedTask 2 low 0 1000].

(** A healthy server with work in all three queues. *)
Definition busyScenario : Sim :=
  demoSim 5 (demoServer healthy 7700 (mkQueues [0%nat; 1%nat] [2%nat; 3%nat] [4%nat]))
          [queuedTask 1 high 0 500; queuedTask 2 high 0 2500;
           queuedTask 3 medium 0 1200; queuedTask 4 medium 0 3000;
           queuedTask 5 low 0 500].

(** A run with one server and tasks of 10,000 seconds each (the page's
    processing-time inputs), 8499 ticks after the first task arrived: that
    task, low at arrival, was escalated to medium at tick 7001 and has been
    served at every tick from the low queue, where [assignTask] put it. *)
Definition agingConfig : Config :=
  mkConfig 1 100 100 10000000 10000000 8 roundRobin (1 # 50)%Q 3000 10000
           (mkDist 20 50 30).

Definition agedTask : Task :=
  mkTask 1 medium 0 10000000 1501000 10000 (Some 1) None None processing false.

Definition starvedScenario : Sim :=
  mkSim [mkServer 1 10000000 100 ((1 # 2) * (1 # 2) + (3 # 4))%Q degraded []
                  (mkQueues [] [] [0%nat]) [0%nat] 0 100%Q 0 None None 0]
        [agedTask] [0%nat] [] [] 2 8499 0 [0] running freshMetrics agingConfig
        None [] demoHost.

(** Three tasks arrive (medium, by the draws of [demoHost]) and two ticks
    pass. *)
Definition starvingRun : list Op :=
  [op_arrival; op_arrival; op_arrival; op_tick; op_tick].

(** * Properties *)

(** ** Priority distribution (C4) *)

(** C4, as stated, fails: starting from high 80, medium 50, low 30 the low
    share is clamped at 0 and the three shares sum to 130. *)
Lemma normalize_sum_counterexample :
  normalizePriorityDistribution (mkDist 80 50 30) = mkDist 80 50 0
  /\ shareSum (normalizePriorityDistribution (mkDist 80 50 30)) <> 100.
Proof. split; [reflexivity | vm_compute; discriminate]. Qed.

(** C4, amended: whatever the three shares are, normalization rewrites the
    low share only, and the new low share is the old one if the sum was
    already 100 and otherwise [100 - high - medium] clamped to the interval
    from 0 to 100.  When the high and medium shares together lie between 0
    and 100 the three shares sum to exactly 100 afterwards; when they exceed
    100 and the sum was not already 100, the low share becomes 0 and the sum
    stays above 100. *)
Theorem normalize_adjusts_low_only (d : PriorityDistribution) :
  let d' := normalizePriorityDistribution d in
  dhigh d' = dhigh d
  /\ dmedium d' = dmedium d
  /\ dlow d' = (if shareSum d =? 100 then dlow d
                else Z.max 0 (Z.min 100 (100 - dhigh d - dmedium d)))
  /\ (0 <= dhigh d + dmedium d <= 100 -> shareSum d' = 100)
  /\ (100 < dhigh d + dmedium d -> shareSum d <> 100 ->
      dlow d' = 0 /\ 100 < shareSum d').
Proof.
  unfold normalizePriorityDistribution, shareSum.
  destruct (Z.eqb_spec (dhigh d + dmedium d + dlow d) 100) as [Heq | Hne]; simpl.
  - repeat split; try assumption; try reflexivity; intros; lia.
  - repeat split; intros; lia.
Qed.

Lemma normalize_adjusts_low_only_witness :
  shareSum (normalizePriorityDistribution (mkDist 20 50 10)) = 100
  /\ dlow (normalizePriorityDistribution (mkDist 80 50 30)) = 0.
Proof.
  destruct (normalize_adjusts_low_only (mkDist 20 50 10)) as (_ & _ & _ & H1 & _).
  destruct (normalize_adjusts_low_only (mkDist 80 50 30)) as (_ & _ & _ & _ & H2).
  split.
  - apply H1. simpl. lia.
  - apply H2; [simpl; lia | vm_compute; discriminate].
Defined.

(** ** Doubles

    What the statements below need of [Js.round64]. *)

Section Rounding.

Lemma pow2_pos (e : Z) : (0 < Js.pow2 e)%Q.
Proof. apply Qpower_0_lt. reflexivity. Qed.

Lemma pow2_plus (a b : Z) : (Js.pow2 (a + b) == Js.pow2 a * Js.pow2 b)%Q.
Proof. apply Qpower_plus. discriminate. Qed.

Lemma pow2_le (a b : Z) : a <= b -> (Js.pow2 a <= Js.pow2 b)%Q.
Proof. intros H. apply Qpower_le_compat_l; [exact H | discriminate]. Qed.

Lemma pow2_lt_inv (a b : Z) : (Js.pow2 a < Js.pow2 b)%Q -> a < b.
Proof. intros H. apply (Qpower_lt_compat_l_inv 2); [exact H | reflexivity]. Qed.

Lemma pow2_inject (n : Z) : 0 <= n -> (Js.pow2 n == inject_Z (2 ^ n))%Q.
Proof. intros H. unfold Js.pow2. rewrite Zpower_Qpower by exact H. reflexivity. Qed.

Lemma roundHalfEven_range (x : Q) :
  Qfloor x <= Js.roundHalfEven x <= Qfloor x + 1.
Proof.
  unfold Js.roundHalfEven. destruct (_ ?= _)%Q; [destruct (Z.even _) | |]; lia.
Qed.

Lemma roundHalfEven_mono (x y : Q) :
  (x <= y)%Q -> Js.roundHalfEven x <= Js.roundHalfEven y.
Proof.
  intros Hxy. pose proof (Qfloor_resp_le x y Hxy) as Hf.
  pose proof (roundHalfEven_range x) as Hx.
  pose proof (roundHalfEven_range y) as Hy.
  destruct (Z.eq_dec (Qfloor x) (Qfloor y)) as [E | NE]; [| lia].
  unfold Js.roundHalfEven in *. rewrite <- E in *.
  destruct (x - inject_Z (Qfloor x) ?= 1 # 2)%Q eqn:Cx;
    destruct (y - inject_Z (Qfloor x) ?= 1 # 2)%Q eqn:Cy;
    try (destruct (Z.even (Qfloor x))); try lia; exfalso;
    repeat match goal with
    | H : (_ ?= _)%Q = Eq |- _ => apply Qeq_alt in H
    | H : (_ ?= _)%Q = Lt |- _ => apply Qlt_alt in H
    | H : (_ ?= _)%Q = Gt |- _ => apply Qgt_alt in H
    end; lra.
Qed.

Lemma roundHalfEven_Z (z : Z) : Js.roundHalfEven (inject_Z z) = z.
Proof.
  unfold Js.roundHalfEven. rewrite Qfloor_Z.
  assert (H : (inject_Z z - inject_Z z ?= 1 # 2)%Q = Lt).
  { unfold Qcompare, Qminus, Qplus, Qopp, inject_Z. simpl. apply Z.compare_lt_iff. lia. }
  rewrite H. reflexivity.
Qed.

Lemma roundHalfEven_ge (z : Z) (x : Q) : (inject_Z z <= x)%Q -> z <= Js.roundHalfEven x.
Proof.
  intros H. rewrite <- (roundHalfEven_Z z). apply roundHalfEven_mono, H.
Qed.

Lemma roundHalfEven_le (z : Z) (x : Q) : (x <= inject_Z z)%Q -> Js.roundHalfEven x <= z.
Proof.
  intros H. rewrite <- (roundHalfEven_Z z). apply roundHalfEven_mono, H.
Qed.

Lemma Qnum_pos (q : Q) : (0 < q)%Q <-> 0 < Qnum q.
Proof. unfold Qlt. simpl. lia. Qed.

Lemma binade_spec (a : Q) :
  (0 < a)%Q -> (Js.pow2 (Js.binade a) <= a)%Q /\ (a < Js.pow2 (Js.binade a + 1))%Q.
Proof.
  intros Ha. destruct a as [n d]. apply Qnum_pos in Ha. simpl in Ha.
  unfold Js.binade. simpl Qnum. simpl Qden.
  set (ln := Z.log2 n). set (ld := Z.log2 (Z.pos d)).
  assert (Hn : 2 ^ ln <= n < 2 ^ (ln + 1)).
  { subst ln. pose proof (Z.log2_spec n Ha). rewrite <- Z.add_1_r in H. exact H. }
  assert (Hd : 2 ^ ld <= Z.pos d < 2 ^ (ld + 1)).
  { subst ld. pose proof (Z.log2_spec (Z.pos d) ltac:(lia)).
    rewrite <- Z.add_1_r in H. exact H. }
  assert (Hln : 0 <= ln) by apply Z.log2_nonneg.
  assert (Hld : 0 <= ld) by apply Z.log2_nonneg.
  assert (Hq : (n # d == inject_Z n / inject_Z (Z.pos d))%Q) by apply Qmake_Qdiv.
  assert (Hdq : (0 < inject_Z (Z.pos d))%Q) by (unfold Qlt; simpl; lia).
  assert (Hnl : (Js.pow2 ln <= inject_Z n)%Q)
    by (rewrite pow2_inject by lia; rewrite <- Zle_Qle; lia).
  assert (Hnu : (inject_Z n < Js.pow2 (ln + 1))%Q)
    by (rewrite pow2_inject by lia; rewrite <- Zlt_Qlt; lia).
  assert (Hdl : (Js.pow2 ld <= inject_Z (Z.pos d))%Q)
    by (rewrite pow2_inject by lia; rewrite <- Zle_Qle; lia).
  assert (Hdu : (inject_Z (Z.pos d) < Js.pow2 (ld + 1))%Q)
    by (rewrite pow2_inject by lia; rewrite <- Zlt_Qlt; lia).
  (* a * D == N *)
  assert (Hmul : ((n # d) * inject_Z (Z.pos d) == inject_Z n)%Q).
  { rewrite Hq. field. intros E. rewrite E in Hdq. apply (Qlt_irrefl 0), Hdq. }
  pose proof (pow2_pos ld) as Pld. pose proof (pow2_pos (ln - ld)) as Pk.
  pose proof (pow2_pos (ln - ld - 1)) as Pk1.
  assert (E1 : (Js.pow2 (ln + 1) == Js.pow2 (ln - ld + 1) * Js.pow2 ld)%Q)
    by (rewrite <- pow2_plus; f_equiv; lia).
  assert (E2 : (Js.pow2 ln == Js.pow2 (ln - ld - 1) * Js.pow2 (ld + 1))%Q)
    by (rewrite <- pow2_plus; f_equiv; lia).
  destruct (Qle_bool (Js.pow2 (ln - ld)) (n # d)) eqn:Hb.
  - apply Qle_bool_iff in Hb. split; [exact Hb |].
    (* a * D = N < 2^(ln+1) = 2^(k+1) * 2^ld <= 2^(k+1) * D *)
    apply Qnot_le_lt. intros Hc.
    assert ((Js.pow2 (ln - ld + 1) * Js.pow2 ld <= (n # d) * inject_Z (Z.pos d))%Q).
    { apply Qle_trans with (Js.pow2 (ln - ld + 1) * inject_Z (Z.pos d))%Q.
      - apply Qmult_le_l; [apply pow2_pos | exact Hdl].
      - apply Qmult_le_r; [exact Hdq | exact Hc]. }
    rewrite Hmul, <- E1 in H. apply Qle_not_lt in H. contradiction.
  - assert (Hlt : (n # d < Js.pow2 (ln - ld))%Q).
    { apply Qnot_le_lt. intros Hc. apply Qle_bool_iff in Hc. congruence. }
    replace (ln - ld - 1 + 1) with (ln - ld) by lia. split; [| exact Hlt].
    apply Qnot_lt_le. intros Hc.
    assert (((n # d) * inject_Z (Z.pos d) < Js.pow2 (ln - ld - 1) * Js.pow2 (ld + 1))%Q).
    { apply Qlt_trans with (Js.pow2 (ln - ld - 1) * inject_Z (Z.pos d))%Q.
      - apply Qmult_lt_r; [exact Hdq | exact Hc].
      - apply Qmult_lt_l; [apply pow2_pos | exact Hdu]. }
    rewrite Hmul, <- E2 in H. apply Qlt_not_le in H. contradiction.
Qed.

Lemma binade_mono (a b : Q) : (0 < a)%Q -> (a <= b)%Q -> Js.binade a <= Js.binade b.
Proof.
  intros Ha Hab. assert (Hb : (0 < b)%Q) by lra.
  destruct (binade_spec a Ha) as (La & _). destruct (binade_spec b Hb) as (_ & Ub).
  assert (H : (Js.pow2 (Js.binade a) < Js.pow2 (Js.binade b + 1))%Q) by lra.
  apply pow2_lt_inv in H. lia.
Qed.

Lemma scaled_range (a : Q) :
  (0 < a)%Q ->
  (inject_Z (2 ^ 52) <= a / Js.pow2 (Js.binade a - 52))%Q
  /\ (a / Js.pow2 (Js.binade a - 52) <= inject_Z (2 ^ 53))%Q.
Proof.
  intros Ha. destruct (binade_spec a Ha) as (L & U).
  pose proof (pow2_pos (Js.binade a - 52)) as Pe.
  assert (E1 : (Js.pow2 (Js.binade a) == inject_Z (2 ^ 52) * Js.pow2 (Js.binade a - 52))%Q).
  { rewrite <- (pow2_inject 52) by lia. rewrite <- pow2_plus. f_equiv. lia. }
  assert (E2 : (Js.pow2 (Js.binade a + 1) == inject_Z (2 ^ 53) * Js.pow2 (Js.binade a - 52))%Q).
  { rewrite <- (pow2_inject 53) by lia. rewrite <- pow2_plus. f_equiv. lia. }
  split.
  - apply Qle_shift_div_l; [exact Pe |]. rewrite <- E1. exact L.
  - apply Qle_shift_div_r; [exact Pe |]. rewrite <- E2. apply Qlt_le_weak, U.
Qed.

Lemma roundPos_range (a : Q) :
  (0 < a)%Q -> (Js.pow2 (Js.binade a) <= Js.roundPos a)%Q /\ (Js.roundPos a <= Js.pow2 (Js.binade a + 1))%Q.
Proof.
  intros Ha. destruct (scaled_range a Ha) as (L & U).
  pose proof (pow2_pos (Js.binade a - 52)) as Pe.
  assert (E1 : (Js.pow2 (Js.binade a) == inject_Z (2 ^ 52) * Js.pow2 (Js.binade a - 52))%Q).
  { rewrite <- (pow2_inject 52) by lia. rewrite <- pow2_plus. f_equiv. lia. }
  assert (E2 : (Js.pow2 (Js.binade a + 1) == inject_Z (2 ^ 53) * Js.pow2 (Js.binade a - 52))%Q).
  { rewrite <- (pow2_inject 53) by lia. rewrite <- pow2_plus. f_equiv. lia. }
  unfold Js.roundPos. cbv zeta. rewrite E1, E2. split.
  - apply Qmult_le_r; [exact Pe |]. rewrite <- Zle_Qle. apply roundHalfEven_ge, L.
  - apply Qmult_le_r; [exact Pe |]. rewrite <- Zle_Qle. apply roundHalfEven_le, U.
Qed.

Lemma roundPos_pos (a : Q) : (0 < a)%Q -> (0 < Js.roundPos a)%Q.
Proof.
  intros Ha. destruct (roundPos_range a Ha) as (L & _).
  pose proof (pow2_pos (Js.binade a)). lra.
Qed.

Lemma roundPos_mono (a b : Q) :
  (0 < a)%Q -> (a <= b)%Q -> (Js.roundPos a <= Js.roundPos b)%Q.
Proof.
  intros Ha Hab. assert (Hb : (0 < b)%Q) by lra.
  pose proof (binade_mono a b Ha Hab) as Hbin.
  destruct (Z.eq_dec (Js.binade a) (Js.binade b)) as [E | NE].
  - unfold Js.roundPos. cbv zeta. rewrite E.
    pose proof (pow2_pos (Js.binade b - 52)) as Pe.
    apply Qmult_le_r; [exact Pe |]. rewrite <- Zle_Qle.
    apply roundHalfEven_mono. apply Qmult_le_r; [apply Qinv_lt_0_compat, Pe | exact Hab].
  - destruct (roundPos_range a Ha) as (_ & Ua).
    destruct (roundPos_range b Hb) as (Lb & _).
    pose proof (pow2_le (Js.binade a + 1) (Js.binade b) ltac:(lia)). lra.
Qed.

Lemma round64_mono (p q : Q) : (p <= q)%Q -> (Js.round64 p <= Js.round64 q)%Q.
Proof.
  intros Hpq. unfold Js.round64.
  destruct (Qnum p) as [| n | n] eqn:Np; destruct (Qnum q) as [| m | m] eqn:Nq.
  - lra.
  - apply Qlt_le_weak, roundPos_pos, Qnum_pos. lia.
  - exfalso. unfold Qle in Hpq. rewrite Np, Nq in Hpq. lia.
  - exfalso. unfold Qle in Hpq. rewrite Np, Nq in Hpq. lia.
  - apply roundPos_mono; [apply Qnum_pos; lia | exact Hpq].
  - exfalso. unfold Qle in Hpq. rewrite Np, Nq in Hpq. lia.
  - assert (H : (0 < Js.roundPos (- p))%Q)
      by (apply roundPos_pos, Qnum_pos; simpl; rewrite Np; lia). lra.
  - assert (H : (0 < Js.roundPos (- p))%Q)
      by (apply roundPos_pos, Qnum_pos; simpl; rewrite Np; lia).
    assert (H' : (0 < Js.roundPos q)%Q) by (apply roundPos_pos, Qnum_pos; lia). lra.
  - assert (H : (Js.roundPos (- q) <= Js.roundPos (- p))%Q).
    { apply roundPos_mono; [apply Qnum_pos; simpl; rewrite Nq; lia | lra]. }
    lra.
Qed.

Lemma round64_comp (p q : Q) : (p == q)%Q -> (Js.round64 p == Js.round64 q)%Q.
Proof.
  intros E. apply Qle_antisym; apply round64_mono; rewrite E; apply Qle_refl.
Qed.

Lemma roundHalfEven_comp (x y : Q) : (x == y)%Q -> Js.roundHalfEven x = Js.roundHalfEven y.
Proof.
  intros E. apply Z.le_antisymm; apply roundHalfEven_mono; rewrite E; apply Qle_refl.
Qed.

Lemma round64_pos (q : Q) : (0 < q)%Q -> Js.round64 q = Js.roundPos q.
Proof.
  intros H. apply Qnum_pos in H. unfold Js.round64.
  destruct (Qnum q); [lia | reflexivity | lia].
Qed.

Lemma binade_unique (a : Q) (b : Z) :
  (Js.pow2 b <= a)%Q -> (a < Js.pow2 (b + 1))%Q -> Js.binade a = b.
Proof.
  intros L U. assert (Ha : (0 < a)%Q) by (pose proof (pow2_pos b); lra).
  destruct (binade_spec a Ha) as (L' & U').
  assert (H1 : (Js.pow2 (Js.binade a) < Js.pow2 (b + 1))%Q) by lra.
  assert (H2 : (Js.pow2 b < Js.pow2 (Js.binade a + 1))%Q) by lra.
  apply pow2_lt_inv in H1, H2. lia.
Qed.

(** A number with a significand below 2^53 is a double. *)
Lemma round64_exact (m e : Z) :
  0 < m < 2 ^ 53 ->
  (Js.round64 (inject_Z m * Js.pow2 e) == inject_Z m * Js.pow2 e)%Q.
Proof.
  intros Hm. set (L := Z.log2 m).
  assert (HL : 2 ^ L <= m < 2 ^ (L + 1)).
  { subst L. pose proof (Z.log2_spec m ltac:(lia)) as H.
    rewrite <- Z.add_1_r in H. exact H. }
  assert (HL0 : 0 <= L) by apply Z.log2_nonneg.
  assert (HL52 : L <= 52).
  { assert (2 ^ L < 2 ^ 53) by lia. apply Z.pow_lt_mono_r_iff in H; lia. }
  pose proof (pow2_pos e) as Pe.
  assert (Hml : (Js.pow2 L <= inject_Z m)%Q)
    by (rewrite pow2_inject by lia; rewrite <- Zle_Qle; lia).
  assert (Hmu : (inject_Z m < Js.pow2 (L + 1))%Q)
    by (rewrite pow2_inject by lia; rewrite <- Zlt_Qlt; lia).
  set (a := (inject_Z m * Js.pow2 e)%Q).
  assert (Hb : Js.binade a = L + e).
  { apply binade_unique; subst a.
    - rewrite pow2_plus. apply Qmult_le_r; [exact Pe | exact Hml].
    - replace (L + e + 1) with (L + 1 + e) by lia. rewrite pow2_plus.
      apply Qmult_lt_r; [exact Pe | exact Hmu]. }
  assert (Ha : (0 < a)%Q).
  { subst a. apply Qmult_lt_0_compat; [| exact Pe].
    change 0%Q with (inject_Z 0). rewrite <- Zlt_Qlt. lia. }
  rewrite (round64_pos a Ha). unfold Js.roundPos. cbv zeta. rewrite Hb.
  pose proof (pow2_pos (L + e - 52)) as Ps.
  assert (Es : (Js.pow2 e == Js.pow2 (52 - L) * Js.pow2 (L + e - 52))%Q)
    by (rewrite <- pow2_plus; f_equiv; lia).
  assert (Ex : (a / Js.pow2 (L + e - 52) == inject_Z (m * 2 ^ (52 - L)))%Q).
  { subst a. rewrite inject_Z_mult, <- (pow2_inject (52 - L)) by lia.
    rewrite Es. field. intros E. rewrite E in Ps. apply (Qlt_irrefl 0), Ps. }
  rewrite (roundHalfEven_comp _ _ Ex), roundHalfEven_Z.
  subst a. rewrite inject_Z_mult, <- (pow2_inject (52 - L)) by lia.
  rewrite Es. ring.
Qed.

End Rounding.

(** ** Percentiles (C10) *)

Section Percentile.

Lemma sorted_nth_le (l : list Z) (i j : nat) :
  Sorted Z.le l -> (i <= j)%nat -> (j < length l)%nat ->
  nth i l 0 <= nth j l 0.
Proof.
  intros Hs. apply Sorted_StronglySorted in Hs; [| intros x y z; lia].
  revert i j. induction Hs as [| x l Hl IH Hall]; intros i j Hij Hj.
  - simpl in Hj. lia.
  - destruct j as [| j'].
    + assert (i = 0%nat) by lia. subst. simpl. lia.
    + destruct i as [| i'].
      * simpl. rewrite Forall_forall in Hall. apply Hall.
        apply list_elem_of_In, nth_In. simpl in Hj. lia.
      * simpl. apply IH; simpl in Hj; lia.
Qed.

Lemma clamp_agree (i n : Z) :
  Z.max 0 (Z.min i (n - 1))
  = (if i <? 0 then 0 else if n - 1 <? i then n - 1 else i) \/ n <= 0.
Proof.
  destruct (Z.ltb_spec i 0); destruct (Z.ltb_spec (n - 1) i); lia.
Qed.

(** The program's percentile is the clamped lookup at the product as the
    doubles give it. *)
Lemma getPercentile_at (a : list Z) (p : Q) :
  getPercentile a p
  = percentileAt a (Js.round64 (Js.round64 (p / 100)
                                * inject_Z (Z.of_nat (length a))))%Q.
Proof.
  unfold getPercentile, percentileAt, Js.ceil.
  destruct a as [| x a']; [reflexivity |].
  set (n := Z.of_nat (length (x :: a'))).
  assert (Hn : 0 < n) by (subst n; simpl length; lia).
  destruct (Z.eqb_spec n 0) as [Hz | _]; [lia |].
  set (i := Qceiling _ - 1).
  destruct (clamp_agree i n) as [-> | Hbad]; [| lia].
  set (c := if i <? 0 then 0 else if n - 1 <? i then n - 1 else i).
  assert (Hc : 0 <= c < n).
  { subst c. destruct (Z.ltb_spec i 0); destruct (Z.ltb_spec (n - 1) i); lia. }
  assert (Hlt : (Z.to_nat c < length (x :: a'))%nat) by (subst n; lia).
  destruct (lookup_lt_is_Some_2 _ _ Hlt) as [v Hv].
  rewrite Hv. simpl. symmetry. apply nth_lookup_Some with (d := 0) in Hv.
  symmetry. exact Hv.
Qed.

Lemma percentileSpec_at (a : list Z) (p : Q) :
  percentileSpec a p = percentileAt a (p / 100 * inject_Z (Z.of_nat (length a)))%Q.
Proof. destruct a; reflexivity. Qed.

Lemma percentileAt_comp (a : list Z) (t t' : Q) :
  (t == t')%Q -> percentileAt a t = percentileAt a t'.
Proof.
  intros E. unfold percentileAt. destruct a; [reflexivity |].
  rewrite (Qceiling_comp _ _ E). reflexivity.
Qed.

Lemma getPercentile_member (a : list Z) (p : Q) : a <> [] -> getPercentile a p ∈ a.
Proof.
  intros Hne. unfold getPercentile.
  assert (Hn : 0 < Z.of_nat (length a)) by (destruct a; [done | simpl; lia]).
  destruct (Z.eqb_spec (Z.of_nat (length a)) 0) as [Hz | _]; [lia |].
  apply list_elem_of_In, nth_In. lia.
Qed.

Lemma productIndex_mono (n : Z) (p q : Q) :
  0 <= n -> (p <= q)%Q ->
  Js.ceil (Js.round64 (Js.round64 (p / 100) * inject_Z n))%Q
  <= Js.ceil (Js.round64 (Js.round64 (q / 100) * inject_Z n))%Q.
Proof.
  intros Hn Hpq. unfold Js.ceil. apply Qceiling_resp_le, round64_mono.
  apply Qmult_le_compat_r.
  - apply round64_mono. unfold Qdiv. apply Qmult_le_compat_r; [exact Hpq |].
    discriminate.
  - change 0%Q with (inject_Z 0). rewrite <- Zle_Qle. exact Hn.
Qed.

(** The median: a half is a double, and so is half of a count below
    2^53. *)
Lemma half_product_exact (n : Z) :
  0 < n < 2 ^ 53 ->
  (Js.round64 (Js.round64 (50 / 100) * inject_Z n) == 50 / 100 * inject_Z n)%Q.
Proof.
  intros Hn.
  assert (Hhalf : (Js.round64 (50 / 100) == inject_Z 1 * Js.pow2 (-1))%Q)
    by (vm_compute; reflexivity).
  rewrite (round64_comp _ (inject_Z n * Js.pow2 (-1))%Q).
  - rewrite round64_exact by lia.
    assert (E1 : (Js.pow2 (-1) == 1 # 2)%Q) by reflexivity.
    assert (E2 : (50 / 100 == 1 # 2)%Q) by reflexivity.
    rewrite E1, E2. ring.
  - rewrite Hhalf. ring.
Qed.

End Percentile.

(** C10, as stated, fails: on the hundred numbers 1 to 100 the seventh
    percentile of the formula is 7 (index [ceil(7/100 * 100) - 1 = 6]), but
    the program, whose product [(7 / 100) * 100] is the double just above 7,
    returns 8. *)
Lemma getPercentile_rounding_counterexample :
  getPercentile oneToHundred 7 = 8 /\ percentileSpec oneToHundred 7 = 7.
Proof. split; vm_compute; reflexivity. Qed.

(** C10, amended: for a finite [p], [getPercentile] is the element at index
    [ceil(t) - 1], clamped to a valid position (0 on the empty array), where
    [t] is the product [(p / 100) * n] as the doubles give it, quotient and
    product each rounded; the specification's formula is the same lookup at
    the exact product, so the two agree whenever the rounded product is the
    exact one, as it is for the median of fewer than 2^53 values.  It
    returns 0 on the empty array and [x] on [[x]] whatever [p] is, always
    an element of a non-empty array, and on a sorted array it is monotone
    in [p]. *)
Theorem getPercentile_spec (a : list Z) (p q : Q) :
  Sorted Z.le a -> (p <= q)%Q ->
  (forall (b : list Z) (r : Q),
     getPercentile b r
     = percentileAt b (Js.round64 (Js.round64 (r / 100)
                                   * inject_Z (Z.of_nat (length b))))%Q)
  /\ (forall (b : list Z) (r : Q),
        percentileSpec b r
        = percentileAt b (r / 100 * inject_Z (Z.of_nat (length b)))%Q)
  /\ (forall (b : list Z) (r : Q),
        (Js.round64 (Js.round64 (r / 100) * inject_Z (Z.of_nat (length b)))
         == r / 100 * inject_Z (Z.of_nat (length b)))%Q ->
        getPercentile b r = percentileSpec b r)
  /\ (forall b : list Z,
        Z.of_nat (length b) < 2 ^ 53 -> getPercentile b 50 = percentileSpec b 50)
  /\ (forall r : Q, getPercentile [] r = 0)
  /\ (forall (x : Z) (r : Q), getPercentile [x] r = x)
  /\ (forall (b : list Z) (r : Q), b <> [] -> getPercentile b r ∈ b)
  /\ getPercentile a p <= getPercentile a q.
Proof.
  intros Hs Hpq.
  assert (Hagree : forall (b : list Z) (r : Q),
             (Js.round64 (Js.round64 (r / 100) * inject_Z (Z.of_nat (length b)))
              == r / 100 * inject_Z (Z.of_nat (length b)))%Q ->
             getPercentile b r = percentileSpec b r).
  { intros b r E. rewrite getPercentile_at, percentileSpec_at.
    apply percentileAt_comp, E. }
  split; [exact getPercentile_at |]. split; [exact percentileSpec_at |].
  split; [exact Hagree |]. split; [| split; [| split; [| split]]].
  - intros b Hlen. destruct b as [| x b']; [reflexivity |].
    apply Hagree, half_product_exact. simpl length in *. lia.
  - reflexivity.
  - intros x r. unfold getPercentile. simpl length.
    replace (Z.max 0 (Z.min _ (Z.of_nat 1 - 1))) with 0 by lia. reflexivity.
  - exact getPercentile_member.
  - unfold getPercentile.
    destruct (Z.eqb_spec (Z.of_nat (length a)) 0) as [_ | Hne]; [lia |].
    pose proof (productIndex_mono (Z.of_nat (length a)) p q ltac:(lia) Hpq) as Hm.
    apply sorted_nth_le; [exact Hs | lia | lia].
Qed.

Lemma getPercentile_spec_witness :
  getPercentile [10; 20; 30; 40] 50 <= getPercentile [10; 20; 30; 40] 90.
Proof.
  apply (getPercentile_spec [10; 20; 30; 40] 50 90).
  - repeat constructor; lia.
  - vm_compute. discriminate.
Defined.

(** ** Consistent hashing (C8) *)

Section Hashing.

Lemma toInt32_shift (a m : Z) : Js.toInt32 (a + m * 2 ^ 32) = Js.toInt32 a.
Proof.
  unfold Js.toInt32.
  replace (a + m * 2 ^ 32 + 2 ^ 31) with (a + 2 ^ 31 + m * 2 ^ 32) by ring.
  rewrite Z_mod_plus_full. reflexivity.
Qed.

Lemma toInt32_offset (a : Z) : exists m, Js.toInt32 a = a + m * 2 ^ 32.
Proof.
  exists (- ((a + 2 ^ 31) / 2 ^ 32)). unfold Js.toInt32.
  pose proof (Z_div_mod_eq_full (a + 2 ^ 31) (2 ^ 32)). lia.
Qed.

Lemma toInt32_idem (a : Z) : Js.toInt32 (Js.toInt32 a) = Js.toInt32 a.
Proof.
  destruct (toInt32_offset a) as [m Hm].
  transitivity (Js.toInt32 (a + m * 2 ^ 32)); [f_equal; exact Hm |].
  apply toInt32_shift.
Qed.

(** One round of the loop of [simpleHash] is one round of the rolling
    hash. *)
Lemma hash_round (hash char : Z) :
  Js.band (Js.shl hash 5 - hash + char) (Js.shl hash 5 - hash + char)
  = Js.toInt32 (hash * 31 + char).
Proof.
  unfold Js.band. rewrite Z.land_diag, toInt32_idem.
  unfold Js.shl. rewrite Z.shiftl_mul_pow2 by lia.
  destruct (toInt32_offset hash) as [m Hm].
  destruct (toInt32_offset (Js.toInt32 hash * 2 ^ 5)) as [k Hk].
  rewrite Hk, Hm.
  replace ((hash + m * 2 ^ 32) * 2 ^ 5 + k * 2 ^ 32 - hash + char)
    with (hash * 31 + char + (m * 2 ^ 5 + k) * 2 ^ 32) by ring.
  apply toInt32_shift.
Qed.

Lemma simpleHash_rolling (str : string) :
  simpleHash str = Z.abs (rollingHash (Js.charCodes str)).
Proof.
  unfold simpleHash, rollingHash. f_equal.
  generalize 0. induction (Js.charCodes str) as [| c l IH]; intros h.
  - reflexivity.
  - simpl. rewrite hash_round. apply IH.
Qed.

Lemma index_rem_in_range {A} (l : list A) (h : Z) :
  0 <= h -> l <> [] ->
  Js.index l (Js.rem h (Z.of_nat (length l)))
  = l !! Z.to_nat (h mod Z.of_nat (length l))
  /\ is_Some (l !! Z.to_nat (h mod Z.of_nat (length l))).
Proof.
  intros Hh Hl.
  assert (Hn : 0 < Z.of_nat (length l)) by (destruct l; [done | simpl; lia]).
  unfold Js.index, Js.rem. rewrite Z.rem_mod_nonneg by lia.
  pose proof (Z.mod_pos_bound h _ Hn) as Hb.
  destruct (Z.ltb_spec (h mod Z.of_nat (length l)) 0); [lia |].
  split; [reflexivity |]. apply lookup_lt_is_Some_2. lia.
Qed.

End Hashing.

(** *** The decimal string of an id *)

Section Decimal.











End Decimal.



(** ** Round robin (C5) *)

Section RoundRobin.

Context {A : Type}.
Variable servers : list A.
Hypothesis nonEmpty : servers <> [].

Let N := length servers.

Lemma N_pos : (0 < N)%nat.
Proof using nonEmpty. subst N. destruct servers; [done | simpl; lia]. Qed.

(** One selection with the cursor at [c < N] picks position [c] and moves
    the cursor to [(c + 1) mod N]. *)
Lemma roundRobinSelection_step (c : nat) :
  (c < N)%nat ->
  roundRobinSelection servers (Z.of_nat c)
  = (servers !! c, Z.of_nat (S c mod N)).
Proof using nonEmpty.
  intros Hc. pose proof N_pos as HN. unfold roundRobinSelection. fold N.
  destruct (Z.eqb_spec (Z.of_nat N) 0) as [Hz | _]; [lia |].
  unfold Js.rem, Js.index.
  rewrite !Z.rem_mod_nonneg by lia.
  rewrite Z.mod_small by lia.
  destruct (Z.ltb_spec (Z.of_nat c) 0); [lia |].
  rewrite Nat2Z.id. f_equal.
  rewrite Nat2Z.inj_mod. f_equal. lia.
Qed.

Lemma roundRobinRun_from (k j : nat) :
  roundRobinRun servers (Z.of_nat (j mod N)) k
  = map (fun i => servers !! (i mod N)%nat) (seq j k).
Proof using nonEmpty.
  pose proof N_pos as HN.
  revert j. induction k as [| k IH]; intros j; [reflexivity |].
  simpl. rewrite roundRobinSelection_step by (apply Nat.mod_upper_bound; lia).
  f_equal.
  replace (S (j mod N) mod N)%nat with (S j mod N)%nat.
  - apply IH.
  - replace (S j) with (1 + j)%nat by lia.
    replace (S (j mod N)) with (1 + j mod N)%nat by lia.
    rewrite Nat.Div0.add_mod_idemp_r. reflexivity.
Qed.

(** How many of the first [M] selections fall on position [i]. *)
Lemma hits_count (i M : nat) :
  (i < N)%nat ->
  length (List.filter (fun k => (k mod N =? i)%nat) (seq 0 M))
  = (M / N + (if (i <? M mod N)%nat then 1 else 0))%nat.
Proof using nonEmpty.
  intros Hi. pose proof N_pos as HN.
  induction M as [| M IH].
  - simpl. rewrite Nat.Div0.div_0_l, Nat.Div0.mod_0_l.
    destruct (Nat.ltb_spec i 0); lia.
  - rewrite seq_S, List.filter_app, length_app, IH. simpl.
    pose proof (Nat.div_mod_eq M N) as HM.
    pose proof (Nat.mod_upper_bound M N ltac:(lia)) as HMb.
    pose proof (Nat.div_mod_eq (S M) N) as HS.
    pose proof (Nat.mod_upper_bound (S M) N ltac:(lia)) as HSb.
    assert (Hcase : (S M / N = M / N /\ S M mod N = S (M mod N))%nat
                    \/ (S M / N = S (M / N) /\ S M mod N = 0
                        /\ M mod N = N - 1)%nat).
    { destruct (Nat.lt_ge_cases (S (M mod N)) N) as [Hlt | Hge].
      - left.
        apply (Nat.div_mod_unique N (S M / N) (M / N) (S M mod N) (S (M mod N)));
          lia.
      - right.
        destruct (Nat.div_mod_unique N (S M / N) (S (M / N)) (S M mod N) 0)
          as [Hq Hr]; lia. }
    destruct (Nat.eqb_spec (M mod N) i);
      destruct (Nat.ltb_spec i (M mod N));
      destruct (Nat.ltb_spec i (S M mod N)); simpl; lia.
Qed.

End RoundRobin.

(** C5: against a fixed non-empty list of [N] servers and starting from the
    cursor a reset leaves (0), [M] consecutive round-robin selections return
    the servers in list order, cyclically ([s0, s1, ..., s(N-1), s0, ...]),
    and every position of the list is selected [floor(M/N)] or
    [ceil(M/N)] times.  (No lower bound on [M] is needed.) *)
Theorem roundRobin_cycle {A} (servers : list A) (M : nat) :
  servers <> [] ->
  let N := length servers in
  roundRobinRun servers 0 M = map (fun k => servers !! (k mod N)%nat) (seq 0 M)
  /\ forall i, (i < N)%nat ->
       let hits := length (List.filter (fun k => (k mod N =? i)%nat) (seq 0 M)) in
       hits = (M / N)%nat \/ hits = ((M + N - 1) / N)%nat.
Proof.
  intros Hne N. split.
  - pose proof (roundRobinRun_from servers Hne M 0) as H.
    rewrite Nat.Div0.mod_0_l in H. exact H.
  - intros i Hi hits. subst hits N. rewrite (hits_count servers Hne i M Hi).
    set (N := length servers) in *.
    assert (HN : (0 < N)%nat) by lia.
    pose proof (Nat.div_mod_eq M N) as HM.
    pose proof (Nat.mod_upper_bound M N ltac:(lia)) as HMb.
    pose proof (Nat.div_mod_eq (M + N - 1) N) as HC.
    pose proof (Nat.mod_upper_bound (M + N - 1) N ltac:(lia)) as HCb.
    destruct (Nat.ltb_spec i (M mod N)); [right | left; lia].
    nia.
Qed.

Lemma roundRobin_cycle_witness :
  roundRobinRun [1; 2; 3] 0 6 = [Some 1; Some 2; Some 3; Some 1; Some 2; Some 3].
Proof.
  apply (roundRobin_cycle [1; 2; 3] 6). discriminate.
Defined.

(** ** Task heap: loops that mutate tasks through references *)

Section HeapLoops.

Variable f : Sim -> Task -> Task.

(** The loop body mutates one task and may append to other fields, but
    only through [step]; [f] reads nothing the loop changes. *)
Variable step : Sim -> tref -> Sim.
Hypothesis step_heap : forall s r, heap (step s r) = alter (f s) r (heap s).
Hypothesis f_stable : forall s r, f (step s r) = f s.

Lemma loop_f (refs : list tref) (s : Sim) : f (fold_left step refs s) = f s.
Proof using f_stable.
  revert s. induction refs as [| r refs IH]; intros s; [reflexivity |].
  simpl. rewrite IH. apply f_stable.
Qed.

(** With an idempotent mutation, duplicates in the list do no harm. *)
Lemma loop_lookup_idem (refs : list tref) (s : Sim) (x : tref) (t : Task) :
  (forall t0, f s (f s t0) = f s t0) ->
  heap s !! x = Some t ->
  heap (fold_left step refs s) !! x
  = Some (if decide (x ∈ refs) then f s t else t).
Proof using step_heap f_stable.
  intros Hidem. revert s t Hidem. induction refs as [| r refs IH]; intros s t Hidem Hx.
  - simpl. rewrite Hx. reflexivity.
  - simpl.
    assert (Hidem' : forall t0, f (step s r) (f (step s r) t0) = f (step s r) t0).
    { intros t0. rewrite f_stable. apply Hidem. }
    destruct (decide (x = r)) as [-> | Hne].
    + rewrite (IH (step s r) (f s t) Hidem').
      * rewrite f_stable, Hidem.
        rewrite (decide_True (P := r ∈ r :: refs)) by (apply elem_of_cons; left; reflexivity).
        destruct (decide (r ∈ refs)); reflexivity.
      * rewrite step_heap, list_lookup_alter_eq, Hx. reflexivity.
    + rewrite (IH (step s r) t Hidem').
      * rewrite f_stable.
        destruct (decide (x ∈ refs)) as [Hin | Hnin].
        -- rewrite decide_True by (apply elem_of_cons; right; exact Hin).
           reflexivity.
        -- rewrite decide_False; [reflexivity |].
           intros [Heq | Hin]%elem_of_cons; [exact (Hne Heq) | contradiction].
      * rewrite step_heap, list_lookup_alter_ne by congruence. exact Hx.
Qed.

(** Without duplicates every listed task is mutated exactly once. *)
Lemma loop_lookup_nodup (refs : list tref) (s : Sim) (x : tref) (t : Task) :
  NoDup refs ->
  heap s !! x = Some t ->
  heap (fold_left step refs s) !! x
  = Some (if decide (x ∈ refs) then f s t else t).
Proof using step_heap f_stable.
  intros Hnd. revert s t. induction Hnd as [| r refs Hnin Hnd IH]; intros s t Hx.
  - simpl. rewrite Hx. reflexivity.
  - simpl. destruct (decide (x = r)) as [-> | Hne].
    + rewrite (IH (step s r) (f s t)).
      * rewrite decide_False by exact Hnin.
        rewrite decide_True by (apply elem_of_cons; left; reflexivity).
        reflexivity.
      * rewrite step_heap, list_lookup_alter_eq, Hx. reflexivity.
    + rewrite (IH (step s r) t).
      * rewrite f_stable.
        destruct (decide (x ∈ refs)) as [Hin | Hnin'].
        -- rewrite decide_True by (apply elem_of_cons; right; exact Hin).
           reflexivity.
        -- rewrite decide_False; [reflexivity |].
           intros [Heq | Hin]%elem_of_cons; [exact (Hne Heq) | contradiction].
      * rewrite step_heap, list_lookup_alter_ne by congruence. exact Hx.
Qed.

End HeapLoops.

(** ** Failed servers (C6) *)

Section FailedServer.

Lemma failLoop_failedTasks (refs : list tref) (s : Sim) :
  failedTasks (failLoop refs s) = failedTasks s ++ refs.
Proof.
  unfold failLoop. revert s. induction refs as [| r refs IH]; intros s.
  - simpl. rewrite app_nil_r. reflexivity.
  - simpl. rewrite IH. simpl. rewrite <- app_assoc. reflexivity.
Qed.

Lemma failLoop_servers (refs : list tref) (s : Sim) :
  servers (failLoop refs s) = servers s.
Proof.
  unfold failLoop. revert s. induction refs as [| r refs IH]; intros s;
    [reflexivity |]. simpl. rewrite IH. reflexivity.
Qed.

Lemma failLoop_lookup (refs : list tref) (s : Sim) (x : tref) (t : Task) :
  heap s !! x = Some t ->
  heap (failLoop refs s) !! x
  = Some (if decide (x ∈ refs) then failTask t else t).
Proof.
  intros Hx. unfold failLoop.
  apply (loop_lookup_idem (fun _ => failTask)
           (fun s r => set_failedTasks (failedTasks (updTask r failTask s) ++ [r])
                                       (updTask r failTask s)));
    [reflexivity | reflexivity | reflexivity | exact Hx].
Qed.

End FailedServer.

(** C6: the pass over a server whose health is [failed] marks every task
    of its three queues as failed (flag set, status [failed]; the task is
    appended to [failedTasks]), leaves the three queues and the in-flight
    list empty, and resets the load to 0. *)
Theorem failed_server_drains (i : sref) (s : Sim) (server : Server) :
  servers s !! i = Some server ->
  healthStatus server = failedH ->
  let s' := processServerTasks i s in
  (forall r task, r ∈ allQueued server -> heap s !! r = Some task ->
     exists task', heap s' !! r = Some task'
                   /\ status task' = failed /\ tfailed task' = true)
  /\ failedTasks s' = failedTasks s ++ allQueued server
  /\ exists server', servers s' !! i = Some server'
       /\ taskQueues server' = mkQueues [] [] []
       /\ processingTasks server' = []
       /\ currentLoad server' = 0
       /\ healthStatus server' = failedH.
Proof.
  intros Hsv Hfailed s'. subst s'. unfold processServerTasks.
  rewrite Hsv, Hfailed. simpl bool_decide. cbv iota.
  change (fold_left _ (allQueued server) s) with (failLoop (allQueued server) s).
  split; [| split].
  - intros r task Hin Hr. exists (failTask task). split; [| split; reflexivity].
    unfold updServer. simpl. rewrite (failLoop_lookup _ _ _ _ Hr).
    rewrite decide_True by exact Hin. reflexivity.
  - unfold updServer. simpl. apply failLoop_failedTasks.
  - exists (drainFailedServer server). unfold updServer. simpl.
    rewrite failLoop_servers, list_lookup_alter_eq, Hsv. simpl.
    repeat split. exact Hfailed.
Qed.

(** ** The scheduling pass (C7) *)

Section SchedulingPass.

Variable simTime : Z.

Lemma advanced_elem (hp : list Task) (q : list tref) (n : nat) (x : tref) :
  x ∈ advanced hp q n -> x ∈ q /\ eligible hp x = true.
Proof.
  unfold advanced. intros H. apply elem_of_take in H as (i & Hi & _).
  apply list_elem_of_lookup_2, list_elem_of_In, filter_In in Hi.
  rewrite list_elem_of_In. exact Hi.
Qed.

Lemma advanced_agree (hp hp' : list Task) (q : list tref) (n : nat) :
  (forall x, x ∈ q -> hp' !! x = hp !! x) ->
  advanced hp' q n = advanced hp q n.
Proof.
  intros H. unfold advanced. f_equal. apply filter_ext_in.
  intros x Hx. unfold eligible. rewrite H; [reflexivity |].
  apply list_elem_of_In. exact Hx.
Qed.

Lemma advanceTask_remaining (task : Task) :
  remainingTime (advanceTask simTime task)
  = remainingTime task - Z.min 1000 (remainingTime task).
Proof.
  unfold advanceTask. simpl.
  destruct (remainingTime task - Z.min 1000 (remainingTime task) <=? 0);
    reflexivity.
Qed.

Lemma advanceTask_priority (task : Task) :
  priority (advanceTask simTime task) = priority task.
Proof.
  unfold advanceTask. simpl.
  destruct (remainingTime task - Z.min 1000 (remainingTime task) <=? 0);
    reflexivity.
Qed.

(** The callback leaves everything alone when the budget is used up or
    the task has nothing left to serve. *)
Lemma processTask_skip (r : tref) (st : Pass) :
  3 <= processedThisStep st \/ eligible (p_heap st) r = false ->
  processTask simTime r st = (true, st).
Proof.
  intros H. unfold processTask, maxProcessingPerStep.
  destruct (Z.leb_spec 3 (processedThisStep st)) as [_ | Hlt]; [reflexivity |].
  destruct H as [H | H]; [lia |].
  unfold eligible in H. destruct (p_heap st !! r) as [task |]; [| reflexivity].
  destruct (Z.leb_spec (remainingTime task) 0) as [_ | Hpos]; [reflexivity |].
  apply Z.ltb_ge in H. lia.
Qed.

(** Otherwise it advances exactly that task and counts one. *)
Lemma processTask_work (r : tref) (st : Pass) (task : Task) :
  processedThisStep st < 3 ->
  p_heap st !! r = Some task ->
  0 < remainingTime task ->
  let st' := snd (processTask simTime r st) in
  p_heap st' = <[r := advanceTask simTime task]> (p_heap st)
  /\ processedThisStep st' = processedThisStep st + 1
  /\ taskQueues (p_server st') = taskQueues (p_server st).
Proof.
  intros Hlt Hr Hpos. unfold processTask, maxProcessingPerStep, advanceTask.
  destruct (Z.leb_spec 3 (processedThisStep st)) as [Hge | _]; [lia |].
  rewrite Hr.
  destruct (Z.leb_spec (remainingTime task) 0) as [Hle | _]; [lia |].
  cbv zeta.
  destruct (remainingTime (set_remainingTime _ task) <=? 0); simpl;
    repeat split; reflexivity.
Qed.

Lemma filterQueue_spec (q : list tref) (st : Pass) :
  NoDup q ->
  let st' := snd (filterQueue simTime q st) in
  let adv := advanced (p_heap st) q (Z.to_nat (3 - processedThisStep st)) in
  processedThisStep st' = processedThisStep st + Z.of_nat (length adv)
  /\ taskQueues (p_server st') = taskQueues (p_server st)
  /\ forall x, p_heap st' !! x
               = if decide (x ∈ adv) then advanceTask simTime <$> p_heap st !! x
                 else p_heap st !! x.
Proof.
  intros Hnd. revert st. induction Hnd as [| r q Hnin Hnd IH]; intros st.
  - simpl. unfold advanced. simpl. rewrite take_nil. simpl.
    split; [lia | split; [reflexivity | intros x; reflexivity]].
  - simpl.
    destruct (processTask simTime r st) as [keep st1] eqn:E1.
    destruct (filterQueue simTime q st1) as [kept st2] eqn:E2. simpl.
    specialize (IH st1). rewrite E2 in IH. simpl in IH.
    destruct IH as (IHp & IHq & IHh).
    destruct (Z.le_gt_cases 3 (processedThisStep st)) as [Hge | Hlt];
      [| destruct (eligible (p_heap st) r) eqn:Hel].
    + (* budget used up *)
      rewrite processTask_skip in E1 by (left; exact Hge).
      injection E1 as <- <-.
      replace (Z.to_nat (3 - processedThisStep st)) with 0%nat in * by lia.
      unfold advanced in *. rewrite take_0 in *.
      repeat split; [exact IHp | exact IHq | exact IHh].
    + (* the task is advanced *)
      unfold eligible in Hel.
      destruct (p_heap st !! r) as [task |] eqn:Hr; [| discriminate].
      apply Z.ltb_lt in Hel.
      pose proof (processTask_work r st task Hlt Hr Hel) as Hw.
      rewrite E1 in Hw. simpl in Hw. destruct Hw as (Hh1 & Hp1 & Hq1).
      assert (Hagree : advanced (p_heap st1) q (Z.to_nat (3 - processedThisStep st1))
                       = advanced (p_heap st) q (Z.to_nat (3 - processedThisStep st1))).
      { apply advanced_agree. intros x Hx. rewrite Hh1.
        apply list_lookup_insert_ne. intros ->. exact (Hnin Hx). }
      rewrite Hagree in IHp, IHh.
      set (adv1 := advanced (p_heap st) q (Z.to_nat (3 - processedThisStep st1))) in *.
      assert (Hadv : advanced (p_heap st) (r :: q) (Z.to_nat (3 - processedThisStep st))
                     = r :: adv1).
      { unfold advanced. simpl. unfold eligible at 1. rewrite Hr.
        destruct (Z.ltb_spec 0 (remainingTime task)) as [_ | Hbad]; [| lia].
        replace (Z.to_nat (3 - processedThisStep st))
          with (S (Z.to_nat (3 - processedThisStep st1))) by lia.
        reflexivity. }
      rewrite Hadv. simpl length.
      assert (Hr1 : r ∉ adv1).
      { intros Hin. apply advanced_elem in Hin as [Hin _]. exact (Hnin Hin). }
      split; [lia |]. split; [congruence |].
      intros x. rewrite IHh, Hh1.
      destruct (decide (x = r)) as [-> | Hne].
      * rewrite decide_False by exact Hr1.
        rewrite decide_True by (apply elem_of_cons; left; reflexivity).
        rewrite list_lookup_insert_eq by (eapply lookup_lt_Some; exact Hr).
        rewrite Hr. reflexivity.
      * rewrite list_lookup_insert_ne by congruence.
        destruct (decide (x ∈ adv1)) as [Hin | Hnin'].
        -- rewrite decide_True by (apply elem_of_cons; right; exact Hin).
           reflexivity.
        -- rewrite decide_False; [reflexivity |].
           intros [Heq | Hin]%elem_of_cons; [exact (Hne Heq) | exact (Hnin' Hin)].
    + (* nothing left to serve on this task *)
      rewrite processTask_skip in E1 by (right; exact Hel).
      injection E1 as <- <-.
      assert (Hadv : advanced (p_heap st) (r :: q) (Z.to_nat (3 - processedThisStep st))
                     = advanced (p_heap st) q (Z.to_nat (3 - processedThisStep st))).
      { unfold advanced. simpl. rewrite Hel. reflexivity. }
      rewrite Hadv. repeat split; [exact IHp | exact IHq | exact IHh].
Qed.

Lemma processPriority_spec (p : Priority) (st : Pass) :
  NoDup (queueOf p (taskQueues (p_server st))) ->
  let st' := processPriority simTime p st in
  let adv := advanced (p_heap st) (queueOf p (taskQueues (p_server st)))
               (Z.to_nat (3 - processedThisStep st)) in
  processedThisStep st' = processedThisStep st + Z.of_nat (length adv)
  /\ (forall p', p' <> p ->
        queueOf p' (taskQueues (p_server st')) = queueOf p' (taskQueues (p_server st)))
  /\ forall x, p_heap st' !! x
               = if decide (x ∈ adv) then advanceTask simTime <$> p_heap st !! x
                 else p_heap st !! x.
Proof.
  intros Hnd. unfold processPriority, maxProcessingPerStep.
  destruct (Z.leb_spec 3 (processedThisStep st)) as [Hge | Hlt].
  - replace (Z.to_nat (3 - processedThisStep st)) with 0%nat by lia.
    unfold advanced. rewrite take_0. simpl.
    split; [lia | split; [reflexivity | intros x; reflexivity]].
  - pose proof (filterQueue_spec _ st Hnd) as H.
    destruct (filterQueue simTime _ st) as [kept st1]. simpl in H.
    destruct H as (Hp & Hq & Hh). simpl.
    split; [exact Hp |]. split; [| exact Hh].
    intros p' Hne. rewrite Hq.
    destruct p, p'; try reflexivity; congruence.
Qed.

End SchedulingPass.

Section PassBudget.

Lemma advanced_length (hp : list Task) (q : list tref) (n : nat) :
  (length (advanced hp q n) <= n)%nat.
Proof. unfold advanced. rewrite length_take. lia. Qed.

(** A queue whose share of the budget was not used up had all its
    eligible tasks advanced. *)
Lemma advanced_all (hp : list Task) (q : list tref) (n : nat) (r : tref) :
  (length (advanced hp q n) < n)%nat ->
  r ∈ q -> eligible hp r = true -> r ∈ advanced hp q n.
Proof.
  unfold advanced. intros Hlen Hin Hel. rewrite length_take in Hlen.
  rewrite take_ge by lia.
  apply list_elem_of_In, filter_In. split; [apply list_elem_of_In, Hin | exact Hel].
Qed.

Lemma advanced_nonempty (hp : list Task) (q : list tref) (n : nat) :
  advanced hp q n <> [] -> (0 < n)%nat.
Proof.
  intros H. destruct n; [| lia]. unfold advanced in H. rewrite take_0 in H. done.
Qed.

Lemma processTask_count (t : Z) (r : tref) (st : Pass) :
  0 <= processedThisStep st <= 3 ->
  0 <= processedThisStep (snd (processTask t r st)) <= 3.
Proof.
  intros H. unfold processTask, maxProcessingPerStep.
  destruct (Z.leb_spec 3 (processedThisStep st)); [exact H |].
  destruct (p_heap st !! r) as [task |]; [| exact H].
  destruct (remainingTime task <=? 0); [exact H |].
  cbv zeta. destruct (remainingTime (set_remainingTime _ task) <=? 0); simpl; lia.
Qed.

Lemma filterQueue_count (t : Z) (q : list tref) (st : Pass) :
  0 <= processedThisStep st <= 3 ->
  0 <= processedThisStep (snd (filterQueue t q st)) <= 3.
Proof.
  revert st. induction q as [| r q IH]; intros st H; [exact H |].
  simpl. pose proof (processTask_count t r st H) as H1.
  destruct (processTask t r st) as [keep st1]. simpl in H1.
  specialize (IH st1 H1). destruct (filterQueue t q st1) as [kept st2]. exact IH.
Qed.

Lemma processPriority_count (t : Z) (p : Priority) (st : Pass) :
  0 <= processedThisStep st <= 3 ->
  0 <= processedThisStep (processPriority t p st) <= 3.
Proof.
  intros H. unfold processPriority.
  destruct (maxProcessingPerStep <=? processedThisStep st); [exact H |].
  pose proof (filterQueue_count t (queueOf p (taskQueues (p_server st))) st H) as H1.
  destruct (filterQueue t _ st) as [kept st1]. exact H1.
Qed.

Lemma schedulingPass_count (t : Z) (st : Pass) :
  0 <= processedThisStep st <= 3 ->
  0 <= processedThisStep (schedulingPass t st) <= 3.
Proof.
  intros H. unfold schedulingPass. simpl.
  repeat apply processPriority_count. exact H.
Qed.

End PassBudget.

(** The heap after a pass over well-formed queues, and who gets the
    budget. *)
Lemma schedulingPass_heap (i : sref) (s : Sim) (server : Server) :
  servers s !! i = Some server ->
  healthStatus server <> failedH ->
  NoDup (allQueued server) ->
  let hp := heap s in
  let q := taskQueues server in
  let ah := advanced hp (qhigh q) 3 in
  let am := advanced hp (qmedium q) (3 - length ah) in
  let al := advanced hp (qlow q) (3 - length ah - length am) in
  let s' := processServerTasks i s in
  (length ah + length am + length al <= 3)%nat
  /\ (forall r, heap s' !! r
                = if decide (r ∈ ah ++ am ++ al)
                  then advanceTask (simulationTime s) <$> hp !! r
                  else hp !! r)
  /\ (forall task,
        remainingTime (advanceTask (simulationTime s) task)
        = remainingTime task - Z.min 1000 (remainingTime task))
  /\ (am <> [] -> forall r, r ∈ qhigh q -> eligible hp r = true -> r ∈ ah)
  /\ (al <> [] -> forall r, r ∈ qhigh q ++ qmedium q -> eligible hp r = true ->
        r ∈ ah ++ am).
Proof.
  intros Hsv Hok Hnd hp q ah am al s'.
  unfold allQueued in Hnd. fold q in Hnd.
  apply NoDup_app in Hnd as (Hndh & Hdisj_h & Hnd).
  apply NoDup_app in Hnd as (Hndm & Hdisj_m & Hndl).
  pose proof (advanced_length hp (qhigh q) 3) as Lh. fold ah in Lh.
  pose proof (advanced_length hp (qmedium q) (3 - length ah)) as Lm. fold am in Lm.
  pose proof (advanced_length hp (qlow q) (3 - length ah - length am)) as Ll.
  fold al in Ll.
  split; [lia |]. split; [| split; [| split]].
  - (* the heap after the pass *)
    intros r. subst s'. unfold processServerTasks. rewrite Hsv.
    rewrite bool_decide_eq_false_2 by exact Hok. simpl heap.
    unfold schedulingPass. simpl fold_left.
    set (st0 := mkPass (heap s) server (completedTasks s) 0).
    pose proof (processPriority_spec (simulationTime s) high st0 Hndh) as H1.
    set (st1 := processPriority (simulationTime s) high st0) in *.
    simpl in H1. change (Z.to_nat (3 - 0)) with 3%nat in H1.
    fold hp q in H1. fold ah in H1. destruct H1 as (P1 & Q1 & H1).
    assert (Qm : queueOf medium (taskQueues (p_server st1)) = qmedium q)
      by (rewrite Q1 by discriminate; reflexivity).
    assert (Ql1 : queueOf low (taskQueues (p_server st1)) = qlow q)
      by (rewrite Q1 by discriminate; reflexivity).
    pose proof (processPriority_spec (simulationTime s) medium st1) as H2.
    rewrite Qm in H2. specialize (H2 Hndm).
    set (st2 := processPriority (simulationTime s) medium st1) in *.
    simpl in H2.
    replace (Z.to_nat (3 - processedThisStep st1)) with (3 - length ah)%nat in H2
      by lia.
    rewrite (advanced_agree hp (p_heap st1)) in H2.
    2:{ intros x Hx. rewrite H1. rewrite decide_False; [reflexivity |].
        intros Hin. apply advanced_elem in Hin as [Hin _].
        exact (Hdisj_h x Hin (proj2 (elem_of_app _ _ _) (or_introl Hx))). }
    fold am in H2. destruct H2 as (P2 & Q2 & H2).
    assert (Ql : queueOf low (taskQueues (p_server st2)) = qlow q)
      by (rewrite Q2 by discriminate; exact Ql1).
    pose proof (processPriority_spec (simulationTime s) low st2) as H3.
    rewrite Ql in H3. specialize (H3 Hndl).
    set (st3 := processPriority (simulationTime s) low st2) in *.
    simpl in H3.
    replace (Z.to_nat (3 - processedThisStep st2))
      with (3 - length ah - length am)%nat in H3 by lia.
    rewrite (advanced_agree hp (p_heap st2)) in H3.
    2:{ intros x Hx. rewrite H2, H1.
        rewrite (decide_False (P := x ∈ am)).
        - rewrite decide_False; [reflexivity |].
          intros Hin. apply advanced_elem in Hin as [Hin _].
          exact (Hdisj_h x Hin (proj2 (elem_of_app _ _ _) (or_intror Hx))).
        - intros Hin. apply advanced_elem in Hin as [Hin _].
          exact (Hdisj_m x Hin Hx). }
    fold al in H3. destruct H3 as (P3 & Q3 & H3).
    rewrite H3, H2, H1.
    assert (Dhm : r ∈ ah -> r ∈ am -> False).
    { intros [Ha _]%advanced_elem [Hb _]%advanced_elem.
      exact (Hdisj_h r Ha (proj2 (elem_of_app _ _ _) (or_introl Hb))). }
    assert (Dhl : r ∈ ah -> r ∈ al -> False).
    { intros [Ha _]%advanced_elem [Hb _]%advanced_elem.
      exact (Hdisj_h r Ha (proj2 (elem_of_app _ _ _) (or_intror Hb))). }
    assert (Dml : r ∈ am -> r ∈ al -> False).
    { intros [Ha _]%advanced_elem [Hb _]%advanced_elem.
      exact (Hdisj_m r Ha Hb). }
    destruct (decide (r ∈ al)) as [Hl | Hl];
      destruct (decide (r ∈ am)) as [Hm | Hm];
      destruct (decide (r ∈ ah)) as [Hh | Hh];
      try (exfalso; tauto);
      destruct (decide (r ∈ ah ++ am ++ al)) as [Hin | Hnin];
      try reflexivity;
      exfalso; rewrite !elem_of_app in *; tauto.
  - intros task. apply advanceTask_remaining.
  - intros Ham r Hr Hel. apply advanced_nonempty in Ham.
    apply advanced_all; [fold ah; lia | exact Hr | exact Hel].
  - intros Hal r Hr Hel. apply advanced_nonempty in Hal.
    apply elem_of_app in Hr as [Hr | Hr]; apply elem_of_app.
    + left. apply advanced_all; [fold ah; lia | exact Hr | exact Hel].
    + right. apply advanced_all; [fold am; lia | exact Hr | exact Hel].
Qed.

Lemma failed_server_drains_witness :
  failedTasks (processServerTasks 0 failedScenario) = [0%nat; 1%nat]
  /\ (exists high_task low_task,
        heap (processServerTasks 0 failedScenario) !! 0%nat = Some high_task
        /\ heap (processServerTasks 0 failedScenario) !! 1%nat = Some low_task
        /\ status high_task = failed /\ status low_task = failed)
  /\ exists server',
       servers (processServerTasks 0 failedScenario) !! 0%nat = Some server'
       /\ taskQueues server' = mkQueues [] [] []
       /\ currentLoad server' = 0.
Proof.
  destruct (failed_server_drains 0 failedScenario
              (demoServer failedH 1500 (mkQueues [0%nat] [] [1%nat])))
    as (Hheap & Hfailed & server' & Hsv & Hq & _ & Hload & _).
  - reflexivity.
  - reflexivity.
  - split; [exact Hfailed |]. split.
    + destruct (Hheap 0%nat (queuedTask 1 high 0 500)) as (t0 & H0 & S0 & _);
        [compute_done | reflexivity |].
      destruct (Hheap 1%nat (queuedTask 2 low 0 1000)) as (t1 & H1 & S1 & _);
        [compute_done | reflexivity |].
      exists t0, t1. repeat split; assumption.
    + exists server'. repeat split; assumption.
Defined.

(** ** What the operations do to the task heap and to the metrics object *)

Section Advances.

Lemma prioMono_refl (h : list Task) : prioMono h h.
Proof. intros r t Hr. exists t. split; [exact Hr | lia]. Qed.

Lemma prioMono_trans (h1 h2 h3 : list Task) :
  prioMono h1 h2 -> prioMono h2 h3 -> prioMono h1 h3.
Proof.
  intros H12 H23 r t Hr.
  destruct (H12 r t Hr) as (t2 & Hr2 & Hle2).
  destruct (H23 r t2 Hr2) as (t3 & Hr3 & Hle3).
  exists t3. split; [exact Hr3 | lia].
Qed.

Lemma prioMono_alter (g : Task -> Task) (r : tref) (h : list Task) :
  (forall t, rank (priority t) <= rank (priority (g t))) ->
  prioMono h (alter g r h).
Proof.
  intros Hg x t Hx. destruct (decide (r = x)) as [-> | Hne].
  - exists (g t). rewrite list_lookup_alter_eq, Hx. split; [reflexivity | apply Hg].
  - exists t. rewrite list_lookup_alter_ne by exact Hne. split; [exact Hx | lia].
Qed.

Lemma prioMono_insert (r : tref) (t0 t1 : Task) (h : list Task) :
  h !! r = Some t0 ->
  rank (priority t0) <= rank (priority t1) ->
  prioMono h (<[r := t1]> h).
Proof.
  intros Hr Hle x t Hx. destruct (decide (r = x)) as [-> | Hne].
  - exists t1. rewrite list_lookup_insert_eq by (eapply lookup_lt_Some; exact Hr).
    split; [reflexivity |]. congruence.
  - exists t. rewrite list_lookup_insert_ne by exact Hne. split; [exact Hx | lia].
Qed.

Lemma prioMono_app (h l : list Task) : prioMono h (h ++ l).
Proof.
  intros x t Hx. exists t. split; [| lia]. apply lookup_app_l_Some. exact Hx.
Qed.

Lemma advances_refl (s : Sim) : advances s s.
Proof. split; [apply prioMono_refl | tauto]. Qed.

Lemma advances_trans (s1 s2 s3 : Sim) :
  advances s1 s2 -> advances s2 s3 -> advances s1 s3.
Proof.
  intros [H12 W12] [H23 W23]. split; [eapply prioMono_trans; eassumption | tauto].
Qed.

Lemma advances_heap (s s' : Sim) :
  prioMono (heap s) (heap s') -> metrics s' = metrics s -> advances s s'.
Proof. intros H M. split; [exact H | rewrite M; tauto]. Qed.

Lemma advances_same (s s' : Sim) :
  heap s' = heap s -> metrics s' = metrics s -> advances s s'.
Proof. intros H M. apply advances_heap; [rewrite H; apply prioMono_refl | exact M]. Qed.

Lemma advances_fold {X} (g : Sim -> X -> Sim) (l : list X) (s : Sim) :
  (forall s x, advances s (g s x)) -> advances s (fold_left g l s).
Proof.
  intros Hg. revert s. induction l as [| x l IH]; intros s.
  - apply advances_refl.
  - simpl. eapply advances_trans; [apply Hg | apply IH].
Qed.

Lemma random_adv (s : Sim) : advances s (snd (random s)).
Proof. apply advances_same; reflexivity. Qed.

Lemma now_adv (s : Sim) : advances s (snd (now s)).
Proof. apply advances_same; reflexivity. Qed.

Lemma updTask_adv (r : tref) (g : Task -> Task) (s : Sim) :
  (forall t, rank (priority t) <= rank (priority (g t))) ->
  advances s (updTask r g s).
Proof.
  intros Hg. apply advances_heap; [| reflexivity]. simpl.
  apply prioMono_alter, Hg.
Qed.

Lemma updServer_adv (i : sref) (g : Server -> Server) (s : Sim) :
  advances s (updServer i g s).
Proof. apply advances_same; reflexivity. Qed.

Lemma failAssignment_adv (r : tref) (s : Sim) : advances s (failAssignment r s).
Proof.
  unfold failAssignment.
  eapply advances_trans; [apply (updTask_adv r failTask) |].
  - intros t. simpl. lia.
  - apply advances_same; reflexivity.
Qed.

Lemma selectServerByAlgorithm_adv hs (task : Task) (s : Sim) :
  advances s (snd (selectServerByAlgorithm hs task s)).
Proof.
  unfold selectServerByAlgorithm.
  destruct (algorithm (config s)); try apply advances_refl.
  - destruct (roundRobinSelection hs (roundRobinCounter s)) as [sv c].
    apply advances_same; reflexivity.
  - unfold randomizedSelection.
    destruct (random s) as [r s1] eqn:E.
    pose proof (random_adv s) as H. rewrite E in H. simpl in H.
    destruct (roulette hs _ _); exact H.
Qed.

Lemma assignTask_adv (r : tref) (s : Sim) : advances s (assignTask r s).
Proof.
  unfold assignTask. destruct (heap s !! r) as [task |]; [| apply advances_refl].
  destruct (Z.of_nat (length (healthyServersOf (servers s))) =? 0);
    [apply failAssignment_adv |].
  pose proof (selectServerByAlgorithm_adv (healthyServersOf (servers s)) task s) as H.
  destruct (selectServerByAlgorithm _ task s) as [sel s1]. simpl in H.
  eapply advances_trans; [exact H |].
  destruct sel as [[i sv] |]; [| apply failAssignment_adv].
  eapply advances_trans; [| apply updServer_adv].
  apply updTask_adv. intros t. simpl. lia.
Qed.

Lemma generateTask_adv (s : Sim) : advances s (generateTask s).
Proof.
  unfold generateTask.
  destruct (random s) as [r1 s1] eqn:E1.
  pose proof (random_adv s) as H1. rewrite E1 in H1. simpl in H1.
  destruct (random s1) as [r2 s2] eqn:E2.
  pose proof (random_adv s1) as H2. rewrite E2 in H2. simpl in H2.
  eapply advances_trans; [exact H1 |].
  eapply advances_trans; [exact H2 |].
  eapply advances_trans; [| apply assignTask_adv].
  apply advances_heap; [| reflexivity]. simpl. apply prioMono_app.
Qed.

Lemma createServer_adv (i : Z) (s : Sim) : advances s (createServer i s).
Proof. apply advances_same; reflexivity. Qed.

Lemma createServers_adv (s : Sim) : advances s (createServers s).
Proof.
  unfold createServers.
  eapply advances_trans; [| apply advances_fold; intros; apply createServer_adv].
  apply advances_same; reflexivity.
Qed.

Lemma processTask_mono (t : Z) (r : tref) (st : Pass) :
  prioMono (p_heap st) (p_heap (snd (processTask t r st))).
Proof.
  unfold processTask.
  destruct (maxProcessingPerStep <=? processedThisStep st); [apply prioMono_refl |].
  destruct (p_heap st !! r) as [task |] eqn:Hr; [| apply prioMono_refl].
  destruct (remainingTime task <=? 0); [apply prioMono_refl |].
  cbv zeta.
  destruct (remainingTime (set_remainingTime _ task) <=? 0); simpl;
    (eapply prioMono_insert; [exact Hr | simpl; lia]).
Qed.

Lemma filterQueue_mono (t : Z) (q : list tref) (st : Pass) :
  prioMono (p_heap st) (p_heap (snd (filterQueue t q st))).
Proof.
  revert st. induction q as [| r q IH]; intros st; [apply prioMono_refl |].
  simpl. pose proof (processTask_mono t r st) as H1.
  destruct (processTask t r st) as [keep st1]. simpl in H1.
  specialize (IH st1). destruct (filterQueue t q st1) as [kept st2]. simpl in *.
  eapply prioMono_trans; eassumption.
Qed.

Lemma processPriority_mono (t : Z) (p : Priority) (st : Pass) :
  prioMono (p_heap st) (p_heap (processPriority t p st)).
Proof.
  unfold processPriority.
  destruct (maxProcessingPerStep <=? processedThisStep st); [apply prioMono_refl |].
  pose proof (filterQueue_mono t (queueOf p (taskQueues (p_server st))) st) as H.
  destruct (filterQueue t _ st) as [kept st1]. exact H.
Qed.

Lemma schedulingPass_mono (t : Z) (st : Pass) :
  prioMono (p_heap st) (p_heap (schedulingPass t st)).
Proof.
  unfold schedulingPass. simpl.
  eapply prioMono_trans; [| apply processPriority_mono].
  eapply prioMono_trans; [| apply processPriority_mono].
  apply processPriority_mono.
Qed.

Lemma processServerTasks_adv (i : sref) (s : Sim) :
  advances s (processServerTasks i s).
Proof.
  unfold processServerTasks.
  destruct (servers s !! i) as [server |]; [| apply advances_refl].
  destruct (bool_decide (healthStatus server = failedH)).
  - eapply advances_trans; [| apply updServer_adv].
    apply advances_fold. intros s0 r.
    eapply advances_trans; [apply (updTask_adv r failTask) |].
    + intros t. simpl. lia.
    + apply advances_same; reflexivity.
  - apply advances_heap; [| reflexivity]. simpl.
    apply (schedulingPass_mono (simulationTime s)
             (mkPass (heap s) server (completedTasks s) 0)).
Qed.

(** An aging step never lowers a priority and raises it by one level at
    most. *)
Lemma escalate_rank (p : Priority) :
  rank p <= rank (escalate p) <= rank p + 1.
Proof. destruct p; simpl; lia. Qed.

Lemma ageTask_rank (t : Z) (task : Task) :
  rank (priority task) <= rank (priority (ageTask t task))
                       <= rank (priority task) + 1.
Proof.
  unfold ageTask. destruct (bool_decide (status task = processing)); [| lia].
  destruct (Qltb _ _); [| lia]. simpl. apply escalate_rank.
Qed.

Lemma ageTasks_adv (s : Sim) : advances s (ageTasks s).
Proof.
  unfold ageTasks. apply advances_fold. intros s0 r.
  apply updTask_adv. intros t. apply ageTask_rank.
Qed.

Lemma updateOneServerHealth_adv (i : sref) (s : Sim) :
  advances s (updateOneServerHealth i s).
Proof.
  apply advances_same; unfold updateOneServerHealth;
    destruct (servers s !! i) as [server |]; try reflexivity;
    simpl; repeat (match goal with
                   | |- context [if ?b then _ else _] => destruct b; simpl
                   end); reflexivity.
Qed.

Lemma updateServerHealth_adv (s : Sim) : advances s (updateServerHealth s).
Proof.
  unfold updateServerHealth. apply advances_fold.
  intros s0 i. apply updateOneServerHealth_adv.
Qed.

Lemma fireRecoveryTimer_adv (k : nat) (s : Sim) :
  advances s (fireRecoveryTimer k s).
Proof.
  unfold fireRecoveryTimer. destruct (recoveryTimers s !! k);
    apply advances_same; reflexivity.
Qed.

Lemma simulateRandomFailure_adv (s : Sim) : advances s (simulateRandomFailure s).
Proof.
  unfold simulateRandomFailure.
  destruct (0 <? Z.of_nat (length (healthyServersOf (servers s))));
    [| apply advances_refl].
  simpl. destruct (Js.index _ _) as [[i sv] |]; apply advances_same; reflexivity.
Qed.

Lemma recoverAllServers_adv (s : Sim) : advances s (recoverAllServers s).
Proof. apply advances_same; reflexivity. Qed.

Lemma updateTaskProgress_adv (s : Sim) : advances s (updateTaskProgress s).
Proof. apply advances_same; reflexivity. Qed.

End Advances.

(** ** Computations with exceptions *)

Section Effects.

Lemma bind_normal {A B} (m : Eff A) (k : A -> Eff B) (s s' : Sim) (a : A) :
  m s = (Normal a, s') -> (m ≫= k) s = k a s'.
Proof. intros H. unfold mbind, Eff_bind. rewrite H. reflexivity. Qed.

Lemma bind_throw {A B} (m : Eff A) (k : A -> Eff B) (s s' : Sim) (e : JsError) :
  m s = (Throw e, s') -> (m ≫= k) s = (Throw e, s').
Proof. intros H. unfold mbind, Eff_bind. rewrite H. reflexivity. Qed.

Variable R : Sim -> Sim -> Prop.
Hypothesis R_refl : forall s, R s s.
Hypothesis R_trans : forall s1 s2 s3, R s1 s2 -> R s2 s3 -> R s1 s3.

Lemma EffRel_bind {A B} (m : Eff A) (k : A -> Eff B) :
  EffRel R m -> (forall a, EffRel R (k a)) -> EffRel R (m ≫= k).
Proof using R_trans.
  intros Hm Hk s. unfold mbind, Eff_bind.
  specialize (Hm s). destruct (m s) as [[a | e] s1]; simpl in *.
  - eapply R_trans; [exact Hm | apply Hk].
  - exact Hm.
Qed.

Lemma EffRel_ret {A} (a : A) : EffRel R (mret a).
Proof using R_refl. intros s. apply R_refl. Qed.

Lemma EffRel_lift (g : Sim -> Sim) : (forall s, R s (g s)) -> EffRel R (lift g).
Proof. intros H s. apply H. Qed.

Lemma EffRel_gets {A} (g : Sim -> A) : EffRel R (gets g).
Proof using R_refl. intros s. apply R_refl. Qed.

Lemma EffRel_throw {A} (e : JsError) : EffRel R (throw (A := A) e).
Proof using R_refl. intros s. apply R_refl. Qed.

Lemma EffRel_when (b : bool) (m : Eff unit) : EffRel R m -> EffRel R (when b m).
Proof using R_refl. intros H. destruct b; [exact H | apply EffRel_ret]. Qed.

Lemma rel_fold {X} (g : Sim -> X -> Sim) (l : list X) (s : Sim) :
  (forall s x, R s (g s x)) -> R s (fold_left g l s).
Proof using R_refl R_trans.
  intros Hg. revert s. induction l as [| x l IH]; intros s.
  - apply R_refl.
  - simpl. eapply R_trans; [apply Hg | apply IH].
Qed.

End Effects.

(** ** The metrics object keeps its shape *)

Section MetricsShape.

Lemma wellShaped_fresh : wellShaped freshMetrics.
Proof. intros k. reflexivity. Qed.

Lemma fresh_percentiles_lookup :
  freshMetrics !! "responseTimePercentiles" = Some (Group freshPercentiles).
Proof. reflexivity. Qed.

Lemma pushSeries_kinds (field : string) (v : Q) (s : Sim) (k : string) :
  kind <$> metrics (snd (pushSeries field v s)) !! k = kind <$> metrics s !! k.
Proof.
  unfold pushSeries.
  destruct (metrics s !! field) as [[xs | g | pg] |] eqn:E; simpl; try reflexivity.
  rewrite lookup_insert. destruct (decide (field = k)) as [<- | _]; [| reflexivity].
  rewrite E. reflexivity.
Qed.

Lemma pushMember_kinds (group member : string) (v : Q) (s : Sim) (k : string) :
  kind <$> metrics (snd (pushMember group member v s)) !! k
  = kind <$> metrics s !! k.
Proof.
  unfold pushMember.
  destruct (metrics s !! group) as [[xs | g | pg] |] eqn:E; simpl; try reflexivity.
  destruct (g !! member) as [values |] eqn:Eg; simpl; [| reflexivity].
  rewrite lookup_insert. destruct (decide (group = k)) as [<- | _]; [| reflexivity].
  rewrite E. simpl. rewrite dom_insert_lookup_L by (rewrite Eg; eauto).
  reflexivity.
Qed.

Lemma pushSeries_heap (field : string) (v : Q) (s : Sim) :
  heap (snd (pushSeries field v s)) = heap s.
Proof.
  unfold pushSeries. destruct (metrics s !! field) as [[xs | g | pg] |]; reflexivity.
Qed.

Lemma pushMember_heap (group member : string) (v : Q) (s : Sim) :
  heap (snd (pushMember group member v s)) = heap s.
Proof.
  unfold pushMember. destruct (metrics s !! group) as [[xs | g | pg] |];
    try reflexivity.
  destruct (g !! member); reflexivity.
Qed.

Lemma pushSeries_adv (field : string) (v : Q) : EffAdv (pushSeries field v).
Proof.
  intros s. split.
  - rewrite pushSeries_heap. apply prioMono_refl.
  - intros W k. rewrite pushSeries_kinds. apply W.
Qed.

Lemma pushMember_adv (group member : string) (v : Q) :
  EffAdv (pushMember group member v).
Proof.
  intros s. split.
  - rewrite pushMember_heap. apply prioMono_refl.
  - intros W k. rewrite pushMember_kinds. apply W.
Qed.

(** Pushing onto a field the literal declares as an array succeeds and
    touches the metrics object only. *)
Lemma pushSeries_ok (field : string) (v : Q) (s : Sim) :
  wellShaped (metrics s) ->
  kind <$> freshMetrics !! field = Some KSeries ->
  exists m', pushSeries field v s = (Normal tt, set_metrics m' s) /\ wellShaped m'.
Proof.
  intros W Hk. pose proof (W field) as Hf. rewrite Hk in Hf.
  pose proof (pushSeries_adv field v s) as [_ W'].
  unfold pushSeries in *.
  destruct (metrics s !! field) as [[xs | g | pg] |]; try discriminate.
  eexists. split; [reflexivity |]. apply W', W.
Qed.

Lemma pushPercentile_ok (member : string) (v : Q) (s : Sim) :
  wellShaped (metrics s) ->
  member ∈ ["p50"; "p90"; "p95"] ->
  exists m', pushMember "responseTimePercentiles" member v s
             = (Normal tt, set_metrics m' s) /\ wellShaped m'.
Proof.
  intros W Hmem. pose proof (W "responseTimePercentiles") as Hf.
  pose proof (pushMember_adv "responseTimePercentiles" member v s) as [_ W'].
  unfold pushMember in *.
  destruct (metrics s !! "responseTimePercentiles") as [[xs | g | pg] |];
    try discriminate.
  assert (Hdom : member ∈ dom g).
  { rewrite fresh_percentiles_lookup in Hf. simpl in Hf.
    assert (Hg : dom g = dom freshPercentiles) by congruence.
    rewrite Hg. unfold freshPercentiles.
    rewrite !dom_insert_L, dom_empty_L.
    rewrite !elem_of_cons in Hmem. rewrite !elem_of_union, !elem_of_singleton.
    destruct Hmem as [-> | [-> | [-> | Hnil]]]; [tauto | tauto | tauto |].
    apply elem_of_nil in Hnil. contradiction. }
  apply elem_of_dom in Hdom as [values Hv]. rewrite Hv in *.
  eexists. split; [reflexivity |]. apply W', W.
Qed.

(** Pushing onto a field the literal does not declare throws and changes
    nothing. *)
Lemma pushSeries_undefined (field : string) (v : Q) (s : Sim) :
  wellShaped (metrics s) ->
  freshMetrics !! field = None ->
  pushSeries field v s = (Throw (UndefinedField field), s).
Proof.
  intros W Hk. pose proof (W field) as Hf. rewrite Hk in Hf.
  unfold pushSeries. destruct (metrics s !! field); [discriminate | reflexivity].
Qed.

End MetricsShape.

(** ** Reset (C3) *)

Section ResetProperties.

Lemma sameRun_refl (s : Sim) : sameRun s s.
Proof. repeat split. Qed.

Lemma sameRun_trans (s1 s2 s3 : Sim) : sameRun s1 s2 -> sameRun s2 s3 -> sameRun s1 s3.
Proof.
  unfold sameRun. intros H12 H23.
  destruct H12 as (? & ? & ? & ? & ? & ? & ? & ? & ? & ?).
  destruct H23 as (? & ? & ? & ? & ? & ? & ? & ? & ? & ?).
  repeat split; congruence.
Qed.

Lemma createServer_spec (i : Z) (s : Sim) :
  sameRun s (createServer i s)
  /\ exists sv, servers (createServer i s) = servers s ++ [sv]
                /\ freshServer (config s) sv.
Proof.
  split; [repeat split |].
  eexists. split; [reflexivity |]. repeat split.
Qed.

Lemma createLoop_spec (ids : list Z) (s : Sim) :
  let s' := fold_left (fun s i => createServer i s) ids s in
  sameRun s s'
  /\ length (servers s') = (length (servers s) + length ids)%nat
  /\ (Forall (freshServer (config s)) (servers s) ->
      Forall (freshServer (config s)) (servers s')).
Proof.
  revert s. induction ids as [| i ids IH]; intros s; simpl.
  - split; [apply sameRun_refl |]. split; [lia | tauto].
  - destruct (createServer_spec i s) as (Hsame & sv & Hsv & Hfresh).
    destruct (IH (createServer i s)) as (Hsame' & Hlen & Hall).
    split; [exact (sameRun_trans _ _ _ Hsame Hsame') |]. split.
    + rewrite Hlen, Hsv, length_app. simpl. lia.
    + intros Hs. destruct Hsame as (Hc & _). rewrite Hc in Hall. apply Hall.
      rewrite Hsv. apply Forall_app. split; [exact Hs |].
      constructor; [exact Hfresh | constructor].
Qed.

Lemma createServers_spec (s : Sim) :
  sameRun s (createServers s)
  /\ length (servers (createServers s)) = Z.to_nat (serverCount (config s))
  /\ Forall (freshServer (config s)) (servers (createServers s)).
Proof.
  unfold createServers.
  set (s0 := set_recoveryTimers [] (set_weightedRoundRobinCounters []
                                      (set_servers [] s))).
  pose proof (createLoop_spec
                (map (fun k => Z.of_nat (S k))
                     (seq 0 (Z.to_nat (serverCount (config s0))))) s0)
    as (Hsame & Hlen & Hall).
  split; [| split].
  - eapply sameRun_trans; [| exact Hsame]. repeat split.
  - rewrite Hlen. simpl. rewrite length_map, length_seq. reflexivity.
  - apply Hall. constructor.
Qed.

End ResetProperties.

Lemma resetSimulation_result (s : Sim) :
  exists s',
    resetSimulation s = (Normal tt, s')
    /\ config s' = config s
    /\ simulationTime s' = 0 /\ currentTaskId s' = 1 /\ roundRobinCounter s' = 0
    /\ tasks s' = [] /\ completedTasks s' = [] /\ failedTasks s' = []
    /\ metrics s' = freshMetrics /\ simulationState s' = stopped
    /\ length (servers s') = Z.to_nat (serverCount (config s))
    /\ Forall (freshServer (config s)) (servers s').
Proof.
  eexists. split; [reflexivity |].
  match goal with
  | |- context [createServers ?s0] =>
      destruct (createServers_spec s0)
        as ((Hc & _ & Ht & Hct & Hft & Hid & Htime & Hrr & Hst & Hm) & Hlen & Hall)
  end.
  simpl in *.
  repeat split; assumption.
Qed.

(** ** References stay sound *)

Section WellFormed.

Lemma keepsForm_refl (s : Sim) : keepsForm s s.
Proof. intros H. exact H. Qed.

Lemma keepsForm_trans (s1 s2 s3 : Sim) :
  keepsForm s1 s2 -> keepsForm s2 s3 -> keepsForm s1 s3.
Proof. unfold keepsForm. tauto. Qed.

Lemma keepsForm_frame (s s' : Sim) :
  length (heap s') = length (heap s) ->
  tasks s' = tasks s ->
  map taskQueues (servers s') = map taskQueues (servers s) ->
  keepsForm s s'.
Proof. intros Hh Ht Hs. unfold keepsForm, wellFormed. rewrite Hh, Ht, Hs. tauto. Qed.

Lemma wellFormed_lookup (s : Sim) (i : sref) (sv : Server) :
  wellFormed s -> servers s !! i = Some sv ->
  queuesOk (length (heap s)) (taskQueues sv).
Proof.
  intros (Hq & _) Hsv. rewrite Forall_lookup in Hq. apply (Hq i).
  rewrite list_lookup_fmap, Hsv. reflexivity.
Qed.

Lemma queuesOk_mono (n m : nat) (q : TaskQueues) :
  (n <= m)%nat -> queuesOk n q -> queuesOk m q.
Proof.
  intros Hle (Hnd & Hlt). split; [exact Hnd |].
  intros r Hr. specialize (Hlt r Hr). lia.
Qed.

Lemma allOf_enqueue (p : Priority) (r : tref) (q : TaskQueues) :
  allOf (setQueue p (queueOf p q ++ [r]) q) ≡ₚ r :: allOf q.
Proof.
  unfold allOf. destruct p; simpl.
  - rewrite <- app_assoc. simpl. symmetry. apply Permutation_middle.
  - rewrite <- app_assoc. simpl. rewrite app_assoc.
    symmetry. rewrite app_assoc. apply Permutation_middle.
  - rewrite !app_assoc. symmetry. apply Permutation_cons_append.
Qed.

Lemma queuesOk_enqueue (p : Priority) (n : nat) (q : TaskQueues) :
  queuesOk n q -> queuesOk (S n) (setQueue p (queueOf p q ++ [n]) q).
Proof.
  intros (Hnd & Hlt). split.
  - rewrite allOf_enqueue. apply NoDup_cons. split; [| exact Hnd].
    intros Hin. specialize (Hlt n Hin). lia.
  - intros r Hr. rewrite allOf_enqueue in Hr.
    apply elem_of_cons in Hr as [-> | Hr]; [lia |]. specialize (Hlt r Hr). lia.
Qed.

Lemma queuesOk_sub (n : nat) (q q' : TaskQueues) :
  allOf q' `sublist_of` allOf q -> queuesOk n q -> queuesOk n q'.
Proof.
  intros Hsub (Hnd & Hlt). split.
  - eapply sublist_NoDup; eassumption.
  - intros r Hr. apply Hlt. eapply elem_of_sublist; eassumption.
Qed.

Lemma map_taskQueues_alter (g : Server -> Server) (i : sref) (l : list Server) :
  (forall sv, taskQueues (g sv) = taskQueues sv) ->
  map taskQueues (alter g i l) = map taskQueues l.
Proof.
  intros Hg. revert i. induction l as [| sv l IH]; intros [| i]; simpl;
    try reflexivity.
  - rewrite Hg. reflexivity.
  - f_equal. apply IH.
Qed.

Lemma map_taskQueues_insert (i : sref) (sv sv' : Server) (l : list Server) :
  l !! i = Some sv -> taskQueues sv' = taskQueues sv ->
  map taskQueues (<[i := sv']> l) = map taskQueues l.
Proof.
  intros Hi Hq. change (map taskQueues) with (fmap (M := list) taskQueues).
  rewrite list_fmap_insert. apply list_insert_id.
  rewrite list_lookup_fmap, Hi, Hq. reflexivity.
Qed.

Lemma random_form (s : Sim) : keepsForm s (snd (random s)).
Proof. apply keepsForm_frame; reflexivity. Qed.

Lemma now_form (s : Sim) : keepsForm s (snd (now s)).
Proof. apply keepsForm_frame; reflexivity. Qed.

Lemma updTask_form (r : tref) (g : Task -> Task) (s : Sim) :
  keepsForm s (updTask r g s).
Proof. apply keepsForm_frame; [apply length_alter | reflexivity | reflexivity]. Qed.

Lemma updServer_form (i : sref) (g : Server -> Server) (s : Sim) :
  (forall sv, taskQueues (g sv) = taskQueues sv) ->
  keepsForm s (updServer i g s).
Proof.
  intros Hg. apply keepsForm_frame; [reflexivity | reflexivity |].
  apply map_taskQueues_alter, Hg.
Qed.

Lemma failAssignment_form (r : tref) (s : Sim) : keepsForm s (failAssignment r s).
Proof. apply keepsForm_frame; [apply length_alter | reflexivity | reflexivity]. Qed.

Lemma selectServerByAlgorithm_same hs (task : Task) (s : Sim) :
  let s1 := snd (selectServerByAlgorithm hs task s) in
  servers s1 = servers s /\ heap s1 = heap s /\ tasks s1 = tasks s.
Proof.
  unfold selectServerByAlgorithm.
  destruct (algorithm (config s)); simpl; try (repeat split; reflexivity).
  - destruct (roundRobinSelection hs (roundRobinCounter s)). repeat split.
  - unfold randomizedSelection. simpl. destruct (roulette hs _ _); repeat split.
Qed.

(** The server a strategy returns is one of the list it was given. *)
Lemma healthyServersOf_elem (store : list Server) (i : sref) (sv : Server) :
  (i, sv) ∈ healthyServersOf store -> store !! i = Some sv.
Proof.
  unfold healthyServersOf. intros H.
  apply list_elem_of_In, filter_In in H as [H _]. apply list_elem_of_In in H.
  apply elem_of_lookup_imap in H as (j & y & Heq & Hj).
  injection Heq as -> ->. exact Hj.
Qed.

Lemma Forall_alter_change {X} (P Q : X -> Prop) (g : X -> X) (i : nat) (l : list X) :
  Forall P l -> (forall x, P x -> Q x) -> (forall x, P x -> Q (g x)) ->
  Forall Q (alter g i l).
Proof.
  intros Hl HPQ Hg. revert i. induction Hl as [| x l Hx Hl IH]; intros i.
  - destruct i; constructor.
  - destruct i as [| i]; simpl; constructor.
    + apply Hg, Hx.
    + eapply Forall_impl; [exact Hl | exact HPQ].
    + apply HPQ, Hx.
    + apply IH.
Qed.

Lemma Forall_map_1 {X Y} (g : X -> Y) (P : Y -> Prop) (l : list X) :
  Forall P (map g l) -> Forall (fun x => P (g x)) l.
Proof. apply List.Forall_map. Qed.

Lemma Forall_map_2 {X Y} (g : X -> Y) (P : Y -> Prop) (l : list X) :
  Forall (fun x => P (g x)) l -> Forall P (map g l).
Proof. apply List.Forall_map. Qed.

Lemma updServer_form_gen (i : sref) (g : Server -> Server) (s : Sim) :
  (forall sv n, queuesOk n (taskQueues sv) -> queuesOk n (taskQueues (g sv))) ->
  keepsForm s (updServer i g s).
Proof.
  intros Hg (Hq & Ht). split; [| exact Ht]. simpl.
  apply Forall_map_2. apply Forall_map_1 in Hq.
  eapply Forall_alter_change; [exact Hq | tauto | intros sv; apply Hg].
Qed.

(** Enqueueing the task just allocated. *)
Lemma assignTask_fresh (n : nat) (s : Sim) :
  length (heap s) = S n ->
  Forall (queuesOk n) (map taskQueues (servers s)) ->
  NoDup (tasks s) ->
  (forall r, r ∈ tasks s -> (r < S n)%nat) ->
  wellFormed (assignTask n s).
Proof.
  intros Hlen Hq Hnd Hlt.
  assert (Hq' : Forall (queuesOk (S n)) (map taskQueues (servers s))).
  { eapply Forall_impl; [exact Hq |]. intros q. apply queuesOk_mono. lia. }
  assert (Hfail : forall s1, servers s1 = servers s -> heap s1 = heap s ->
                             tasks s1 = tasks s -> wellFormed (failAssignment n s1)).
  { intros s1 Hs Hh Htk. apply failAssignment_form.
    unfold wellFormed. rewrite Hs, Hh, Htk, Hlen. auto. }
  unfold assignTask.
  destruct (heap s !! n) as [task |] eqn:Hn.
  2:{ unfold wellFormed. rewrite Hlen. auto. }
  destruct (Z.of_nat (length (healthyServersOf (servers s))) =? 0);
    [apply Hfail; reflexivity |].
  pose proof (selectServerByAlgorithm_same (healthyServersOf (servers s)) task s)
    as (Hs & Hh & Htk).
  destruct (selectServerByAlgorithm _ task s) as [sel s1]. simpl in Hs, Hh, Htk.
  destruct sel as [[i sv] |]; [| apply Hfail; assumption].
  unfold wellFormed, updServer, updTask. simpl.
  rewrite length_alter, Hh, Htk, Hs, Hlen.
  split; [| auto].
  apply Forall_map_2. apply Forall_map_1 in Hq.
  eapply Forall_alter_change; [exact Hq | |].
  - intros x. apply queuesOk_mono. lia.
  - intros x Hx. simpl. apply queuesOk_enqueue. exact Hx.
Qed.

Lemma generateTask_form (s : Sim) : keepsForm s (generateTask s).
Proof.
  intros (Hq & Hnd & Hlt). unfold generateTask, random. simpl.
  apply assignTask_fresh; simpl.
  - rewrite length_app. simpl. lia.
  - exact Hq.
  - apply NoDup_app. split; [exact Hnd |]. split; [| apply NoDup_singleton].
    intros x Hx Hin. apply list_elem_of_singleton in Hin. specialize (Hlt x Hx). lia.
  - intros r [Hr | Hr]%elem_of_app.
    + specialize (Hlt r Hr). lia.
    + apply list_elem_of_singleton in Hr. lia.
Qed.

Lemma processTask_shape (t : Z) (r : tref) (st : Pass) :
  length (p_heap (snd (processTask t r st))) = length (p_heap st)
  /\ taskQueues (p_server (snd (processTask t r st))) = taskQueues (p_server st).
Proof.
  unfold processTask.
  destruct (maxProcessingPerStep <=? processedThisStep st); [split; reflexivity |].
  destruct (p_heap st !! r) as [task |]; [| split; reflexivity].
  destruct (remainingTime task <=? 0); [split; reflexivity |].
  cbv zeta.
  destruct (remainingTime (set_remainingTime _ task) <=? 0); simpl;
    (split; [apply length_insert | reflexivity]).
Qed.

Lemma filterQueue_shape (t : Z) (q : list tref) (st : Pass) :
  length (p_heap (snd (filterQueue t q st))) = length (p_heap st)
  /\ taskQueues (p_server (snd (filterQueue t q st))) = taskQueues (p_server st)
  /\ fst (filterQueue t q st) `sublist_of` q.
Proof.
  revert st. induction q as [| r q IH]; intros st; simpl.
  - repeat split. constructor.
  - pose proof (processTask_shape t r st) as (Hl1 & Hq1).
    destruct (processTask t r st) as [keep st1]. simpl in Hl1, Hq1.
    destruct (IH st1) as (Hl2 & Hq2 & Hsub).
    destruct (filterQueue t q st1) as [kept st2]. simpl in *.
    split; [congruence |]. split; [congruence |].
    destruct keep; [apply sublist_skip | apply sublist_cons]; exact Hsub.
Qed.

Lemma processPriority_shape (t : Z) (p : Priority) (st : Pass) :
  length (p_heap (processPriority t p st)) = length (p_heap st)
  /\ allOf (taskQueues (p_server (processPriority t p st)))
     `sublist_of` allOf (taskQueues (p_server st)).
Proof.
  unfold processPriority.
  destruct (maxProcessingPerStep <=? processedThisStep st); [split; reflexivity |].
  pose proof (filterQueue_shape t (queueOf p (taskQueues (p_server st))) st)
    as (Hl & Hq & Hsub).
  destruct (filterQueue t _ st) as [kept st1]. simpl in *.
  split; [exact Hl |]. rewrite Hq. unfold allOf.
  destruct p; simpl in *; repeat apply sublist_app; first [exact Hsub | reflexivity].
Qed.

Lemma schedulingPass_shape (t : Z) (st : Pass) :
  length (p_heap (schedulingPass t st)) = length (p_heap st)
  /\ allOf (taskQueues (p_server (schedulingPass t st)))
     `sublist_of` allOf (taskQueues (p_server st)).
Proof.
  unfold schedulingPass. simpl.
  destruct (processPriority_shape t high st) as (L1 & S1).
  destruct (processPriority_shape t medium (processPriority t high st)) as (L2 & S2).
  destruct (processPriority_shape t low
              (processPriority t medium (processPriority t high st))) as (L3 & S3).
  split; [congruence |]. etransitivity; [exact S3 |]. etransitivity; eassumption.
Qed.

Lemma processServerTasks_form (i : sref) (s : Sim) :
  keepsForm s (processServerTasks i s).
Proof.
  unfold processServerTasks.
  destruct (servers s !! i) as [server |] eqn:Hsv; [| apply keepsForm_refl].
  destruct (bool_decide (healthStatus server = failedH)).
  - eapply keepsForm_trans;
      [| apply updServer_form_gen; intros sv n _; split; [constructor |];
         intros r Hr; apply elem_of_nil in Hr; contradiction].
    apply rel_fold; [exact keepsForm_refl | exact keepsForm_trans |]. intros s0 r.
    apply keepsForm_frame; [apply length_alter | reflexivity | reflexivity].
  - intros Hwf. pose proof (wellFormed_lookup s i server Hwf Hsv) as Hok.
    destruct Hwf as (Hq & Ht).
    destruct (schedulingPass_shape (simulationTime s)
                (mkPass (heap s) server (completedTasks s) 0)) as (Hl & Hsub).
    simpl in Hl, Hsub.
    unfold wellFormed. simpl. rewrite Hl. split; [| exact Ht].
    change (map taskQueues) with (fmap (M := list) taskQueues).
    rewrite list_fmap_insert. apply Forall_insert; [exact Hq |].
    eapply queuesOk_sub; eassumption.
Qed.

Lemma ageTasks_form (s : Sim) : keepsForm s (ageTasks s).
Proof.
  unfold ageTasks. apply rel_fold; [exact keepsForm_refl | exact keepsForm_trans |].
  intros s0 r. apply updTask_form.
Qed.

Lemma updateOneServerHealth_form (i : sref) (s : Sim) :
  keepsForm s (updateOneServerHealth i s).
Proof.
  unfold updateOneServerHealth.
  destruct (servers s !! i) as [server |] eqn:Hsv; [| apply keepsForm_refl].
  simpl.
  repeat (match goal with
          | |- context [if ?b then _ else _] => destruct b; simpl
          end);
    (apply keepsForm_frame; simpl;
     [reflexivity | reflexivity
     | eapply map_taskQueues_insert; [exact Hsv | reflexivity]]).
Qed.

Lemma updateServerHealth_form (s : Sim) : keepsForm s (updateServerHealth s).
Proof.
  unfold updateServerHealth. apply rel_fold; [exact keepsForm_refl | exact keepsForm_trans |].
  intros s0 i. apply updateOneServerHealth_form.
Qed.

Lemma fireRecoveryTimer_form (k : nat) (s : Sim) :
  keepsForm s (fireRecoveryTimer k s).
Proof.
  unfold fireRecoveryTimer. destruct (recoveryTimers s !! k) as [i |];
    [| apply keepsForm_refl].
  apply keepsForm_frame; [reflexivity | reflexivity |]. simpl.
  apply map_taskQueues_alter. intros sv. unfold recoveryTimeout.
  destruct (bool_decide _); reflexivity.
Qed.

Lemma simulateRandomFailure_form (s : Sim) :
  keepsForm s (simulateRandomFailure s).
Proof.
  unfold simulateRandomFailure.
  destruct (0 <? Z.of_nat (length (healthyServersOf (servers s))));
    [| apply keepsForm_refl].
  simpl. destruct (Js.index _ _) as [[i sv] |];
    (apply keepsForm_frame; [reflexivity | reflexivity |]); simpl; [| reflexivity].
  apply map_taskQueues_alter. reflexivity.
Qed.

Lemma recoverAllServers_form (s : Sim) : keepsForm s (recoverAllServers s).
Proof.
  apply keepsForm_frame; [reflexivity | reflexivity |]. simpl.
  rewrite map_map. apply map_ext. intros sv. destruct (_ || _); reflexivity.
Qed.

Lemma updateTaskProgress_form (s : Sim) : keepsForm s (updateTaskProgress s).
Proof. apply keepsForm_frame; reflexivity. Qed.

Lemma pushSeries_form (field : string) (v : Q) : EffForm (pushSeries field v).
Proof.
  intros s. unfold pushSeries.
  destruct (metrics s !! field) as [[xs | g | pg] |];
    apply keepsForm_frame; reflexivity.
Qed.

Lemma pushMember_form (group member : string) (v : Q) :
  EffForm (pushMember group member v).
Proof.
  intros s. unfold pushMember.
  destruct (metrics s !! group) as [[xs | g | pg] |];
    try (apply keepsForm_frame; reflexivity).
  destruct (g !! member); apply keepsForm_frame; reflexivity.
Qed.

(** A reset leaves sound references whatever it started from. *)
Lemma resetSimulation_wellFormed (s : Sim) : wellFormed (snd (resetSimulation s)).
Proof.
  destruct (resetSimulation_result s)
    as (s' & E & _ & _ & _ & _ & Ht & _ & _ & _ & _ & _ & Hfresh).
  rewrite E. simpl. unfold wellFormed. rewrite Ht. split; [| split].
  - apply Forall_map_2. eapply Forall_impl; [exact Hfresh |].
    intros sv (_ & _ & Hq & _). simpl. rewrite Hq. split; [constructor |].
    intros r Hr. apply elem_of_nil in Hr. contradiction.
  - constructor.
  - intros r Hr. apply elem_of_nil in Hr. contradiction.
Qed.

End WellFormed.

(** ** The driver's computations *)

Section Driver.

Local Ltac rel_facts :=
  first [ exact advances_refl | exact advances_trans
        | exact keepsForm_refl | exact keepsForm_trans ].

Local Ltac adv_chain :=
  repeat match goal with
  | |- EffRel _ (_ ≫= _) => apply EffRel_bind; [rel_facts | | intros ?]
  | |- EffRel _ (when _ _) => apply EffRel_when; [rel_facts |]
  | |- EffRel _ (gets _) => apply EffRel_gets; rel_facts
  | |- EffRel _ (mret _) => apply EffRel_ret; rel_facts
  | |- EffRel _ (throw _) => apply EffRel_throw; rel_facts
  | |- EffRel advances (pushSeries _ _) => apply pushSeries_adv
  | |- EffRel advances (pushMember _ _ _) => apply pushMember_adv
  | |- EffRel keepsForm (pushSeries _ _) => apply pushSeries_form
  | |- EffRel keepsForm (pushMember _ _ _) => apply pushMember_form
  end.

Lemma calculateAdvancedMetrics_adv : EffAdv calculateAdvancedMetrics.
Proof. unfold calculateAdvancedMetrics. adv_chain. Qed.

Lemma calculateMetrics_adv : EffAdv calculateMetrics.
Proof.
  unfold calculateMetrics. adv_chain.
  destruct (taskProgress a); adv_chain.
Qed.

Lemma set_metrics_fresh_adv (s : Sim) : advances s (set_metrics freshMetrics s).
Proof. split; [apply prioMono_refl | intros _; apply wellShaped_fresh]. Qed.

Lemma resetSimulation_adv : EffAdv resetSimulation.
Proof.
  unfold resetSimulation. adv_chain; apply EffRel_lift; intros s;
    first [ apply set_metrics_fresh_adv
          | apply createServers_adv
          | apply advances_same; reflexivity ].
Qed.

Lemma startSimulation_adv : EffAdv startSimulation.
Proof.
  unfold startSimulation. adv_chain.
  - apply resetSimulation_adv.
  - apply EffRel_lift. intros s. apply advances_same; reflexivity.
Qed.

Lemma processSimulationStep_adv : EffAdv processSimulationStep.
Proof.
  unfold processSimulationStep. adv_chain;
    try (apply EffRel_lift; intros s).
  - apply advances_same; reflexivity.
  - apply updateServerHealth_adv.
  - apply advances_fold. intros s0 i. apply processServerTasks_adv.
  - apply ageTasks_adv.
  - apply calculateAdvancedMetrics_adv.
  - apply updateTaskProgress_adv.
  - apply calculateMetrics_adv.
  - apply advances_same; reflexivity.
Qed.

Lemma stepSimulation_adv : EffAdv stepSimulation.
Proof.
  unfold stepSimulation. adv_chain.
  destruct (simulationState a); adv_chain;
    first [ apply processSimulationStep_adv
          | apply EffRel_lift; intros s; apply generateTask_adv ].
Qed.

Lemma perform_adv (o : Op) : EffAdv (perform o).
Proof.
  destruct o; simpl;
    first [ apply resetSimulation_adv
          | apply startSimulation_adv
          | apply processSimulationStep_adv
          | apply stepSimulation_adv
          | apply EffRel_lift; intros s;
            first [ apply generateTask_adv
                  | apply simulateRandomFailure_adv
                  | apply recoverAllServers_adv
                  | apply fireRecoveryTimer_adv
                  | apply advances_same; reflexivity ] ].
Qed.

Lemma run_adv (ops : list Op) (s : Sim) : advances s (run ops s).
Proof.
  unfold run. apply advances_fold. intros s0 o. apply perform_adv.
Qed.

(** With a well-shaped metrics object the first aggregator completes. *)
Lemma calculateAdvancedMetrics_ok (s : Sim) :
  wellShaped (metrics s) ->
  exists m', calculateAdvancedMetrics s = (Normal tt, set_metrics m' s)
             /\ wellShaped m'.
Proof.
  intros W. unfold calculateAdvancedMetrics.
  rewrite (bind_normal _ _ s s s) by reflexivity.
  cbv zeta.
  repeat match goal with
  | |- context [pushSeries ?f ?v ≫= _] =>
      let m := fresh "m" in
      let E := fresh "E" in
      let Wm := fresh "W" in
      match goal with
      | |- exists _, (_ ≫= _) ?s0 = _ /\ _ =>
          destruct (pushSeries_ok f v s0) as (m & E & Wm);
          [first [assumption | exact W] | reflexivity |];
          rewrite (bind_normal _ _ _ _ _ E); clear E
      end
  | |- context [pushMember ?g ?mem ?v ≫= _] =>
      let m := fresh "m" in
      let E := fresh "E" in
      let Wm := fresh "W" in
      match goal with
      | |- exists _, (_ ≫= _) ?s0 = _ /\ _ =>
          destruct (pushPercentile_ok mem v s0) as (m & E & Wm);
          [assumption | compute_done |];
          rewrite (bind_normal _ _ _ _ _ E); clear E
      end
  end.
  match goal with
  | |- exists _, pushMember _ ?mem ?v ?s0 = _ /\ _ =>
      destruct (pushPercentile_ok mem v s0) as (m' & E & Wm);
      [assumption | compute_done |]
  end.
  exists m'. split; [exact E | exact Wm].
Qed.

(** The second aggregator stops at [successRate]. *)
Lemma calculateMetrics_throws (s : Sim) :
  wellShaped (metrics s) ->
  is_Some (taskProgress s) ->
  fst (calculateMetrics s) = Throw (UndefinedField "successRate").
Proof.
  intros W [progress Hp]. unfold calculateMetrics.
  rewrite (bind_normal _ _ s s s) by reflexivity.
  cbv zeta. rewrite Hp.
  do 4 match goal with
  | |- fst ((pushSeries ?f ?v ≫= _) ?s0) = _ =>
      let m := fresh "m" in
      let E := fresh "E" in
      let Wm := fresh "W" in
      destruct (pushSeries_ok f v s0) as (m & E & Wm);
      [first [assumption | exact W] | reflexivity |];
      rewrite (bind_normal _ _ _ _ _ E); clear E
  end.
  match goal with
  | |- fst ((pushSeries ?f ?v ≫= _) ?s0) = _ =>
      rewrite (bind_throw _ _ _ _ _ (pushSeries_undefined f v s0 ltac:(assumption)
                                       eq_refl))
  end.
  reflexivity.
Qed.

(** Every tick ends in the exception of [calculateMetrics]. *)
Lemma processSimulationStep_throws (s : Sim) :
  wellShaped (metrics s) ->
  fst (processSimulationStep s) = Throw (UndefinedField "successRate").
Proof.
  intros W. unfold processSimulationStep.
  set (s1 := set_simulationTime (simulationTime s + 1) s).
  rewrite (bind_normal _ _ s s1 tt) by reflexivity.
  rewrite (bind_normal _ _ s1 s1 (simulationTime s1)) by reflexivity.
  set (s2 := if Js.rem (simulationTime s1) 3 =? 0 then updateServerHealth s1 else s1).
  rewrite (bind_normal _ _ s1 s2 tt)
    by (subst s2; unfold when; destruct (Js.rem _ 3 =? 0); reflexivity).
  set (s3 := fold_left (fun s i => processServerTasks i s)
                       (seq 0 (length (servers s2))) s2).
  rewrite (bind_normal _ _ s2 s3 tt) by reflexivity.
  rewrite (bind_normal _ _ s3 (ageTasks s3) tt) by reflexivity.
  assert (W4 : wellShaped (metrics (ageTasks s3))).
  { assert (Hadv : advances s (ageTasks s3)).
    { eapply advances_trans; [| apply ageTasks_adv].
      eapply advances_trans;
        [| apply advances_fold; intros s0 i; apply processServerTasks_adv].
      eapply advances_trans; [apply (advances_same s s1); reflexivity |].
      subst s2. destruct (Js.rem _ 3 =? 0);
        [apply updateServerHealth_adv | apply advances_refl]. }
    apply Hadv, W. }
  destruct (calculateAdvancedMetrics_ok _ W4) as (m5 & E5 & W5).
  rewrite (bind_normal _ _ _ _ _ E5).
  set (s5 := set_metrics m5 (ageTasks s3)).
  rewrite (bind_normal _ _ s5 (updateTaskProgress s5) tt) by reflexivity.
  assert (Hthrow := calculateMetrics_throws (updateTaskProgress s5) W5
                      ltac:(simpl; eauto)).
  destruct (calculateMetrics (updateTaskProgress s5)) as [[[] | e] s6] eqn:E6;
    simpl in Hthrow; [discriminate |].
  rewrite (bind_throw _ _ _ _ _ E6). exact Hthrow.
Qed.

Lemma calculateAdvancedMetrics_form : EffForm calculateAdvancedMetrics.
Proof. unfold calculateAdvancedMetrics. adv_chain. Qed.

Lemma calculateMetrics_form : EffForm calculateMetrics.
Proof.
  unfold calculateMetrics. adv_chain.
  destruct (taskProgress a); adv_chain.
Qed.

Lemma resetSimulation_form : EffForm resetSimulation.
Proof. intros s _. apply resetSimulation_wellFormed. Qed.

Lemma startSimulation_form : EffForm startSimulation.
Proof.
  unfold startSimulation. adv_chain.
  - apply resetSimulation_form.
  - apply EffRel_lift. intros s. apply keepsForm_frame; reflexivity.
Qed.

Lemma processSimulationStep_form : EffForm processSimulationStep.
Proof.
  unfold processSimulationStep. adv_chain;
    try (apply EffRel_lift; intros s).
  - apply keepsForm_frame; reflexivity.
  - apply updateServerHealth_form.
  - apply rel_fold; [exact keepsForm_refl | exact keepsForm_trans |].
    intros s0 i. apply processServerTasks_form.
  - apply ageTasks_form.
  - apply calculateAdvancedMetrics_form.
  - apply updateTaskProgress_form.
  - apply calculateMetrics_form.
  - apply keepsForm_frame; reflexivity.
Qed.

Lemma stepSimulation_form : EffForm stepSimulation.
Proof.
  unfold stepSimulation. adv_chain.
  destruct (simulationState a); adv_chain;
    first [ apply processSimulationStep_form
          | apply EffRel_lift; intros s; apply generateTask_form ].
Qed.

Lemma perform_form (o : Op) : EffForm (perform o).
Proof.
  destruct o; simpl;
    first [ apply resetSimulation_form
          | apply startSimulation_form
          | apply processSimulationStep_form
          | apply stepSimulation_form
          | apply EffRel_lift; intros s;
            first [ apply generateTask_form
                  | apply simulateRandomFailure_form
                  | apply recoverAllServers_form
                  | apply fireRecoveryTimer_form
                  | apply keepsForm_frame; reflexivity ] ].
Qed.

Lemma run_form (ops : list Op) (s : Sim) : keepsForm s (run ops s).
Proof.
  unfold run. apply rel_fold; [exact keepsForm_refl | exact keepsForm_trans |].
  intros s0 o. apply perform_form.
Qed.

(** Every state reachable from a reset has sound references. *)
Lemma reachable_wellFormed (s0 : Sim) (ops : list Op) :
  wellFormed (run ops (snd (resetSimulation s0))).
Proof. apply run_form, resetSimulation_wellFormed. Qed.

End Driver.

(** ** Reset (C3), continued *)

(** C3, as stated, fails: with priority shares 80/50/0, which normalization
    cannot bring to 100, [resetSimulation] completes normally and has
    emptied the task collection and rebuilt the server pool. *)
Lemma reset_accepts_invalid_config :
  let s := set_config invalidConfig busyScenario in
  ~ configValid (config s)
  /\ fst (resetSimulation s) = Normal tt
  /\ tasks s <> [] /\ tasks (snd (resetSimulation s)) = []
  /\ length (servers s) = 1%nat /\ length (servers (snd (resetSimulation s))) = 2%nat.
Proof.
  vm_compute. repeat split; try reflexivity; discriminate.
Qed.

(** C3, amended: [resetSimulation] validates nothing and has no failing
    exit.  From every state, whatever the configuration, it completes
    normally, leaves the configuration as it is, and reinitializes the run:
    time 0, next task id 1, round-robin cursor 0, empty task, completed and
    failed collections, the metrics object of the literal, state [stopped],
    and [serverCount] new healthy servers with load 0, empty queues and the
    configured capacity. *)
Theorem reset_always_succeeds (s : Sim) :
  exists s',
    resetSimulation s = (Normal tt, s')
    /\ config s' = config s
    /\ simulationTime s' = 0 /\ currentTaskId s' = 1 /\ roundRobinCounter s' = 0
    /\ tasks s' = [] /\ completedTasks s' = [] /\ failedTasks s' = []
    /\ metrics s' = freshMetrics /\ simulationState s' = stopped
    /\ length (servers s') = Z.to_nat (serverCount (config s))
    /\ Forall (freshServer (config s)) (servers s').
Proof. apply resetSimulation_result. Qed.

(** ** The metrics exception (C1) *)

(** C1: the metrics literal of the constructor and of [resetSimulation] has
    no [successRate] and no [completionVelocity] field, and from every state
    reachable from a reset, by any sequence of requests, a simulation step
    ends in the exception raised by [this.metrics.successRate.push]. *)
Theorem step_reaches_undefined_metric (s0 : Sim) (ops : list Op) :
  freshMetrics !! "successRate" = None
  /\ freshMetrics !! "completionVelocity" = None
  /\ fst (processSimulationStep (run ops (snd (resetSimulation s0))))
     = Throw (UndefinedField "successRate").
Proof.
  split; [reflexivity |]. split; [reflexivity |].
  apply processSimulationStep_throws.
  destruct (resetSimulation_result s0) as (s1 & E & _ & _ & _ & _ & _ & _ & _ & Hm & _).
  rewrite E. simpl.
  apply (run_adv ops s1). rewrite Hm. apply wellShaped_fresh.
Qed.

(** ** Priorities only rise (C9) *)

Section Aging.

Lemma ageTasks_lookup (s : Sim) (r : tref) (task : Task) :
  NoDup (tasks s) ->
  heap s !! r = Some task ->
  heap (ageTasks s) !! r
  = Some (if decide (r ∈ tasks s) then ageTask (simulationTime s) task else task).
Proof.
  intros Hnd Hr. unfold ageTasks.
  apply (loop_lookup_nodup (fun s => ageTask (simulationTime s))
           (fun s r => updTask r (ageTask (simulationTime s)) s));
    [reflexivity | reflexivity | exact Hnd | exact Hr].
Qed.

Lemma ageTask_priority (t : Z) (task : Task) :
  priority (ageTask t task) = priority task
  \/ priority (ageTask t task) = escalate (priority task).
Proof.
  unfold ageTask. destruct (bool_decide (status task = processing)); [| tauto].
  destruct (Qltb _ _); [right; reflexivity | tauto].
Qed.

Lemma ageTasks_servers (s : Sim) : servers (ageTasks s) = servers s.
Proof.
  unfold ageTasks. generalize (tasks s) as refs. intros refs. revert s.
  induction refs as [| r refs IH]; intros s; [reflexivity |].
  simpl. rewrite IH. reflexivity.
Qed.

End Aging.

(** C9: no request to the simulator lowers the priority of a task: after
    any sequence of requests every task is still there with a priority at
    least as high as before.  An aging step takes a task one step along
    low, medium, high at most, high being terminal; so does a whole aging
    pass when [this.tasks] lists each task once, as it does in every state
    reachable from a reset. *)
Theorem priority_never_decreases (ops : list Op) (s : Sim) (r : tref) (task : Task) :
  heap s !! r = Some task ->
  (exists task', heap (run ops s) !! r = Some task'
                 /\ rank (priority task) <= rank (priority task'))
  /\ (forall t, (priority (ageTask t task) = priority task
                 \/ priority (ageTask t task) = escalate (priority task))
                /\ rank (priority task) <= rank (priority (ageTask t task))
                                        <= rank (priority task) + 1)
  /\ (NoDup (tasks s) ->
      exists task', heap (ageTasks s) !! r = Some task'
                    /\ (task' = task \/ task' = ageTask (simulationTime s) task))
  /\ ((exists s0 ops0, s = run ops0 (snd (resetSimulation s0))) -> NoDup (tasks s))
  /\ escalate low = medium /\ escalate medium = high /\ escalate high = high.
Proof.
  intros Hr. split; [| split; [| split; [| split]]].
  - destruct (run_adv ops s) as [Hmono _]. exact (Hmono r task Hr).
  - intros t. split; [apply ageTask_priority | apply ageTask_rank].
  - intros Hnd. rewrite (ageTasks_lookup s r task Hnd Hr).
    destruct (decide (r ∈ tasks s)); eexists; (split; [reflexivity | tauto]).
  - intros (s0 & ops0 & ->). apply (reachable_wellFormed s0 ops0).
  - repeat split.
Qed.

Lemma priority_never_decreases_witness :
  exists task',
    heap (run starvingRun starvedScenario) !! 0%nat = Some task'
    /\ rank (priority agedTask) <= rank (priority task').
Proof.
  destruct (priority_never_decreases starvingRun starvedScenario 0%nat agedTask)
    as (H & _).
  - reflexivity.
  - exact H.
Defined.

(** ** Aging and the queues (C2) *)

(** C2 does not hold of the code.  Aging rewrites the [priority] field
    only: no server, hence no queue, is touched by [ageTasks].  In the
    scenario a task that arrived low and is medium by now sits in the low
    queue; three medium tasks arrive; the second tick escalates the old task
    to high, still in the low queue and with the high queue empty; the third
    tick spends the whole budget on the three medium tasks and leaves the
    only high-priority task unserved. *)
Theorem aged_task_stays_in_old_queue :
  (forall s, servers (ageTasks s) = servers s)
  /\ let s2 := run starvingRun starvedScenario in
     let s3 := run [op_tick] s2 in
     map priority (heap starvedScenario) = [medium]
     /\ map priority (heap s2) = [high; medium; medium; medium]
     /\ taskQueues <$> servers s2 !! 0%nat
        = Some (mkQueues [] [1%nat; 2%nat; 3%nat] [0%nat])
     /\ map remainingTime (heap s2) = [1501000; 9998000; 9998000; 9998000]
     /\ map remainingTime (heap s3) = [1501000; 9997000; 9997000; 9997000]
     /\ map priority (heap s3) = [high; medium; medium; medium].
Proof.
  split; [apply ageTasks_servers |].
  vm_compute. repeat split; reflexivity.
Qed.

(** ** The budget of a pass (C7) *)

(** C7: the pass over a server that has not failed advances at most three
    tasks; an advanced task loses [min(1000, remainingTime)]; and the budget
    of three goes to the first eligible tasks of the high queue, what is
    left of it to the medium queue, and what is left after that to the low
    queue, so that no medium task is advanced while an eligible high task
    is not, and no low task while an eligible high or medium task is not.
    A task is eligible when its remaining time is positive.  The account of
    the heap after the pass supposes that the queues hold each task once,
    which is so in every state reachable from a reset. *)
Theorem scheduling_pass_budget (i : sref) (s : Sim) (server : Server) :
  servers s !! i = Some server ->
  healthStatus server <> failedH ->
  let hp := heap s in
  let q := taskQueues server in
  let ah := advanced hp (qhigh q) 3 in
  let am := advanced hp (qmedium q) (3 - length ah) in
  let al := advanced hp (qlow q) (3 - length ah - length am) in
  let s' := processServerTasks i s in
  0 <= processedThisStep
         (schedulingPass (simulationTime s) (mkPass hp server (completedTasks s) 0))
    <= maxProcessingPerStep
  /\ (length ah + length am + length al <= 3)%nat
  /\ (forall task,
        remainingTime (advanceTask (simulationTime s) task)
        = remainingTime task - Z.min 1000 (remainingTime task))
  /\ (am <> [] -> forall r, r ∈ qhigh q -> eligible hp r = true -> r ∈ ah)
  /\ (al <> [] -> forall r, r ∈ qhigh q ++ qmedium q -> eligible hp r = true ->
        r ∈ ah ++ am)
  /\ (NoDup (allQueued server) ->
      forall r, heap s' !! r
                = if decide (r ∈ ah ++ am ++ al)
                  then advanceTask (simulationTime s) <$> hp !! r
                  else hp !! r)
  /\ ((exists s0 ops, s = run ops (snd (resetSimulation s0))) ->
      NoDup (allQueued server)).
Proof.
  intros Hsv Hok hp q ah am al s'.
  assert (Hreach : (exists s0 ops, s = run ops (snd (resetSimulation s0))) ->
                   NoDup (allQueued server)).
  { intros (s0 & ops & ->).
    apply (wellFormed_lookup _ i server (reachable_wellFormed s0 ops) Hsv). }
  split; [apply schedulingPass_count; simpl; lia |].
  pose proof (advanced_length hp (qhigh q) 3) as Lh. fold ah in Lh.
  pose proof (advanced_length hp (qmedium q) (3 - length ah)) as Lm. fold am in Lm.
  pose proof (advanced_length hp (qlow q) (3 - length ah - length am)) as Ll.
  fold al in Ll.
  split; [lia |]. split; [intros task; apply advanceTask_remaining |].
  split; [| split; [| split; [| exact Hreach]]].
  - intros Ham r Hr Hel. apply advanced_nonempty in Ham.
    apply advanced_all; [fold ah; lia | exact Hr | exact Hel].
  - intros Hal r Hr Hel. apply advanced_nonempty in Hal.
    apply elem_of_app in Hr as [Hr | Hr]; apply elem_of_app.
    + left. apply advanced_all; [fold ah; lia | exact Hr | exact Hel].
    + right. apply advanced_all; [fold am; lia | exact Hr | exact Hel].
  - intros Hnd.
    destruct (schedulingPass_heap i s server Hsv Hok Hnd) as (_ & Hheap & _).
    exact Hheap.
Qed.

Lemma scheduling_pass_budget_witness :
  map remainingTime (heap (processServerTasks 0 busyScenario))
  = [0; 1500; 200; 3000; 500].
Proof.
  destruct (scheduling_pass_budget 0 busyScenario
              (demoServer healthy 7700
                 (mkQueues [0%nat; 1%nat] [2%nat; 3%nat] [4%nat])))
    as (_ & _ & _ & _ & _ & Hheap & _).
  - reflexivity.
  - discriminate.
  - specialize (Hheap ltac:(compute_done)).
    apply (list_eq_same_length _ _ 5); [reflexivity | reflexivity |].
    intros k x y Hk Hx Hy.
    rewrite list_lookup_fmap, Hheap in Hx.
    do 5 (destruct k as [| k]; [vm_compute in Hx, Hy; congruence |]). lia.
Defined.

(** * Further properties of the engine *)

(** ** Selection by a best key *)

Section BestOf.

(** [lt x m]: [x] is strictly better than [m]; [le x m]: [x] is at least as
    good as [m]; [beats] is the test the loop makes. *)
Context {A : Type}.
Variables (lt le : A -> A -> Prop) (beats : A -> A -> bool).
Hypothesis beats_lt : forall x m, beats x m = true -> lt x m.
Hypothesis beats_le : forall x m, beats x m = false -> le m x.
Hypothesis lt_le : forall a b, lt a b -> le a b.
Hypothesis lt_le_trans : forall a b c, lt a b -> le b c -> lt a c.
Hypothesis le_refl : forall a, le a a.

(** The loop keeps the first element that no other one beats. *)
Lemma best_fold (l : list A) (m0 : A) :
  let r := fold_left (fun m x => if beats x m then x else m) l m0 in
  (r = m0 /\ forall x, x ∈ l -> le m0 x)
  \/ (exists k, l !! k = Some r /\ lt r m0 /\ (forall x, x ∈ l -> le r x)
                /\ forall j x, (j < k)%nat -> l !! j = Some x -> lt r x).
Proof using beats_lt beats_le lt_le lt_le_trans le_refl.
  revert m0. induction l as [| x l IH]; intros m0; simpl.
  - left. split; [reflexivity |]. intros x Hx. apply elem_of_nil in Hx. contradiction.
  - destruct (beats x m0) eqn:Hb.
    + apply beats_lt in Hb. destruct (IH x) as [(Hr & Hall) | (k & Hk & Hlt & Hall & Hfirst)].
      * right. exists 0%nat. rewrite Hr. split; [reflexivity |]. split; [exact Hb |].
        split.
        -- intros y [-> | Hy]%elem_of_cons; [apply le_refl | apply Hall, Hy].
        -- intros j y Hj. lia.
      * right. exists (S k). split; [exact Hk |].
        split; [eapply lt_le_trans; [exact Hlt | apply lt_le, Hb] |]. split.
        -- intros y [-> | Hy]%elem_of_cons; [apply lt_le, Hlt | apply Hall, Hy].
        -- intros [| j] y Hj Hy; simpl in Hy.
           ++ injection Hy as <-. exact Hlt.
           ++ apply (Hfirst j); [lia | exact Hy].
    + apply beats_le in Hb. destruct (IH m0) as [(Hr & Hall) | (k & Hk & Hlt & Hall & Hfirst)].
      * left. split; [exact Hr |].
        intros y [-> | Hy]%elem_of_cons; [exact Hb | apply Hall, Hy].
      * right. exists (S k). split; [exact Hk |]. split; [exact Hlt |].
        assert (Hx : lt (fold_left (fun m x => if beats x m then x else m) l m0) x)
          by (eapply lt_le_trans; eassumption).
        split.
        -- intros y [-> | Hy]%elem_of_cons; [apply lt_le, Hx | apply Hall, Hy].
        -- intros [| j] y Hj Hy; simpl in Hy.
           ++ injection Hy as <-. exact Hx.
           ++ apply (Hfirst j); [lia | exact Hy].
Qed.

(** The loops that carry the best key along compute the same element. *)
Lemma best_fold_tracked {K} (key : A -> K) (better : K -> K -> bool)
    (l : list A) (m0 : A) :
  (forall x m, beats x m = better (key x) (key m)) ->
  fold_left (fun (best : A * K) x =>
               if better (key x) (snd best) then (x, key x) else best)
            l (m0, key m0)
  = (fold_left (fun m x => if beats x m then x else m) l m0,
     key (fold_left (fun m x => if beats x m then x else m) l m0)).
Proof.
  intros Hb. revert m0. induction l as [| x l IH]; intros m0; [reflexivity |].
  simpl. rewrite <- Hb. destruct (beats x m0); apply IH.
Qed.

End BestOf.

Section Strategies.

Lemma Qltb_true (a b : Q) : Qltb a b = true -> (a < b)%Q.
Proof.
  unfold Qltb. intros H. apply negb_true_iff in H.
  apply Qnot_le_lt. intros Hle. apply Qle_bool_iff in Hle. congruence.
Qed.

Lemma Qltb_false (a b : Q) : Qltb a b = false -> (b <= a)%Q.
Proof.
  unfold Qltb. intros H. apply negb_false_iff in H. apply Qle_bool_iff. exact H.
Qed.

(** Strategies that keep the best server by a rational key, larger or
    smaller. *)
Lemma best_by_key (key : sref * Server -> Q) (better : Q -> Q -> bool)
    (lt le : Q -> Q -> Prop) (servers : list (sref * Server)) (first : sref * Server) :
  (forall a b, better a b = true -> lt a b) ->
  (forall a b, better a b = false -> le b a) ->
  (forall a b, lt a b -> le a b) ->
  (forall a b c, lt a b -> le b c -> lt a c) ->
  (forall a, le a a) ->
  head servers = Some first ->
  exists k sv,
    fst (fold_left (fun (best : (sref * Server) * Q) server =>
                      if better (key server) (snd best) then (server, key server)
                      else best)
                   servers (first, key first)) = sv
    /\ servers !! k = Some sv
    /\ (forall x, x ∈ servers -> le (key sv) (key x))
    /\ forall j x, (j < k)%nat -> servers !! j = Some x -> lt (key sv) (key x).
Proof.
  intros Hb1 Hb2 Hlt_le Htrans Hrefl Hhead.
  rewrite (best_fold_tracked (fun x m => better (key x) (key m)) key better)
    by reflexivity.
  simpl.
  destruct (best_fold (fun x m => lt (key x) (key m)) (fun x m => le (key x) (key m))
              (fun x m => better (key x) (key m))
              (fun x m H => Hb1 (key x) (key m) H)
              (fun x m H => Hb2 (key x) (key m) H)
              (fun a b H => Hlt_le (key a) (key b) H)
              (fun a b c H1 H2 => Htrans (key a) (key b) (key c) H1 H2)
              (fun a => Hrefl (key a))
              servers first)
    as [(Hr & Hall) | (k & Hk & _ & Hall & Hfirst)].
  - exists 0%nat, first. rewrite Hr. split; [reflexivity |].
    split; [destruct servers; [discriminate | exact Hhead] |].
    split; [exact Hall |]. intros j x Hj. lia.
  - eexists k, _. split; [reflexivity |]. split; [exact Hk |].
    split; [exact Hall | exact Hfirst].
Qed.

End Strategies.

(** X1: on a non-empty list [leastLoadSelection] returns a server of the
    list whose load is at most that of every server of the list, and the
    first such one in list order: every server before it has a strictly
    larger load. *)
Theorem leastLoad_first_minimum (servers : list (sref * Server)) :
  servers <> [] ->
  exists k sv,
    leastLoadSelection servers = Some sv
    /\ servers !! k = Some sv
    /\ (forall x, x ∈ servers -> currentLoad (snd sv) <= currentLoad (snd x))
    /\ forall j x, (j < k)%nat -> servers !! j = Some x ->
         currentLoad (snd sv) < currentLoad (snd x).
Proof.
  intros Hne. destruct servers as [| first rest]; [done |]. simpl.
  destruct (best_fold
              (fun x m : sref * Server => currentLoad (snd x) < currentLoad (snd m))
              (fun x m : sref * Server => currentLoad (snd x) <= currentLoad (snd m))
              (fun x m : sref * Server => currentLoad (snd x) <? currentLoad (snd m))
              (fun x m H => proj1 (Z.ltb_lt _ _) H)
              (fun x m H => proj1 (Z.ltb_ge _ _) H)
              (fun a b H => Z.lt_le_incl _ _ H)
              (fun a b c H1 H2 => Z.lt_le_trans _ _ _ H1 H2)
              (fun a => Z.le_refl _)
              rest first)
    as [(Hr & Hall) | (k & Hk & Hlt & Hall & Hfirst)].
  - exists 0%nat, first. rewrite Hr. split; [reflexivity |]. split; [reflexivity |].
    split.
    + intros x [-> | Hx]%elem_of_cons; [lia | apply Hall, Hx].
    + intros j x Hj. lia.
  - eexists (S k), _. split; [reflexivity |]. split; [exact Hk |]. split.
    + intros x [-> | Hx]%elem_of_cons; [lia | apply Hall, Hx].
    + intros [| j] x Hj Hx; simpl in Hx.
      * injection Hx as <-. exact Hlt.
      * apply (Hfirst j); [lia | exact Hx].
Qed.

Lemma leastLoad_first_minimum_witness :
  exists sv, leastLoadSelection
               [(0%nat, demoServer healthy 700 (mkQueues [] [] []));
                (1%nat, demoServer healthy 300 (mkQueues [] [] []));
                (2%nat, demoServer degraded 300 (mkQueues [] [] []))] = Some sv
             /\ fst sv = 1%nat.
Proof.
  destruct (leastLoad_first_minimum
              [(0%nat, demoServer healthy 700 (mkQueues [] [] []));
               (1%nat, demoServer healthy 300 (mkQueues [] [] []));
               (2%nat, demoServer degraded 300 (mkQueues [] [] []))])
    as (k & sv & Hsel & _).
  - discriminate.
  - exists sv. split; [exact Hsel |]. vm_compute in Hsel. injection Hsel as <-.
    reflexivity.
Defined.

(** X2: on a non-empty list [weightedRoundRobinSelection] returns a server
    of the list whose ratio is at least that of every server of the list,
    and the first such one in list order: every server before it has a
    strictly smaller ratio.  The ratio of a server is the double nearest to
    [weight / max(currentLoad, 1)], so two servers whose quotients round to
    the same double tie and the earlier one is kept. *)
Theorem weightedRoundRobin_first_maximum (servers : list (sref * Server)) :
  servers <> [] ->
  (forall sv, weightRatio sv
              = Js.round64 (weight sv / inject_Z (Z.max (currentLoad sv) 1))%Q)
  /\ exists k sv,
       weightedRoundRobinSelection servers = Some sv
       /\ servers !! k = Some sv
       /\ (forall x, x ∈ servers -> (weightRatio (snd x) <= weightRatio (snd sv))%Q)
       /\ forall j x, (j < k)%nat -> servers !! j = Some x ->
            (weightRatio (snd x) < weightRatio (snd sv))%Q.
Proof.
  intros Hne. split; [reflexivity |]. destruct servers as [| first rest]; [done |].
  unfold weightedRoundRobinSelection.
  destruct (best_by_key (fun x => weightRatio (snd x)) (fun a b => Qltb b a)
              (fun a b => (b < a)%Q) (fun a b => (b <= a)%Q) (first :: rest) first)
    as (k & sv & Hsel & Hk & Hall & Hfirst).
  - intros a b. apply Qltb_true.
  - intros a b. apply Qltb_false.
  - intros a b. apply Qlt_le_weak.
  - intros a b c Hab Hbc. eapply Qle_lt_trans; eassumption.
  - intros a. apply Qle_refl.
  - reflexivity.
  - exists k, sv. split; [f_equal; exact Hsel |]. split; [exact Hk |].
    split; [exact Hall | exact Hfirst].
Qed.

Lemma weightedRoundRobin_first_maximum_witness :
  (exists sv, weightedRoundRobinSelection
                [(0%nat, demoServer healthy 700 (mkQueues [] [] []));
                 (1%nat, demoServer healthy 300 (mkQueues [] [] []))] = Some sv
              /\ fst sv = 1%nat)
  /\ (exists sv, weightedRoundRobinSelection tiedServers = Some sv
                 /\ fst sv = 0%nat).
Proof.
  split.
  - destruct (weightedRoundRobin_first_maximum
                [(0%nat, demoServer healthy 700 (mkQueues [] [] []));
                 (1%nat, demoServer healthy 300 (mkQueues [] [] []))])
      as (_ & k & sv & Hsel & _).
    + discriminate.
    + exists sv. split; [exact Hsel |]. vm_compute in Hsel. injection Hsel as <-.
      reflexivity.
  - destruct (weightedRoundRobin_first_maximum tiedServers)
      as (_ & k & sv & Hsel & _).
    + discriminate.
    + exists sv. split; [exact Hsel |]. vm_compute in Hsel. injection Hsel as <-.
      reflexivity.
Defined.

(** X3: on a non-empty list [shortestResponseTimeSelection] returns a
    server of the list whose average response time is at most that of every
    server of the list, and the first such one in list order.  The average
    of a server is 1000 when it has no recorded time, and otherwise the
    double nearest to the mean of its last ten recorded times (of all of
    them when there are fewer than ten). *)
Theorem shortestResponseTime_first_minimum (servers : list (sref * Server)) :
  servers <> [] ->
  (forall sv, responseTimeHistory sv = [] -> getAverageResponseTime sv = 1000%Q)
  /\ (forall sv,
        responseTimeHistory sv <> [] ->
        let h := responseTimeHistory sv in
        getAverageResponseTime sv
        = Js.round64 (inject_Z (Zsum (drop (length h - 10) h))
                      / inject_Z (Z.of_nat (Nat.min 10 (length h))))%Q)
  /\ exists k sv,
       shortestResponseTimeSelection servers = Some sv
       /\ servers !! k = Some sv
       /\ (forall x, x ∈ servers ->
             (getAverageResponseTime (snd sv) <= getAverageResponseTime (snd x))%Q)
       /\ forall j x, (j < k)%nat -> servers !! j = Some x ->
            (getAverageResponseTime (snd sv) < getAverageResponseTime (snd x))%Q.
Proof.
  intros Hne. split.
  { intros sv H. unfold getAverageResponseTime. rewrite H. reflexivity. }
  split.
  { intros sv H h. subst h. unfold getAverageResponseTime, Js.slice_last.
    destruct (Z.eqb_spec (Z.of_nat (length (responseTimeHistory sv))) 0) as [Hz | _].
    { destruct (responseTimeHistory sv); [done | simpl in Hz; lia]. }
    cbv zeta. rewrite length_drop.
    replace (length (responseTimeHistory sv) - (length (responseTimeHistory sv) - 10))%nat
      with (Nat.min 10 (length (responseTimeHistory sv))) by lia.
    reflexivity. }
  destruct servers as [| first rest]; [done |].
  unfold shortestResponseTimeSelection.
  destruct (best_by_key (fun x => getAverageResponseTime (snd x)) Qltb
              Qlt Qle (first :: rest) first)
    as (k & sv & Hsel & Hk & Hall & Hfirst).
  - intros a b. apply Qltb_true.
  - intros a b. apply Qltb_false.
  - intros a b. apply Qlt_le_weak.
  - intros a b c Hab Hbc. eapply Qlt_le_trans; eassumption.
  - intros a. apply Qle_refl.
  - reflexivity.
  - exists k, sv. split; [f_equal; exact Hsel |]. split; [exact Hk |].
    split; [exact Hall | exact Hfirst].
Qed.

Lemma shortestResponseTime_first_minimum_witness :
  exists sv, shortestResponseTimeSelection historyServers = Some sv
             /\ fst sv = 1%nat
             /\ (getAverageResponseTime (snd sv)
                 == 2929978585697485 # 8796093022208)%Q.
Proof.
  destruct (shortestResponseTime_first_minimum historyServers)
    as (_ & Havg & k & sv & Hsel & _).
  - discriminate.
  - exists sv. split; [exact Hsel |]. vm_compute in Hsel. injection Hsel as <-.
    split; [reflexivity |].
    rewrite Havg by discriminate. vm_compute. reflexivity.
Defined.

Section MoreStrategies.

Lemma roulette_member {A} (servers : list A) (weights : list Q) (r : Q) (sv : A) :
  roulette servers weights r = Some sv -> sv ∈ servers.
Proof.
  revert weights r. induction servers as [| x servers IH]; intros weights r H.
  - destruct weights; discriminate.
  - destruct weights as [| w weights]; [discriminate |]. simpl in H.
    destruct (Qle_bool (r - w) 0).
    + injection H as <-. apply elem_of_cons. left. reflexivity.
    + apply elem_of_cons. right. eapply IH. exact H.
Qed.

Lemma last_member {A} (l : list A) : l <> [] -> exists x, last l = Some x /\ x ∈ l.
Proof.
  intros Hne. destruct (last l) as [x |] eqn:E.
  - exists x. split; [reflexivity |]. apply last_Some in E as [l' ->].
    apply elem_of_app. right. apply list_elem_of_singleton. reflexivity.
  - apply last_None in E. contradiction.
Qed.

Lemma toInt32_range (z : Z) : - 2 ^ 31 <= Js.toInt32 z < 2 ^ 31.
Proof.
  unfold Js.toInt32.
  pose proof (Z.mod_pos_bound (z + 2 ^ 31) (2 ^ 32) ltac:(lia)). lia.
Qed.

End MoreStrategies.



(** X5: whatever non-negative value the round-robin cursor holds, also one
    beyond the end of a list that has shrunk since, a selection on a
    non-empty list returns the server at position [cursor mod length] and
    leaves the cursor inside the list, at [(cursor + 1) mod length]. *)
Theorem roundRobin_cursor_in_range {A} (servers : list A) (cursor : Z) :
  servers <> [] ->
  0 <= cursor ->
  let n := Z.of_nat (length servers) in
  exists sv,
    roundRobinSelection servers cursor = (Some sv, (cursor + 1) mod n)
    /\ servers !! Z.to_nat (cursor mod n) = Some sv
    /\ 0 <= (cursor + 1) mod n < n.
Proof.
  intros Hne Hc n.
  assert (Hn : 0 < n) by (subst n; destruct servers; [done | simpl; lia]).
  destruct (index_rem_in_range servers cursor Hc Hne) as (Hidx & sv & Hsv).
  exists sv. unfold roundRobinSelection. fold n.
  destruct (Z.eqb_spec n 0) as [Hz | _]; [lia |].
  fold n in Hidx, Hsv. rewrite Hidx, Hsv.
  unfold Js.rem. rewrite Z.rem_mod_nonneg by lia.
  split; [reflexivity |]. split; [reflexivity |].
  apply Z.mod_pos_bound. exact Hn.
Qed.

Lemma roundRobin_cursor_in_range_witness :
  roundRobinSelection [10; 20] 5 = (Some 20, 0).
Proof.
  destruct (roundRobin_cursor_in_range [10; 20] 5) as (sv & H & Hsv & _).
  - discriminate.
  - lia.
  - vm_compute in Hsv. injection Hsv as <-. exact H.
Defined.

(** X6: [simpleHash] is never negative and never exceeds 2^31 (reached when
    the wrapped hash is -2^31), and it is 0 on the empty string. *)
Theorem simpleHash_bounds (str : string) :
  0 <= simpleHash str <= 2 ^ 31 /\ simpleHash "" = 0.
Proof.
  split; [| reflexivity]. rewrite simpleHash_rolling. unfold rollingHash.
  assert (H : forall l h, - 2 ^ 31 <= h < 2 ^ 31 ->
                - 2 ^ 31 <= fold_left (fun h c => Js.toInt32 (h * 31 + c)) l h < 2 ^ 31).
  { induction l as [| c l IH]; intros h Hh; [exact Hh |].
    simpl. apply IH. apply toInt32_range. }
  specialize (H (Js.charCodes str) 0 ltac:(lia)). lia.
Qed.

(** X7: the response-time history of a server is a window of the last 20
    times: pushing onto a history of at most 20 entries leaves at most 20,
    ending in the new one, namely the old entries followed by the new one
    less the oldest when that makes 21. *)
Theorem pushHistory_window (rt : Z) (history : list Z) :
  (length history <= 20)%nat ->
  (length (pushHistory rt history) <= 20)%nat
  /\ last (pushHistory rt history) = Some rt
  /\ pushHistory rt history = drop (length history + 1 - 20) (history ++ [rt]).
Proof.
  intros Hlen. unfold pushHistory.
  assert (Hl : length (history ++ [rt]) = S (length history))
    by (rewrite length_app; simpl; lia).
  destruct (Z.ltb_spec 20 (Z.of_nat (length (history ++ [rt])))) as [Hgt | Hle].
  - assert (Hlen20 : length history = 20%nat) by lia.
    replace (length history + 1 - 20)%nat with 1%nat by lia.
    destruct history as [| h0 history]; [simpl in Hlen20; lia |].
    simpl. split; [rewrite length_app; simpl in *; lia |].
    split; [| reflexivity]. rewrite last_snoc. reflexivity.
  - replace (length history + 1 - 20)%nat with 0%nat by lia.
    split; [lia |]. split; [apply last_snoc | reflexivity].
Qed.

Lemma pushHistory_window_witness :
  last (pushHistory 7 [1; 2; 3]) = Some 7.
Proof.
  apply (pushHistory_window 7 [1; 2; 3]). simpl. lia.
Defined.

(** ** Aging thresholds, health checks, recovery *)

Section AgingThreshold.

Lemma Qltb_inject (x t : Z) :
  Qltb (inject_Z x) (inject_Z t * (3 # 10))%Q = (10 * x <? 3 * t).
Proof.
  unfold Qltb, Qle_bool. simpl. change (Z.pos (1 * 10)) with 10.
  destruct (Z.leb_spec (t * 3 * 1) (x * 10)); destruct (Z.ltb_spec (10 * x) (3 * t));
    simpl; try reflexivity; lia.
Qed.

End AgingThreshold.

(** X8: an aging step escalates a task by one level exactly when the task
    is [processing] and the time left to its deadline is below 30% of the
    target of its current priority, that is below 3000 for low, 1500 for
    medium and 600 for high (where escalation changes nothing); otherwise it
    leaves the task as it is.  No other field is touched. *)
Theorem ageTask_threshold (t : Z) (task : Task) :
  ageTask t task
  = if bool_decide (status task = processing)
       && (slaDeadline task - t <? agingThreshold (priority task))
    then set_priority (escalate (priority task)) task
    else task.
Proof.
  unfold ageTask. destruct (bool_decide (status task = processing)); [| reflexivity].
  rewrite Qltb_inject. simpl.
  destruct (priority task); simpl;
    match goal with
    | |- (if ?a then _ else _) = (if ?b then _ else _) =>
        replace a with b; [reflexivity |]
    end;
    match goal with
    | |- (?x <? ?y) = (?u <? ?v) =>
        destruct (Z.ltb_spec x y); destruct (Z.ltb_spec u v); try reflexivity; lia
    end.
Qed.

(** X9: a health check of one server changes that server only, and of it
    neither the queues, the in-flight list, the load, the history nor the
    processed count; the task heap is untouched.  A degraded server never
    fails in a health check (it stays degraded or turns healthy), a failed
    one stays failed or starts recovering, a recovering one stays
    recovering. *)
Theorem healthCheck_transitions (i : sref) (s : Sim) (sv : Server) :
  servers s !! i = Some sv ->
  let s' := updateOneServerHealth i s in
  heap s' = heap s
  /\ (forall j, j <> i -> servers s' !! j = servers s !! j)
  /\ exists sv',
       servers s' !! i = Some sv'
       /\ taskQueues sv' = taskQueues sv
       /\ processingTasks sv' = processingTasks sv
       /\ currentLoad sv' = currentLoad sv
       /\ responseTimeHistory sv' = responseTimeHistory sv
       /\ totalProcessed sv' = totalProcessed sv
       /\ healthCheckMay (healthStatus sv) (healthStatus sv').
Proof.
  intros Hsv s'. subst s'. unfold updateOneServerHealth. rewrite Hsv.
  assert (Hlt : (i < length (servers s))%nat) by (eapply lookup_lt_Some; exact Hsv).
  unfold healthCheckMay.
  destruct (healthStatus sv) eqn:Hh; simpl; rewrite ?Hh; simpl;
    repeat (match goal with
            | |- context [if ?b then _ else _] => destruct b eqn:?; simpl
            end; rewrite ?Hh; simpl);
    try (exfalso;
         repeat match goal with
                | H : bool_decide _ = true |- _ => apply bool_decide_eq_true in H
                end;
         congruence);
    (split; [reflexivity |];
     split; [intros j Hj; apply list_lookup_insert_ne; congruence |];
     eexists; split; [apply list_lookup_insert_eq; exact Hlt |];
     simpl; rewrite ?Hh; repeat split; auto).
Qed.

Lemma healthCheck_transitions_witness :
  exists sv',
    servers (updateOneServerHealth 0 starvedScenario) !! 0%nat = Some sv'
    /\ healthCheckMay degraded (healthStatus sv').
Proof.
  destruct (healthCheck_transitions 0 starvedScenario
              (mkServer 1 10000000 100 ((1 # 2) * (1 # 2) + (3 # 4))%Q degraded []
                        (mkQueues [] [] [0%nat]) [0%nat] 0 100%Q 0 None None 0))
    as (_ & _ & sv' & H & _ & _ & _ & _ & _ & Hm).
  - reflexivity.
  - exists sv'. split; [exact H | exact Hm].
Defined.

Section Recovery.

Lemma alter_fixed {X} (g : X -> X) (i : nat) (l : list X) :
  (forall x, l !! i = Some x -> g x = x) -> alter g i l = l.
Proof.
  revert i. induction l as [| y l IH]; intros i H; [reflexivity |].
  destruct i as [| i]; simpl.
  - f_equal. apply H. reflexivity.
  - f_equal. apply IH. intros x Hx. apply H. exact Hx.
Qed.

Lemma recoverAll_lookup (s : Sim) (i : sref) :
  servers (recoverAllServers s) !! i
  = (fun sv => if bool_decide (healthStatus sv = failedH)
                  || bool_decide (healthStatus sv = recovering)
               then set_recoveryTime None
                      (set_failureTime None (set_healthStatus healthy sv))
               else sv) <$> servers s !! i.
Proof.
  unfold recoverAllServers. simpl.
  change (map ?g (servers s)) with (g <$> servers s).
  apply list_lookup_fmap.
Qed.

End Recovery.

(** X10: after [recoverAllServers] every server is healthy or degraded;
    the servers that were healthy or degraded are exactly as before, the
    others keep their queues, in-flight list and load; and a recovery
    timeout that fires afterwards no longer changes any server. *)
Theorem recoverAll_supersedes_timers (s : Sim) :
  Forall available (servers (recoverAllServers s))
  /\ (forall i sv, servers s !! i = Some sv -> available sv ->
        servers (recoverAllServers s) !! i = Some sv)
  /\ (forall i sv, servers s !! i = Some sv ->
        exists sv', servers (recoverAllServers s) !! i = Some sv'
                    /\ taskQueues sv' = taskQueues sv
                    /\ processingTasks sv' = processingTasks sv
                    /\ currentLoad sv' = currentLoad sv)
  /\ forall k, servers (fireRecoveryTimer k (recoverAllServers s))
               = servers (recoverAllServers s).
Proof.
  assert (Hall : Forall available (servers (recoverAllServers s))).
  { apply Forall_lookup. intros i sv' Hi. rewrite recoverAll_lookup in Hi.
    destruct (servers s !! i) as [sv |]; [| discriminate]. simpl in Hi.
    injection Hi as <-. unfold available.
    destruct (healthStatus sv) eqn:Hh; simpl; rewrite ?Hh; auto. }
  split; [exact Hall |]. split; [| split].
  - intros i sv Hi Hav. rewrite recoverAll_lookup, Hi. simpl.
    destruct Hav as [-> | ->]; reflexivity.
  - intros i sv Hi. rewrite recoverAll_lookup, Hi. simpl.
    eexists. split; [reflexivity |].
    destruct (_ || _); repeat split.
  - intros k. unfold fireRecoveryTimer.
    destruct (recoveryTimers (recoverAllServers s) !! k) as [i |]; [| reflexivity].
    simpl. apply alter_fixed. intros sv Hi.
    rewrite Forall_lookup in Hall. specialize (Hall i sv Hi).
    unfold recoveryTimeout. destruct Hall as [-> | ->]; reflexivity.
Qed.

(** ** SLA compliance *)

Section Compliance.

Lemma ratio100_bounds (a b : Z) :
  0 <= a <= b -> 0 < b -> (0 <= ratio100 a b)%Q /\ (ratio100 a b <= 100)%Q.
Proof.
  intros Hab Hb. unfold ratio100.
  destruct b as [| b | b]; try lia.
  unfold Qdiv, Qinv, Qmult, Qle, inject_Z. simpl. split; nia.
Qed.

Lemma countZ_bounds {X} (pred : X -> bool) (l : list X) :
  0 <= countZ pred l <= Z.of_nat (length l).
Proof.
  unfold countZ. pose proof (List.filter_length_le pred l). lia.
Qed.

Lemma deref_length (hp : list Task) (refs : list tref) :
  (length (deref hp refs) <= length refs)%nat.
Proof.
  unfold deref. induction refs as [| r refs IH]; simpl; [lia |].
  change (list_omap sref Task (fun r0 => hp !! r0) refs)
    with (omap (fun r0 : sref => hp !! r0) refs).
  destruct (hp !! r); simpl; lia.
Qed.

End Compliance.

(** X11: the four compliance figures of [calculateSLACompliance] are
    percentages, between 0 and 100, and all four are 100 while no task has
    completed. *)
Theorem slaCompliance_bounds (s : Sim) :
  let c := calculateSLACompliance s in
  ((0 <= c_high c)%Q /\ (c_high c <= 100)%Q)
  /\ ((0 <= c_medium c)%Q /\ (c_medium c <= 100)%Q)
  /\ ((0 <= c_low c)%Q /\ (c_low c <= 100)%Q)
  /\ ((0 <= c_overall c)%Q /\ (c_overall c <= 100)%Q)
  /\ (completedTasks s = [] -> c = mkCompliance 100 100 100 100).
Proof.
  assert (Hper : forall p,
             let l := List.filter (fun t => bool_decide (priority t = p))
                                  (deref (heap s) (completedTasks s)) in
             let v := if 0 <? Z.of_nat (length l)
                      then ratio100
                             (countZ (fun t => numOr0 (responseTime t) <=? slaTarget p) l)
                             (Z.of_nat (length l))
                      else 100%Q in
             (0 <= v)%Q /\ (v <= 100)%Q).
  { intros p l v. subst v. destruct (Z.ltb_spec 0 (Z.of_nat (length l))).
    - apply ratio100_bounds; [apply countZ_bounds | assumption].
    - split; discriminate. }
  simpl. split; [apply Hper |]. split; [apply Hper |]. split; [apply Hper |]. split.
  - destruct (Z.ltb_spec 0 (Z.of_nat (length (completedTasks s)))).
    + apply ratio100_bounds; [| assumption].
      pose proof (countZ_bounds
                    (fun t => numOr0 (responseTime t) <=? slaTarget (priority t))
                    (deref (heap s) (completedTasks s))).
      pose proof (deref_length (heap s) (completedTasks s)). lia.
    + split; discriminate.
  - intros H. unfold calculateSLACompliance. rewrite H. reflexivity.
Qed.

(** ** What never happens to a task *)

Section HeapKeeps.

Variable P : Task -> Task -> Prop.
Hypothesis P_refl : forall t, P t t.
Hypothesis P_trans : forall t1 t2 t3, P t1 t2 -> P t2 t3 -> P t1 t3.
Hypothesis P_fail : forall t, P t (failTask t).
Hypothesis P_age : forall now t, P t (ageTask now t).
Hypothesis P_advance : forall now t, 0 < remainingTime t -> P t (advanceTask now t).

Let R (s s' : Sim) : Prop := heapRel P (heap s) (heap s').

Lemma heapRel_refl (h : list Task) : heapRel P h h.
Proof using P_refl. intros r t Hr. exists t. split; [exact Hr | apply P_refl]. Qed.

Lemma heapRel_trans (h1 h2 h3 : list Task) :
  heapRel P h1 h2 -> heapRel P h2 h3 -> heapRel P h1 h3.
Proof using P_trans.
  intros H12 H23 r t Hr.
  destruct (H12 r t Hr) as (t2 & Hr2 & P2).
  destruct (H23 r t2 Hr2) as (t3 & Hr3 & P3).
  exists t3. split; [exact Hr3 | eapply P_trans; eassumption].
Qed.

Lemma R_refl (s : Sim) : R s s.
Proof using P_refl. apply heapRel_refl. Qed.

Lemma R_trans (s1 s2 s3 : Sim) : R s1 s2 -> R s2 s3 -> R s1 s3.
Proof using P_trans. apply heapRel_trans. Qed.

Lemma R_same (s s' : Sim) : heap s' = heap s -> R s s'.
Proof using P_refl. intros H. unfold R. rewrite H. apply heapRel_refl. Qed.

Lemma heapRel_alter (g : Task -> Task) (r : tref) (h : list Task) :
  (forall t, h !! r = Some t -> P t (g t)) -> heapRel P h (alter g r h).
Proof using P_refl.
  intros Hg x t Hx. destruct (decide (r = x)) as [-> | Hne].
  - exists (g t). rewrite list_lookup_alter_eq, Hx. split; [reflexivity | apply Hg, Hx].
  - exists t. rewrite list_lookup_alter_ne by exact Hne. split; [exact Hx | apply P_refl].
Qed.

Lemma heapRel_insert (r : tref) (t0 t1 : Task) (h : list Task) :
  h !! r = Some t0 -> P t0 t1 -> heapRel P h (<[r := t1]> h).
Proof using P_refl.
  intros Hr HP x t Hx. destruct (decide (r = x)) as [-> | Hne].
  - exists t1. rewrite list_lookup_insert_eq by (eapply lookup_lt_Some; exact Hr).
    split; [reflexivity |]. congruence.
  - exists t. rewrite list_lookup_insert_ne by exact Hne. split; [exact Hx | apply P_refl].
Qed.

Lemma processTask_rel (now : Z) (r : tref) (st : Pass) :
  heapRel P (p_heap st) (p_heap (snd (processTask now r st))).
Proof using P_refl P_advance.
  destruct (Z.le_gt_cases 3 (processedThisStep st)) as [Hge | Hlt].
  { rewrite processTask_skip by (left; exact Hge). apply heapRel_refl. }
  destruct (eligible (p_heap st) r) eqn:Hel.
  2:{ rewrite processTask_skip by (right; exact Hel). apply heapRel_refl. }
  unfold eligible in Hel. destruct (p_heap st !! r) as [task |] eqn:Hr; [| discriminate].
  apply Z.ltb_lt in Hel.
  destruct (processTask_work now r st task Hlt Hr Hel) as (Hh & _).
  rewrite Hh. eapply heapRel_insert; [exact Hr | apply P_advance, Hel].
Qed.

Lemma filterQueue_rel (now : Z) (q : list tref) (st : Pass) :
  heapRel P (p_heap st) (p_heap (snd (filterQueue now q st))).
Proof using P_refl P_trans P_advance.
  revert st. induction q as [| r q IH]; intros st; [apply heapRel_refl |].
  simpl. pose proof (processTask_rel now r st) as H1.
  destruct (processTask now r st) as [keep st1]. simpl in H1.
  specialize (IH st1). destruct (filterQueue now q st1) as [kept st2]. simpl in *.
  eapply heapRel_trans; eassumption.
Qed.

Lemma processPriority_rel (now : Z) (p : Priority) (st : Pass) :
  heapRel P (p_heap st) (p_heap (processPriority now p st)).
Proof using P_refl P_trans P_advance.
  unfold processPriority.
  destruct (maxProcessingPerStep <=? processedThisStep st); [apply heapRel_refl |].
  pose proof (filterQueue_rel now (queueOf p (taskQueues (p_server st))) st) as H.
  destruct (filterQueue now _ st) as [kept st1]. exact H.
Qed.

Lemma processServerTasks_rel (i : sref) (s : Sim) : R s (processServerTasks i s).
Proof using P_refl P_trans P_advance P_fail.
  unfold R, processServerTasks.
  destruct (servers s !! i) as [server |]; [| apply heapRel_refl].
  destruct (bool_decide (healthStatus server = failedH)).
  - simpl. change (heapRel P (heap s) (heap (failLoop (allQueued server) s))).
    unfold failLoop. apply (rel_fold R R_refl R_trans). intros s0 r.
    unfold R. simpl. apply heapRel_alter. intros t _. apply P_fail.
  - simpl. unfold schedulingPass. simpl.
    eapply heapRel_trans; [| apply processPriority_rel].
    eapply heapRel_trans; [| apply processPriority_rel].
    apply (processPriority_rel (simulationTime s) high
             (mkPass (heap s) server (completedTasks s) 0)).
Qed.

Lemma ageTasks_rel (s : Sim) : R s (ageTasks s).
Proof using P_refl P_trans P_age.
  unfold ageTasks. apply (rel_fold R R_refl R_trans). intros s0 r.
  unfold R. simpl. apply heapRel_alter. intros t _. apply P_age.
Qed.

(** [assignTask] writes to the task it is given and to no other. *)
Lemma assignTask_others (n : tref) (s : Sim) (r : tref) :
  r <> n -> heap (assignTask n s) !! r = heap s !! r.
Proof.
  intros Hne. unfold assignTask.
  destruct (heap s !! n) as [task |]; [| reflexivity].
  assert (Hfail : forall s1, heap s1 = heap s ->
                             heap (failAssignment n s1) !! r = heap s !! r).
  { intros s1 H1. unfold failAssignment. simpl. rewrite H1.
    apply list_lookup_alter_ne. congruence. }
  destruct (Z.of_nat (length (healthyServersOf (servers s))) =? 0);
    [apply Hfail; reflexivity |].
  pose proof (selectServerByAlgorithm_same (healthyServersOf (servers s)) task s)
    as (_ & Hh & _).
  destruct (selectServerByAlgorithm _ task s) as [sel s1]. simpl in Hh.
  destruct sel as [[i sv] |]; [| apply Hfail; exact Hh].
  simpl. rewrite Hh. apply list_lookup_alter_ne. congruence.
Qed.

(** A new task leaves the tasks that exist as they are. *)
Lemma generateTask_old (s : Sim) (r : tref) (t : Task) :
  heap s !! r = Some t -> heap (generateTask s) !! r = Some t.
Proof.
  intros Hr. unfold generateTask, random. simpl.
  rewrite assignTask_others.
  - simpl. apply lookup_app_l_Some. exact Hr.
  - simpl. apply lookup_lt_Some in Hr. lia.
Qed.

Lemma generateTask_rel (s : Sim) : R s (generateTask s).
Proof using P_refl.
  intros r t Hr. exists t. split; [apply generateTask_old, Hr | apply P_refl].
Qed.

Lemma updateServerHealth_heap (s : Sim) : heap (updateServerHealth s) = heap s.
Proof.
  unfold updateServerHealth. generalize (seq 0 (length (servers s))) as l.
  intros l. revert s. induction l as [| i l IH]; intros s; [reflexivity |].
  simpl. rewrite IH. unfold updateOneServerHealth.
  destruct (servers s !! i) as [server |]; [| reflexivity]. simpl.
  repeat (match goal with
          | |- context [if ?b then _ else _] => destruct b; simpl
          end); reflexivity.
Qed.

Lemma createServers_heap (s : Sim) : heap (createServers s) = heap s.
Proof. destruct (createServers_spec s) as ((_ & H & _) & _). exact H. Qed.

Local Ltac rel_chain :=
  repeat match goal with
  | |- EffRel _ (_ ≫= _) => apply EffRel_bind; [exact R_trans | | intros ?]
  | |- EffRel _ (when _ _) => apply EffRel_when; [exact R_refl |]
  | |- EffRel _ (gets _) => apply EffRel_gets; exact R_refl
  | |- EffRel _ (mret _) => apply EffRel_ret; exact R_refl
  | |- EffRel _ (throw _) => apply EffRel_throw; exact R_refl
  | |- EffRel _ (pushSeries _ _) =>
      intros ?; apply R_same, pushSeries_heap
  | |- EffRel _ (pushMember _ _ _) =>
      intros ?; apply R_same, pushMember_heap
  | |- EffRel _ (lift _) => apply EffRel_lift; intros ?
  end.

Lemma resetSimulation_relP : EffRel R resetSimulation.
Proof using P_refl P_trans.
  unfold resetSimulation. rel_chain;
    first [apply R_same, createServers_heap | apply R_same; reflexivity].
Qed.

Lemma calculateAdvancedMetrics_relP : EffRel R calculateAdvancedMetrics.
Proof using P_refl P_trans. unfold calculateAdvancedMetrics. rel_chain. Qed.

Lemma calculateMetrics_relP : EffRel R calculateMetrics.
Proof using P_refl P_trans.
  unfold calculateMetrics. rel_chain. destruct (taskProgress a); rel_chain.
Qed.

Lemma processSimulationStep_relP : EffRel R processSimulationStep.
Proof using P_refl P_trans P_fail P_age P_advance.
  unfold processSimulationStep.
  repeat match goal with
  | |- EffRel _ (_ ≫= _) => apply EffRel_bind; [exact R_trans | | intros ?]
  | |- EffRel _ (when _ _) => apply EffRel_when; [exact R_refl |]
  | |- EffRel _ (gets _) => apply EffRel_gets; exact R_refl
  | |- EffRel _ (lift _) => apply EffRel_lift; intros ?
  end.
  - apply R_same; reflexivity.
  - apply R_same, updateServerHealth_heap.
  - apply (rel_fold R R_refl R_trans). intros s0 i. apply processServerTasks_rel.
  - apply ageTasks_rel.
  - apply calculateAdvancedMetrics_relP.
  - apply R_same; reflexivity.
  - apply calculateMetrics_relP.
  - apply R_same; reflexivity.
Qed.

Lemma perform_relP (o : Op) : EffRel R (perform o).
Proof using P_refl P_trans P_fail P_age P_advance.
  destruct o; simpl.
  - apply resetSimulation_relP.
  - unfold startSimulation. rel_chain;
      first [apply resetSimulation_relP | apply R_same; reflexivity].
  - rel_chain. apply R_same; reflexivity.
  - rel_chain. apply R_same; reflexivity.
  - apply processSimulationStep_relP.
  - rel_chain. apply generateTask_rel.
  - unfold stepSimulation. rel_chain.
    destruct (simulationState a); rel_chain;
      first [apply processSimulationStep_relP | apply generateTask_rel].
  - rel_chain. apply R_same.
    unfold simulateRandomFailure.
    destruct (0 <? _); [| reflexivity]. simpl.
    destruct (Js.index _ _) as [[i sv] |]; reflexivity.
  - rel_chain. apply R_same; reflexivity.
  - rel_chain. apply R_same. unfold fireRecoveryTimer.
    destruct (recoveryTimers _ !! k); reflexivity.
  - rel_chain. apply R_same; reflexivity.
  - rel_chain. apply R_same; reflexivity.
Qed.

Lemma run_relP (ops : list Op) (s : Sim) : heapRel P (heap s) (heap (run ops s)).
Proof using P_refl P_trans P_fail P_age P_advance.
  unfold run. apply (rel_fold R R_refl R_trans). intros s0 o. apply perform_relP.
Qed.

End HeapKeeps.

Section TaskKeeps.

Lemma taskKeeps_refl (t : Task) : taskKeeps t t.
Proof. unfold taskKeeps. repeat split; auto; lia. Qed.

Lemma taskKeeps_trans (t1 t2 t3 : Task) :
  taskKeeps t1 t2 -> taskKeeps t2 t3 -> taskKeeps t1 t3.
Proof.
  unfold taskKeeps. intros (A1 & A2 & A3 & A4 & A5 & A6 & A7 & A8)
                           (B1 & B2 & B3 & B4 & B5 & B6 & B7 & B8).
  repeat split; try congruence; try lia; auto.
Qed.

Lemma taskKeeps_fail (t : Task) : taskKeeps t (failTask t).
Proof. unfold taskKeeps, failTask. simpl. repeat split; auto; lia. Qed.

Lemma taskKeeps_age (now : Z) (t : Task) : taskKeeps t (ageTask now t).
Proof.
  unfold ageTask. destruct (bool_decide _); [| apply taskKeeps_refl].
  destruct (Qltb _ _); [| apply taskKeeps_refl].
  unfold taskKeeps. simpl. repeat split; auto; lia.
Qed.

Lemma taskKeeps_advance (now : Z) (t : Task) :
  0 < remainingTime t -> taskKeeps t (advanceTask now t).
Proof.
  intros Hpos. unfold advanceTask. simpl.
  destruct (_ <=? 0); unfold taskKeeps; simpl; repeat split; auto; lia.
Qed.

End TaskKeeps.

(** X12: whatever the page and the timers ask of the simulator, a task that
    exists keeps its id, arrival time, processing time, SLA deadline and
    assigned server; its remaining time never grows and never becomes
    negative if it was not; and a task marked failed is never unmarked. *)
Theorem task_fields_kept (ops : list Op) (s : Sim) (r : tref) (t : Task) :
  heap s !! r = Some t ->
  exists t', heap (run ops s) !! r = Some t' /\ taskKeeps t t'.
Proof.
  intros Hr.
  exact (run_relP taskKeeps taskKeeps_refl taskKeeps_trans taskKeeps_fail
           taskKeeps_age taskKeeps_advance ops s r t Hr).
Qed.

Lemma task_fields_kept_witness :
  exists t', heap (run starvingRun starvedScenario) !! 0%nat = Some t'
             /\ taskKeeps agedTask t'.
Proof. apply (task_fields_kept starvingRun starvedScenario 0 agedTask). reflexivity. Defined.

(** ** Task arrival *)

Section Arrival.

Lemma fold_pick {A} (c : A -> A -> bool) (l : list A) (m0 : A) :
  fold_left (fun m x => if c x m then x else m) l m0 ∈ m0 :: l.
Proof.
  revert m0. induction l as [| x l IH]; intros m0; simpl.
  - apply elem_of_cons. left. reflexivity.
  - destruct (c x m0).
    + specialize (IH x). apply elem_of_cons in IH as [IH | IH].
      * rewrite IH. apply elem_of_cons. right. apply elem_of_cons. left. reflexivity.
      * do 2 (apply elem_of_cons; right). exact IH.
    + specialize (IH m0). apply elem_of_cons in IH as [IH | IH].
      * rewrite IH. apply elem_of_cons. left. reflexivity.
      * do 2 (apply elem_of_cons; right). exact IH.
Qed.

Lemma simpleHash_nonneg (str : string) : 0 <= simpleHash str.
Proof. rewrite simpleHash_rolling. apply Z.abs_nonneg. Qed.

(** Every strategy returns one of the servers it was given. *)
Lemma selectServerByAlgorithm_member hs (task : Task) (s : Sim) :
  hs <> [] ->
  (algorithm (config s) = roundRobin -> 0 <= roundRobinCounter s) ->
  exists x, fst (selectServerByAlgorithm hs task s) = Some x /\ x ∈ hs.
Proof.
  intros Hne Hrr. unfold selectServerByAlgorithm.
  assert (Hlen : Z.of_nat (length hs) <> 0) by (destruct hs; [done | simpl; lia]).
  destruct (algorithm (config s)) eqn:Halg.
  - specialize (Hrr eq_refl).
    destruct (index_rem_in_range hs (roundRobinCounter s) Hrr Hne) as (Hidx & x & Hx).
    unfold roundRobinSelection.
    destruct (Z.eqb_spec (Z.of_nat (length hs)) 0) as [Hz | _]; [contradiction |].
    simpl. exists x. rewrite Hidx, Hx.
    split; [reflexivity | eapply list_elem_of_lookup_2; exact Hx].
  - destruct hs as [| first rest]; [done |]. simpl. eexists. split; [reflexivity |].
    apply (fold_pick (fun x m : sref * Server =>
                        currentLoad (snd x) <? currentLoad (snd m))).
  - destruct hs as [| first rest]; [done |]. unfold weightedRoundRobinSelection.
    destruct (best_by_key (fun x => weightRatio (snd x)) (fun a b => Qltb b a)
                (fun a b => (b < a)%Q) (fun a b => (b <= a)%Q) (first :: rest) first)
      as (k & sv & Hsel & Hk & _).
    + intros a b. apply Qltb_true.
    + intros a b. apply Qltb_false.
    + intros a b. apply Qlt_le_weak.
    + intros a b c Hab Hbc. eapply Qle_lt_trans; eassumption.
    + intros a. apply Qle_refl.
    + reflexivity.
    + exists sv. split; [simpl; f_equal; exact Hsel |].
      eapply list_elem_of_lookup_2; exact Hk.
  - destruct hs as [| first rest]; [done |]. unfold shortestResponseTimeSelection.
    destruct (best_by_key (fun x => getAverageResponseTime (snd x)) Qltb
                Qlt Qle (first :: rest) first)
      as (k & sv & Hsel & Hk & _).
    + intros a b. apply Qltb_true.
    + intros a b. apply Qltb_false.
    + intros a b. apply Qlt_le_weak.
    + intros a b c Hab Hbc. eapply Qlt_le_trans; eassumption.
    + intros a. apply Qle_refl.
    + reflexivity.
    + exists sv. split; [simpl; f_equal; exact Hsel |].
      eapply list_elem_of_lookup_2; exact Hk.
  - unfold randomizedSelection. destruct (random s) as [r s1]. simpl.
    destruct (roulette hs _ _) as [sv |] eqn:E.
    + exists sv. split; [reflexivity |]. eapply roulette_member. exact E.
    + destruct (last_member hs Hne) as (sv & Hl & Hin).
      exists sv. simpl. rewrite Hl. split; [reflexivity | exact Hin].
  - simpl. unfold consistentHashingSelection.
    destruct (Z.eqb_spec (Z.of_nat (length hs)) 0) as [Hz | _]; [contradiction |].
    destruct (index_rem_in_range hs (simpleHash (Js.toString (id task)))
                (simpleHash_nonneg _) Hne) as (Hidx & x & Hx).
    exists x. rewrite Hidx, Hx.
    split; [reflexivity | eapply list_elem_of_lookup_2; exact Hx].
  - destruct hs as [| first rest]; [done |]. exists first.
    split; [reflexivity |]. apply elem_of_cons. left. reflexivity.
Qed.

(** What a strategy leaves alone besides the servers and the tasks. *)
Lemma selectServerByAlgorithm_frame hs (task : Task) (s : Sim) :
  let s1 := snd (selectServerByAlgorithm hs task s) in
  failedTasks s1 = failedTasks s /\ completedTasks s1 = completedTasks s
  /\ currentTaskId s1 = currentTaskId s /\ simulationTime s1 = simulationTime s
  /\ config s1 = config s /\ simulationState s1 = simulationState s
  /\ metrics s1 = metrics s.
Proof.
  unfold selectServerByAlgorithm.
  destruct (algorithm (config s)); simpl; try (repeat split; reflexivity).
  - destruct (roundRobinSelection hs (roundRobinCounter s)). repeat split.
  - unfold randomizedSelection. simpl. destruct (roulette hs _ _); repeat split.
Qed.

Lemma healthyServersOf_intro (store : list Server) (i : sref) (sv : Server) :
  store !! i = Some sv -> isAvailable sv = true -> (i, sv) ∈ healthyServersOf store.
Proof.
  intros Hi Hav. unfold healthyServersOf.
  apply list_elem_of_In, filter_In. split; [| exact Hav].
  apply list_elem_of_In, elem_of_lookup_imap. exists i, sv. split; [reflexivity | exact Hi].
Qed.

Lemma isAvailable_spec (sv : Server) : isAvailable sv = true <-> available sv.
Proof.
  unfold isAvailable, available. rewrite orb_true_iff, !bool_decide_eq_true.
  reflexivity.
Qed.

Lemma healthyServersOf_none (store : list Server) :
  Forall (fun sv => ~ available sv) store -> healthyServersOf store = [].
Proof.
  intros Hall. destruct (healthyServersOf store) as [| [i sv] l] eqn:E; [reflexivity |].
  assert (Hin : (i, sv) ∈ healthyServersOf store)
    by (rewrite E; apply elem_of_cons; left; reflexivity).
  pose proof (healthyServersOf_elem _ _ _ Hin) as Hi.
  unfold healthyServersOf in Hin.
  apply list_elem_of_In, filter_In in Hin as [_ Hav]. simpl in Hav.
  apply isAvailable_spec in Hav.
  rewrite Forall_lookup in Hall. exfalso. exact (Hall i sv Hi Hav).
Qed.

End Arrival.

(** X13: when no server is healthy or degraded (in particular when there
    is no server), [assignTask] marks the task failed, appends it to
    [failedTasks], and changes no server, no other task and no cursor. *)
Theorem assignTask_without_server (r : tref) (s : Sim) (task : Task) :
  heap s !! r = Some task ->
  Forall (fun sv => ~ available sv) (servers s) ->
  heap (assignTask r s) = <[r := set_status failed (set_tfailed true task)]> (heap s)
  /\ failedTasks (assignTask r s) = failedTasks s ++ [r]
  /\ servers (assignTask r s) = servers s
  /\ roundRobinCounter (assignTask r s) = roundRobinCounter s
  /\ host (assignTask r s) = host s.
Proof.
  intros Hr Hall. unfold assignTask. rewrite Hr.
  rewrite (healthyServersOf_none _ Hall). simpl.
  split; [| repeat split].
  apply list_eq. intros j. destruct (decide (r = j)) as [<- | Hne].
  - rewrite list_lookup_alter_eq, Hr.
    rewrite list_lookup_insert_eq by (eapply lookup_lt_Some; exact Hr). reflexivity.
  - rewrite list_lookup_alter_ne, list_lookup_insert_ne by exact Hne. reflexivity.
Qed.

Lemma assignTask_without_server_witness :
  failedTasks (assignTask 1%nat failedScenario) = [1%nat].
Proof.
  destruct (assignTask_without_server 1%nat failedScenario (queuedTask 2 low 0 1000))
    as (_ & H & _).
  - reflexivity.
  - repeat constructor. intros [H | H]; discriminate H.
  - exact H.
Defined.

(** The successful exit of [assignTask]. *)
Lemma assignTask_selects (r : tref) (s : Sim) (task : Task) :
  heap s !! r = Some task ->
  (exists i sv, servers s !! i = Some sv /\ available sv) ->
  (algorithm (config s) = roundRobin -> 0 <= roundRobinCounter s) ->
  exists i sv sv',
    servers s !! i = Some sv /\ available sv
    /\ heap (assignTask r s) !! r
       = Some (set_status processing (set_assignedServer (Some (sid sv)) task))
    /\ servers (assignTask r s) !! i = Some sv'
    /\ queueOf (priority task) (taskQueues sv')
       = queueOf (priority task) (taskQueues sv) ++ [r]
    /\ processingTasks sv' = processingTasks sv ++ [r]
    /\ currentLoad sv' = currentLoad sv + processingTime task
    /\ (forall j, j <> i -> servers (assignTask r s) !! j = servers s !! j)
    /\ failedTasks (assignTask r s) = failedTasks s.
Proof.
  intros Hr (i0 & sv0 & Hi0 & Hav0) Hrr. unfold assignTask. rewrite Hr.
  assert (Hne : healthyServersOf (servers s) <> []).
  { intros E. apply isAvailable_spec in Hav0.
    pose proof (healthyServersOf_intro _ _ _ Hi0 Hav0) as Hin.
    rewrite E in Hin. apply elem_of_nil in Hin. exact Hin. }
  destruct (Z.eqb_spec (Z.of_nat (length (healthyServersOf (servers s)))) 0)
    as [Hz | _].
  { destruct (healthyServersOf (servers s)); [done | simpl in Hz; lia]. }
  destruct (selectServerByAlgorithm_member _ task s Hne Hrr) as ([i sv] & Hsel & Hin).
  pose proof (selectServerByAlgorithm_same (healthyServersOf (servers s)) task s)
    as (Hsv & Hhp & _).
  pose proof (selectServerByAlgorithm_frame (healthyServersOf (servers s)) task s)
    as (Hft & _).
  destruct (selectServerByAlgorithm _ task s) as [sel s1].
  simpl in Hsel, Hsv, Hhp, Hft. subst sel.
  pose proof (healthyServersOf_elem _ _ _ Hin) as Hi.
  assert (Hav : available sv).
  { unfold healthyServersOf in Hin.
    apply list_elem_of_In, filter_In in Hin as [_ Hav]. apply isAvailable_spec, Hav. }
  exists i, sv, (enqueue r task sv). simpl. rewrite Hsv, Hhp, Hft.
  split; [exact Hi |]. split; [exact Hav |].
  split; [rewrite list_lookup_alter_eq, Hr; reflexivity |].
  split; [rewrite list_lookup_alter_eq, Hi; reflexivity |].
  split; [destruct (priority task); reflexivity |].
  split; [reflexivity |]. split; [reflexivity |].
  split; [| reflexivity].
  intros j Hj. apply list_lookup_alter_ne. congruence.
Qed.

(** X14: when some server is healthy or degraded (and, under round robin,
    the cursor is not negative) [assignTask] never fails the task: it picks
    one of those servers, stamps the task with that server's id and status
    'processing', appends the task to the server's queue of the task's
    priority and to its [processingTasks], adds the task's processing time
    to the server's load whatever its capacity, and leaves every other
    server and [failedTasks] as they were. *)
Theorem assignTask_with_server (r : tref) (s : Sim) (task : Task) :
  heap s !! r = Some task ->
  (exists i sv, servers s !! i = Some sv /\ available sv) ->
  (algorithm (config s) = roundRobin -> 0 <= roundRobinCounter s) ->
  exists i sv sv',
    servers s !! i = Some sv /\ available sv
    /\ heap (assignTask r s) !! r
       = Some (set_status processing (set_assignedServer (Some (sid sv)) task))
    /\ servers (assignTask r s) !! i = Some sv'
    /\ queueOf (priority task) (taskQueues sv')
       = queueOf (priority task) (taskQueues sv) ++ [r]
    /\ processingTasks sv' = processingTasks sv ++ [r]
    /\ currentLoad sv' = currentLoad sv + processingTime task
    /\ (forall j, j <> i -> servers (assignTask r s) !! j = servers s !! j)
    /\ failedTasks (assignTask r s) = failedTasks s.
Proof. apply assignTask_selects. Qed.

Lemma assignTask_with_server_witness :
  exists t, heap (assignTask 0%nat busyScenario) !! 0%nat = Some t
            /\ status t = processing.
Proof.
  destruct (assignTask_with_server 0%nat busyScenario (queuedTask 1 high 0 500))
    as (i & sv & sv' & _ & _ & H & _).
  - reflexivity.
  - exists 0%nat, (demoServer healthy 7700 (mkQueues [0%nat; 1%nat] [2%nat; 3%nat] [4%nat])).
    split; [reflexivity | left; reflexivity].
  - intros _. vm_compute. discriminate.
  - eexists. split; [exact H | reflexivity].
Defined.

Section NewTask.

(** What [assignTask] does to the task it is given, and what it leaves
    alone. *)
Lemma assignTask_task (r : tref) (s : Sim) (task : Task) :
  heap s !! r = Some task ->
  (exists t', heap (assignTask r s) !! r = Some t'
              /\ (t' = failTask task
                  \/ exists n, t' = set_status processing
                                      (set_assignedServer (Some n) task)))
  /\ tasks (assignTask r s) = tasks s
  /\ currentTaskId (assignTask r s) = currentTaskId s
  /\ simulationTime (assignTask r s) = simulationTime s
  /\ config (assignTask r s) = config s
  /\ simulationState (assignTask r s) = simulationState s
  /\ metrics (assignTask r s) = metrics s.
Proof.
  intros Hr. unfold assignTask. rewrite Hr.
  assert (Hfail : forall s1,
             heap s1 = heap s -> tasks s1 = tasks s ->
             currentTaskId s1 = currentTaskId s -> simulationTime s1 = simulationTime s ->
             config s1 = config s -> simulationState s1 = simulationState s ->
             metrics s1 = metrics s ->
             (exists t', heap (failAssignment r s1) !! r = Some t'
                         /\ (t' = failTask task
                             \/ exists n, t' = set_status processing
                                                 (set_assignedServer (Some n) task)))
             /\ tasks (failAssignment r s1) = tasks s
             /\ currentTaskId (failAssignment r s1) = currentTaskId s
             /\ simulationTime (failAssignment r s1) = simulationTime s
             /\ config (failAssignment r s1) = config s
             /\ simulationState (failAssignment r s1) = simulationState s
             /\ metrics (failAssignment r s1) = metrics s).
  { intros s1 H1 H2 H3 H4 H5 H6 H7. unfold failAssignment. simpl.
    split; [| repeat split; assumption].
    exists (failTask task). rewrite H1, list_lookup_alter_eq, Hr.
    split; [reflexivity | left; reflexivity]. }
  destruct (Z.of_nat (length (healthyServersOf (servers s))) =? 0);
    [apply Hfail; reflexivity |].
  pose proof (selectServerByAlgorithm_same (healthyServersOf (servers s)) task s)
    as (_ & Hhp & Hts).
  pose proof (selectServerByAlgorithm_frame (healthyServersOf (servers s)) task s)
    as (_ & _ & Hid & Htm & Hcf & Hst & Hm).
  destruct (selectServerByAlgorithm _ task s) as [sel s1].
  simpl in Hhp, Hts, Hid, Htm, Hcf, Hst, Hm.
  destruct sel as [[i sv] |]; [| apply Hfail; assumption].
  simpl. split; [| repeat split; assumption].
  eexists. rewrite Hhp, list_lookup_alter_eq, Hr.
  split; [reflexivity | right; eexists; reflexivity].
Qed.

(** The processing time drawn for a new task. *)
Lemma floor_draw (r : Q) (lo hi : Z) :
  (0 <= r)%Q -> (r < 1)%Q -> lo <= hi ->
  lo <= Js.floor (r * inject_Z (hi - lo + 1))%Q + lo <= hi.
Proof.
  intros H0 H1 Hlh. unfold Js.floor.
  set (n := hi - lo + 1). assert (Hn : 0 < n) by (subst n; lia).
  assert (Hnq : (0 < inject_Z n)%Q) by (unfold Qlt; simpl; lia).
  assert (Hlow : 0 <= Qfloor (r * inject_Z n)).
  { change 0 with (Qfloor 0). apply Qfloor_resp_le.
    apply Qmult_le_0_compat; [exact H0 | apply Qlt_le_weak, Hnq]. }
  assert (Hup : Qfloor (r * inject_Z n) < n).
  { rewrite Zlt_Qlt. eapply Qle_lt_trans; [apply Qfloor_le |].
    eapply Qlt_le_trans; [apply Qmult_lt_compat_r; [exact Hnq | exact H1] |].
    rewrite Qmult_1_l. apply Qle_refl. }
  subst n. lia.
Qed.

End NewTask.

(** X15: [generateTask] appends one new task and touches no existing one.
    The new task gets the next id (and the counter moves on by one), the
    current time as arrival time, a processing time between the configured
    minimum and maximum (when the minimum does not exceed the maximum, the
    draw being in [0,1)), that much remaining time, and the deadline of its
    priority class; it leaves [generateTask] assigned ('processing') or
    failed, never pending. *)
Theorem generateTask_creates (s : Sim) :
  (0 <= Math_random (host s) (randomCalls (host s)))%Q ->
  (Math_random (host s) (randomCalls (host s)) < 1)%Q ->
  taskProcessingTimeMin (config s) <= taskProcessingTimeMax (config s) ->
  exists t,
    heap (generateTask s) !! length (heap s) = Some t
    /\ tasks (generateTask s) = tasks s ++ [length (heap s)]
    /\ currentTaskId (generateTask s) = currentTaskId s + 1
    /\ id t = currentTaskId s
    /\ arrivalTime t = simulationTime s
    /\ taskProcessingTimeMin (config s) <= processingTime t
       <= taskProcessingTimeMax (config s)
    /\ remainingTime t = processingTime t
    /\ slaDeadline t = simulationTime s + slaTarget (priority t)
    /\ completionTime t = None
    /\ (status t = processing \/ status t = failed)
    /\ forall r t0, heap s !! r = Some t0 -> heap (generateTask s) !! r = Some t0.
Proof.
  intros H0 H1 Hlh.
  pose proof (floor_draw _ _ _ H0 H1 Hlh) as Hpt.
  set (pt := Js.floor _ + _) in Hpt.
  set (r2 := Math_random (host s) (S (randomCalls (host s)))).
  set (prio := if Qltb (r2 * 100) (inject_Z (dhigh (priorityDistribution (config s))))
               then high
               else if Qltb (r2 * 100)
                            (inject_Z (dhigh (priorityDistribution (config s))
                                       + dmedium (priorityDistribution (config s))))
                    then medium else low).
  set (task := mkTask (currentTaskId s) prio (simulationTime s) pt pt
                      (simulationTime s + slaTarget prio) None None None pending false).
  set (s3 := set_tasks (tasks s ++ [length (heap s)])
               (set_heap (heap s ++ [task])
                  (set_currentTaskId (currentTaskId s + 1)
                     (snd (random (snd (random s))))))).
  assert (E : generateTask s = assignTask (length (heap s)) s3) by reflexivity.
  assert (Hr : heap s3 !! length (heap s) = Some task).
  { subst s3. simpl. apply list_lookup_middle. reflexivity. }
  destruct (assignTask_task _ _ _ Hr) as ((t & Ht & Hshape) & Hts & Hid & _).
  exists t. rewrite E.
  split; [exact Ht |]. split; [exact Hts |]. split; [exact Hid |].
  assert (Hold : forall r t0, heap s !! r = Some t0 ->
                              heap (assignTask (length (heap s)) s3) !! r = Some t0).
  { intros r t0 Hr0. rewrite <- E. apply generateTask_old. exact Hr0. }
  destruct Hshape as [-> | (n & ->)]; simpl;
    (repeat split; try reflexivity; try exact Hold; try apply Hpt; auto).
Qed.

Lemma generateTask_creates_witness :
  exists t, heap (generateTask busyScenario) !! 5%nat = Some t
            /\ id t = 6 /\ 500 <= processingTime t <= 3000.
Proof.
  destruct (generateTask_creates busyScenario)
    as (t & Ht & _ & _ & Hid & _ & Hpt & _).
  - vm_compute. discriminate.
  - reflexivity.
  - vm_compute. discriminate.
  - exists t. split; [exact Ht |]. split; [exact Hid | exact Hpt].
Defined.

(** ** What a run keeps *)

Section Control.

Lemma sameControl_refl (s : Sim) : sameControl s s.
Proof. repeat split. Qed.

Lemma sameControl_trans (s1 s2 s3 : Sim) :
  sameControl s1 s2 -> sameControl s2 s3 -> sameControl s1 s3.
Proof.
  unfold sameControl. intros (A1 & A2 & A3 & A4 & A5 & A6) (B1 & B2 & B3 & B4 & B5 & B6).
  repeat split; congruence.
Qed.

Lemma updateServerHealth_control (s : Sim) : sameControl s (updateServerHealth s).
Proof.
  unfold updateServerHealth.
  apply (rel_fold sameControl sameControl_refl sameControl_trans).
  intros s0 i. unfold updateOneServerHealth.
  destruct (servers s0 !! i) as [server |]; [| apply sameControl_refl]. simpl.
  repeat (match goal with
          | |- context [if ?b then _ else _] => destruct b; simpl
          end); repeat split.
Qed.

Lemma processServerTasks_control (i : sref) (s : Sim) :
  sameControl s (processServerTasks i s).
Proof.
  unfold processServerTasks.
  destruct (servers s !! i) as [server |]; [| apply sameControl_refl].
  destruct (bool_decide (healthStatus server = failedH)).
  - cbv zeta.
    match goal with
    | |- sameControl _ (updServer _ _ ?x) => apply (sameControl_trans _ x)
    end.
    + apply (rel_fold sameControl sameControl_refl sameControl_trans).
      intros s0 r. repeat split.
    + repeat split.
  - repeat split.
Qed.

Lemma ageTasks_control (s : Sim) : sameControl s (ageTasks s).
Proof.
  unfold ageTasks. apply (rel_fold sameControl sameControl_refl sameControl_trans).
  intros s0 r. repeat split.
Qed.

Lemma pushSeries_control (field : string) (v : Q) : EffRel sameControl (pushSeries field v).
Proof.
  intros s. unfold pushSeries.
  destruct (metrics s !! field) as [[xs | g | pg] |]; repeat split.
Qed.

Lemma calculateMetrics_control : EffRel sameControl calculateMetrics.
Proof.
  unfold calculateMetrics.
  apply EffRel_bind; [exact sameControl_trans | apply EffRel_gets, sameControl_refl |].
  intros a. destruct (taskProgress a); [| apply EffRel_throw, sameControl_refl].
  repeat (apply EffRel_bind;
          [exact sameControl_trans | apply pushSeries_control | intros ?]).
  apply pushSeries_control.
Qed.

(** The work of a tick after the clock has advanced: the end-of-run check
    is not reached. *)
Lemma processSimulationStep_control (s : Sim) :
  wellShaped (metrics s) ->
  sameControl (set_simulationTime (simulationTime s + 1) s)
              (snd (processSimulationStep s)).
Proof.
  intros W. unfold processSimulationStep.
  set (s1 := set_simulationTime (simulationTime s + 1) s).
  rewrite (bind_normal _ _ s s1 tt) by reflexivity.
  rewrite (bind_normal _ _ s1 s1 (simulationTime s1)) by reflexivity.
  set (s2 := if Js.rem (simulationTime s1) 3 =? 0 then updateServerHealth s1 else s1).
  rewrite (bind_normal _ _ s1 s2 tt)
    by (subst s2; unfold when; destruct (Js.rem _ 3 =? 0); reflexivity).
  set (s3 := fold_left (fun s i => processServerTasks i s)
                       (seq 0 (length (servers s2))) s2).
  rewrite (bind_normal _ _ s2 s3 tt) by reflexivity.
  rewrite (bind_normal _ _ s3 (ageTasks s3) tt) by reflexivity.
  assert (W4 : wellShaped (metrics (ageTasks s3))).
  { assert (Hadv : advances s (ageTasks s3)).
    { eapply advances_trans; [| apply ageTasks_adv].
      eapply advances_trans;
        [| apply advances_fold; intros s0 i; apply processServerTasks_adv].
      eapply advances_trans; [apply (advances_same s s1); reflexivity |].
      subst s2. destruct (Js.rem _ 3 =? 0);
        [apply updateServerHealth_adv | apply advances_refl]. }
    apply Hadv, W. }
  destruct (calculateAdvancedMetrics_ok _ W4) as (m5 & E5 & W5).
  rewrite (bind_normal _ _ _ _ _ E5).
  set (s5 := set_metrics m5 (ageTasks s3)).
  rewrite (bind_normal _ _ s5 (updateTaskProgress s5) tt) by reflexivity.
  assert (Hthrow := calculateMetrics_throws (updateTaskProgress s5) W5
                      ltac:(simpl; eauto)).
  pose proof (calculateMetrics_control (updateTaskProgress s5)) as H6.
  destruct (calculateMetrics (updateTaskProgress s5)) as [[[] | e] s6] eqn:E6;
    simpl in Hthrow; [discriminate |].
  rewrite (bind_throw _ _ _ _ _ E6). simpl. simpl in H6.
  assert (H2 : sameControl s1 s2).
  { subst s2. destruct (Js.rem _ 3 =? 0);
      [apply updateServerHealth_control | apply sameControl_refl]. }
  assert (H3 : sameControl s2 s3).
  { subst s3. apply (rel_fold sameControl sameControl_refl sameControl_trans).
    intros s0 i. apply processServerTasks_control. }
  assert (H4 : sameControl s3 (ageTasks s3)) by apply ageTasks_control.
  assert (H5 : sameControl (ageTasks s3) (updateTaskProgress s5)) by (repeat split).
  exact (sameControl_trans _ _ _ H2
           (sameControl_trans _ _ _ H3
              (sameControl_trans _ _ _ H4 (sameControl_trans _ _ _ H5 H6)))).
Qed.

End Control.

(** X16: in every state reachable from a reset, a tick advances the clock
    by exactly one and leaves the run state, the configuration, the list of
    tasks, the next task id and the round-robin cursor as they were: the
    end-of-run check at the end of [processSimulationStep] is never reached,
    so a tick never ends the simulation, whatever number of tasks has been
    generated and processed. *)
Theorem tick_never_stops (s0 : Sim) (ops : list Op) :
  let s := run ops (snd (resetSimulation s0)) in
  let s' := snd (processSimulationStep s) in
  simulationTime s' = simulationTime s + 1
  /\ simulationState s' = simulationState s
  /\ config s' = config s
  /\ tasks s' = tasks s
  /\ currentTaskId s' = currentTaskId s
  /\ roundRobinCounter s' = roundRobinCounter s.
Proof.
  intros s s'.
  assert (W : wellShaped (metrics s)).
  { subst s. destruct (resetSimulation_result s0)
      as (s1 & E & _ & _ & _ & _ & _ & _ & _ & Hm & _).
    rewrite E. simpl. apply (run_adv ops s1). rewrite Hm. apply wellShaped_fresh. }
  destruct (processSimulationStep_control s W) as (H1 & H2 & H3 & H4 & H5 & H6).
  fold s' in H1, H2, H3, H4, H5, H6. simpl in *.
  repeat split; assumption.
Qed.

Section Steady.

Lemma keepsSteady_refl (s : Sim) : keepsSteady s s.
Proof. intros H. exact H. Qed.

Lemma keepsSteady_trans (s1 s2 s3 : Sim) :
  keepsSteady s1 s2 -> keepsSteady s2 s3 -> keepsSteady s1 s3.
Proof. unfold keepsSteady. tauto. Qed.

Lemma idsOk_keep (s s' : Sim) :
  heapRel taskKeeps (heap s) (heap s') ->
  tasks s' = tasks s -> currentTaskId s' = currentTaskId s ->
  idsOk s -> idsOk s'.
Proof.
  intros Hh Ht Hc (Hn & Hids). split.
  - rewrite Hc, Ht. exact Hn.
  - intros k r Hk. rewrite Ht in Hk. destruct (Hids k r Hk) as (t & Hr & Hid).
    destruct (Hh r t Hr) as (t' & Hr' & Hkeep). exists t'. split; [exact Hr' |].
    destruct Hkeep as (E & _). congruence.
Qed.

Lemma steady_frame (s s' : Sim) :
  metrics s' = metrics s -> simulationState s' = simulationState s ->
  roundRobinCounter s' = roundRobinCounter s -> heap s' = heap s ->
  tasks s' = tasks s -> currentTaskId s' = currentTaskId s ->
  keepsSteady s s'.
Proof.
  intros Hm Hst Hrr Hh Ht Hc (W & Hs & Hr & Hi). unfold steady.
  rewrite Hm, Hst, Hrr. repeat split; try assumption.
  - apply (idsOk_keep s s'); try assumption.
    rewrite Hh. apply heapRel_refl. exact taskKeeps_refl.
  - apply (idsOk_keep s s'); try assumption.
    rewrite Hh. apply heapRel_refl. exact taskKeeps_refl.
Qed.

Lemma steady_set_state (st : SimulationState) (s : Sim) :
  st <> completedRun -> keepsSteady s (set_simulationState st s).
Proof.
  intros Hst (W & _ & Hr & Hi). split; [exact W |]. split; [exact Hst |].
  split; [exact Hr | exact Hi].
Qed.

Lemma steady_reset (s : Sim) : steady (snd (resetSimulation s)).
Proof.
  destruct (resetSimulation_result s)
    as (s1 & E & _ & _ & Hid & Hrr & Ht & _ & _ & Hm & Hst & _).
  rewrite E. simpl. split; [rewrite Hm; apply wellShaped_fresh |].
  split; [rewrite Hst; discriminate |]. split; [rewrite Hrr; lia |].
  split; rewrite Ht; [rewrite Hid; reflexivity |].
  intros k r Hk. rewrite lookup_nil in Hk. discriminate.
Qed.

Lemma steady_tick (s : Sim) : keepsSteady s (snd (processSimulationStep s)).
Proof.
  intros (W & Hs & Hr & Hi).
  destruct (processSimulationStep_control s W) as (H1 & _ & H3 & H4 & H5 & _).
  simpl in H1, H3, H4, H5.
  split; [apply (processSimulationStep_adv s), W |].
  split; [rewrite H1; exact Hs |]. split; [rewrite H5; exact Hr |].
  apply (idsOk_keep s); try assumption.
  exact (processSimulationStep_relP taskKeeps taskKeeps_refl taskKeeps_trans
           taskKeeps_fail taskKeeps_age taskKeeps_advance s).
Qed.

(** [generateTask] as a call of [assignTask] on the new task. *)
Lemma generateTask_assign (s : Sim) :
  exists task s3,
    generateTask s = assignTask (length (heap s)) s3
    /\ heap s3 = heap s ++ [task]
    /\ tasks s3 = tasks s ++ [length (heap s)]
    /\ currentTaskId s3 = currentTaskId s + 1
    /\ id task = currentTaskId s /\ tfailed task = false
    /\ simulationState s3 = simulationState s
    /\ roundRobinCounter s3 = roundRobinCounter s
    /\ config s3 = config s /\ servers s3 = servers s
    /\ failedTasks s3 = failedTasks s.
Proof. eexists _, _. split; [reflexivity |]. simpl. repeat split. Qed.

Lemma selectServerByAlgorithm_counter hs (task : Task) (s : Sim) :
  0 <= roundRobinCounter s ->
  0 <= roundRobinCounter (snd (selectServerByAlgorithm hs task s)).
Proof.
  intros Hr. unfold selectServerByAlgorithm.
  destruct (algorithm (config s)); simpl; try exact Hr.
  - unfold roundRobinSelection.
    destruct (Z.eqb_spec (Z.of_nat (length hs)) 0) as [Hz | Hz]; simpl; [exact Hr |].
    unfold Js.rem. apply Z.rem_nonneg; lia.
  - unfold randomizedSelection. simpl. destruct (roulette hs _ _); exact Hr.
Qed.

Lemma assignTask_counter (r : tref) (s : Sim) :
  0 <= roundRobinCounter s -> 0 <= roundRobinCounter (assignTask r s).
Proof.
  intros Hr. unfold assignTask.
  destruct (heap s !! r) as [task |]; [| exact Hr].
  destruct (Z.of_nat (length (healthyServersOf (servers s))) =? 0); [exact Hr |].
  pose proof (selectServerByAlgorithm_counter (healthyServersOf (servers s)) task s Hr)
    as H1.
  destruct (selectServerByAlgorithm _ task s) as [sel s1]. simpl in H1.
  destruct sel as [[i sv] |]; exact H1.
Qed.

Lemma steady_generate (s : Sim) : keepsSteady s (generateTask s).
Proof.
  intros (W & Hs & Hr & Hn & Hids).
  destruct (generateTask_assign s)
    as (task & s3 & E & Hh3 & Ht3 & Hc3 & Hid & _ & Hst3 & Hrr3 & _).
  assert (Hnew : heap s3 !! length (heap s) = Some task).
  { rewrite Hh3. apply list_lookup_middle. reflexivity. }
  destruct (assignTask_task _ _ _ Hnew)
    as ((t' & Ht' & Hshape) & Hts & Hcur & _ & _ & Hst & _).
  split; [apply (generateTask_adv s), W |].
  split; [rewrite E, Hst, Hst3; exact Hs |].
  split; [rewrite E; apply assignTask_counter; rewrite Hrr3; exact Hr |].
  split.
  - rewrite E, Hts, Hcur, Ht3, Hc3, Hn, length_app. simpl. lia.
  - intros k r Hk. rewrite E, Hts, Ht3 in Hk.
    apply lookup_app_Some in Hk as [Hk | (Hge & Hk)].
    + destruct (Hids k r Hk) as (t & Hrt & Hidt). exists t.
      split; [apply generateTask_old, Hrt | exact Hidt].
    + destruct (k - length (tasks s))%nat as [| j] eqn:Ej; [| destruct j; discriminate].
      injection Hk as <-. exists t'. rewrite E. split; [exact Ht' |].
      assert (Hidt : id t' = id task)
        by (destruct Hshape as [-> | (n & ->)]; reflexivity).
      rewrite Hidt, Hid, Hn. lia.
Qed.

Lemma startSimulation_steady : EffRel keepsSteady startSimulation.
Proof.
  intros s. unfold startSimulation.
  rewrite (bind_normal _ _ s s (simulationState s)) by reflexivity.
  intros Hs. destruct (simulationState s) eqn:Est; unfold when.
  - destruct (resetSimulation_result s) as (s1 & E & _).
    pose proof (steady_reset s) as H1. rewrite E in H1. simpl in H1.
    rewrite (bind_normal _ _ _ _ _ E).
    apply steady_set_state; [discriminate | exact H1].
  - rewrite (bind_normal _ _ s s tt) by reflexivity.
    apply steady_set_state; [discriminate | exact Hs].
  - rewrite (bind_normal _ _ s s tt) by reflexivity.
    apply steady_set_state; [discriminate | exact Hs].
  - rewrite (bind_normal _ _ s s tt) by reflexivity.
    apply steady_set_state; [discriminate | exact Hs].
Qed.

Lemma stepSimulation_steady : EffRel keepsSteady stepSimulation.
Proof.
  intros s. unfold stepSimulation. rewrite (bind_normal _ _ s s s) by reflexivity.
  intros Hs.
  assert (Hgo : steady (snd ((when (currentTaskId s - 1 <? taskCount (config s))
                                   (lift generateTask);; processSimulationStep) s))).
  { set (s' := if currentTaskId s - 1 <? taskCount (config s)
               then generateTask s else s).
    rewrite (bind_normal _ _ s s' tt)
      by (subst s'; destruct (_ <? _); reflexivity).
    apply steady_tick. subst s'.
    destruct (_ <? _); [apply steady_generate, Hs | exact Hs]. }
  destruct (simulationState s); [exact Hgo | exact Hs | exact Hgo | exact Hs].
Qed.

Lemma simulateRandomFailure_steady (s : Sim) : keepsSteady s (simulateRandomFailure s).
Proof.
  apply steady_frame; unfold simulateRandomFailure;
    destruct (0 <? _); try reflexivity; simpl;
    destruct (Js.index _ _) as [[i sv] |]; reflexivity.
Qed.

Lemma fireRecoveryTimer_steady (k : nat) (s : Sim) : keepsSteady s (fireRecoveryTimer k s).
Proof.
  apply steady_frame; unfold fireRecoveryTimer;
    destruct (recoveryTimers s !! k); reflexivity.
Qed.

Lemma perform_steady (o : Op) : EffRel keepsSteady (perform o).
Proof.
  destruct o.
  - intros s _. apply steady_reset.
  - exact startSimulation_steady.
  - intros s. apply steady_set_state. discriminate.
  - intros s. apply steady_set_state. discriminate.
  - intros s. apply steady_tick.
  - intros s. apply steady_generate.
  - exact stepSimulation_steady.
  - intros s. apply simulateRandomFailure_steady.
  - intros s. apply steady_frame; reflexivity.
  - intros s. apply fireRecoveryTimer_steady.
  - intros s. apply steady_frame; reflexivity.
  - intros s. apply steady_frame; reflexivity.
Qed.
Lemma run_steady (ops : list Op) (s : Sim) : keepsSteady s (run ops s).
Proof.
  unfold run. apply (rel_fold keepsSteady keepsSteady_refl keepsSteady_trans).
  intros s0 o. apply perform_steady.
Qed.

Lemma reachable_steady (s0 : Sim) (ops : list Op) :
  steady (run ops (snd (resetSimulation s0))).
Proof. apply run_steady, steady_reset. Qed.

End Steady.

(** X17: from a reset, whatever the page's controls and the timers ask
    (start, pause, resume, step, ticks, arrivals, failures, recoveries,
    configuration changes), the run state is never 'completed'. *)
Theorem run_never_completes (s0 : Sim) (ops : list Op) :
  simulationState (run ops (snd (resetSimulation s0))) <> completedRun.
Proof. destruct (reachable_steady s0 ops) as (_ & H & _). exact H. Qed.

(** X18: in every state reachable from a reset, task ids follow the arrival
    order: the k-th task of [this.tasks] (from 0) has id k + 1, so ids are
    distinct, and the next id is the number of tasks plus one. *)
Theorem task_ids_consecutive (s0 : Sim) (ops : list Op) :
  let s := run ops (snd (resetSimulation s0)) in
  idsOk s
  /\ forall k1 k2 r1 r2 t1 t2,
       tasks s !! k1 = Some r1 -> tasks s !! k2 = Some r2 ->
       heap s !! r1 = Some t1 -> heap s !! r2 = Some t2 ->
       id t1 = id t2 -> k1 = k2.
Proof.
  intros s. destruct (reachable_steady s0 ops) as (_ & _ & _ & Hi). fold s in Hi.
  split; [exact Hi |]. destruct Hi as (_ & Hids).
  intros k1 k2 r1 r2 t1 t2 Hk1 Hk2 Hr1 Hr2 Heq.
  destruct (Hids k1 r1 Hk1) as (t1' & Hr1' & Hid1).
  destruct (Hids k2 r2 Hk2) as (t2' & Hr2' & Hid2).
  assert (t1' = t1) by congruence. assert (t2' = t2) by congruence. subst. lia.
Qed.

(** X19: in every state reachable from a reset, a task that arrives while
    some server is healthy or degraded is assigned, under every algorithm:
    it leaves [generateTask] with status 'processing' and the id of one of
    those servers, and [failedTasks] does not grow. *)
Theorem arrival_assigned (s0 : Sim) (ops : list Op) :
  let s := run ops (snd (resetSimulation s0)) in
  (exists i sv, servers s !! i = Some sv /\ available sv) ->
  exists t i sv,
    heap (generateTask s) !! length (heap s) = Some t
    /\ status t = processing /\ tfailed t = false
    /\ servers s !! i = Some sv /\ available sv
    /\ assignedServer t = Some (sid sv)
    /\ failedTasks (generateTask s) = failedTasks s.
Proof.
  intros s Hav. destruct (reachable_steady s0 ops) as (_ & _ & Hr & _). fold s in Hr.
  destruct (generateTask_assign s)
    as (task & s3 & E & Hh3 & _ & _ & _ & Hnf & _ & Hrr3 & _ & Hsv3 & Hft3).
  assert (Hnew : heap s3 !! length (heap s) = Some task).
  { rewrite Hh3. apply list_lookup_middle. reflexivity. }
  destruct (assignTask_selects (length (heap s)) s3 task Hnew)
    as (i & sv & sv' & Hi & Ha & Ht & _ & _ & _ & _ & _ & Hft).
  - rewrite Hsv3. exact Hav.
  - intros _. rewrite Hrr3. exact Hr.
  - eexists _, i, sv. rewrite E. split; [exact Ht |].
    split; [reflexivity |]. split; [exact Hnf |].
    rewrite <- Hsv3. split; [exact Hi |]. split; [exact Ha |].
    split; [reflexivity |]. rewrite Hft. exact Hft3.
Qed.

Lemma arrival_assigned_witness :
  exists t, heap (generateTask (run [] (snd (resetSimulation busyScenario)))) !! 5%nat
            = Some t
            /\ status t = processing.
Proof.
  assert (Hav : exists i sv,
             servers (run [] (snd (resetSimulation busyScenario))) !! i = Some sv
             /\ available sv).
  { exists 0%nat. vm_compute. eexists. split; [reflexivity | left; reflexivity]. }
  destruct (arrival_assigned busyScenario [] Hav) as (t & i & sv & Ht & Hs & _).
  exists t. split; [| exact Hs].
  replace 5%nat with (length (heap (run [] (snd (resetSimulation busyScenario)))))
    by (vm_compute; reflexivity).
  exact Ht.
Defined.
